(** * Edge TTS Subtitle Dubbing: a shallow embedding of [src/main.py]

    The development models the synchronization engine of [srt_to_audio_numpy],
    the duration fitter [adjust_audio_length] and the batched generation with
    its text cache, then the target duration, the export and the cleanup,
    and proves properties of them.

    Conventions.
    - Python [float] is IEEE binary64: it is modelled by Rocq's primitive
      [float], whose operations are the same binary64 operations.  Python
      [int] is [Z].  Conversions between the two follow CPython
      ([float_of_int], [py_int]).
    - A Python exception that leaves a function is the [Raise] case of
      [result]; a [try]/[except Exception] block becomes a match on it.
    - The collaborators the program calls but does not define (the TTS
      backend, [librosa.load], [stretch_audio], [shutil.copy2], [md5]) are
      fields of a [world] record: each field says what that call returns or
      whether it raises.
    - The files under the temporary directory are a finite map from paths to
      contents.
    - The waits between retries are left out.  What is printed is left
      out; what is logged changes neither the buffer nor the statistics, and
      it is left out of [srt_to_audio_numpy] and of the functions that one is
      made of.
    - [srt_to_audio_numpy] is the run up to its summary, as a function of the
      parsed subtitles; [srt_to_audio_numpy_fs] is the run for the parsed
      subtitles up to the cleanup, with the files it leaves, the log file
      among them, and with the local names that may be unbound
      ([generation_errors], [shutil]).  The calls of that second part ([int],
      [float], [ffprobe], [ffmpeg], [sf.write], [os.remove],
      [shutil.rmtree]) and the records of the log are the fields of a [host]
      record.
    - Paths are compared as strings: two names are two files, and a file is
      inside a directory when its name starts with the name of the
      directory.  Directories themselves are not modelled: making one
      succeeds.  Of what comes before the subtitles are parsed (lines
      376-419), only the records it logs are kept. *)

From Stdlib Require Import ZArith QArith List String Ascii Floats Lia Bool.
From Stdlib Require Uint63.
From stdpp Require Import base option list gmap strings pretty.

Set Warnings "-inexact-float".
Local Open Scope Z_scope.

(* ================================================================== *)
(** * Python values *)

Inductive exception :=
| ZeroDivisionError
| ValueError
| OverflowError
| UnboundLocalError
| NetworkError.

Inductive result (A : Type) : Type :=
| OK (a : A)
| Raise (e : exception).
Arguments OK {A} a.
Arguments Raise {A} e.

#[global] Instance result_ret : MRet result := @OK.
#[global] Instance result_bind : MBind result :=
  fun A B f r => match r with OK a => f a | Raise e => Raise e end.

(** ** Numbers *)

(** [float(n)] for a Python int: the nearest binary64 number, ties to even;
    [OverflowError] when [n] is too large. *)
Definition float_of_int (n : Z) : result float :=
  let f := SF2Prim (binary_normalize prec emax n 0 false) in
  if PrimFloat.is_infinity f then Raise OverflowError else OK f.

Definition SF_of_int (n : Z) : spec_float :=
  match n with
  | Z0 => S754_zero false
  | Zpos p => S754_finite false p 0
  | Zneg p => S754_finite true p 0
  end.

(** [a / b] on two Python ints: the correctly rounded quotient. *)
Definition py_int_truediv (a b : Z) : result float :=
  if b =? 0 then Raise ZeroDivisionError
  else
    let q := SF2Prim (SFdiv prec emax (SF_of_int a) (SF_of_int b)) in
    if PrimFloat.is_infinity q then Raise OverflowError else OK q.

(** [x / y] on two Python floats. *)
Definition py_float_truediv (x y : float) : result float :=
  if PrimFloat.is_zero y then Raise ZeroDivisionError else OK (x / y)%float.

(** [x * n] for a float [x] and an int [n]: [n] is converted first. *)
Definition py_float_mul_int (x : float) (n : Z) : result float :=
  f ← float_of_int n; OK (x * f)%float.

(** The integer a finite binary64 number truncates to. *)
Definition SF_trunc (s : bool) (m : positive) (e : Z) : Z :=
  let a := if 0 <=? e then Zpos m * 2 ^ e else Zpos m / 2 ^ (- e) in
  if s then - a else a.

(** [int(x)]: truncation toward zero; [ValueError] on a NaN and
    [OverflowError] on an infinity. *)
Definition py_int (x : float) : result Z :=
  match Prim2SF x with
  | S754_nan => Raise ValueError
  | S754_infinity _ => Raise OverflowError
  | S754_zero _ => OK 0
  | S754_finite s m e => OK (SF_trunc s m e)
  end.

(** [round(x)], which the specification states the fitter's sample count
    with: the nearest integer, ties to the even one.  The program does not
    call it. *)
Definition py_round (x : float) : result Z :=
  match Prim2SF x with
  | S754_nan => Raise ValueError
  | S754_infinity _ => Raise OverflowError
  | S754_zero _ => OK 0
  | S754_finite s m e =>
      let a :=
        if 0 <=? e then Zpos m * 2 ^ e
        else
          let d := 2 ^ (- e) in
          let q := Zpos m / d in
          let r := Zpos m mod d in
          if 2 * r <? d then q
          else if d <? 2 * r then q + 1
          else if Z.even q then q else q + 1 in
      OK (if s then - a else a)
  end.

(** ** Strings *)

(** [str.replace(old, new)], scanning left to right; [skip] counts the
    characters of a match that are still to be dropped. *)
Fixpoint str_replace_go (old new : string) (skip : nat) (s : string) : string :=
  match s with
  | EmptyString => EmptyString
  | String c rest =>
      match skip with
      | S k => str_replace_go old new k rest
      | O =>
          if String.prefix old s
          then new +:+ str_replace_go old new (Nat.pred (String.length old)) rest
          else String c (str_replace_go old new O rest)
      end
  end.

Definition str_replace (old new s : string) : string :=
  match old with
  | EmptyString => s
  | _ => str_replace_go old new O s
  end.

(** [str.isspace] on one character (code points below 256). *)
Definition py_isspace (c : ascii) : bool :=
  let n := nat_of_ascii c in
  ((9 <=? n) && (n <=? 13) || (28 <=? n) && (n <=? 32)
   || (n =? 133) || (n =? 160))%nat.

Fixpoint str_lstrip (s : string) : string :=
  match s with
  | EmptyString => EmptyString
  | String c rest => if py_isspace c then str_lstrip rest else s
  end.

Definition str_rstrip (s : string) : string :=
  String.rev (str_lstrip (String.rev s)).

(** [str.strip()] *)
Definition str_strip (s : string) : string := str_rstrip (str_lstrip s).

Definition chr_lower (c : ascii) : ascii :=
  let n := nat_of_ascii c in
  if ((65 <=? n) && (n <=? 90)
      || (192 <=? n) && (n <=? 222) && negb (n =? 215))%nat
  then ascii_of_nat (n + 32) else c.

(** [str.lower()] (code points below 256). *)
Fixpoint str_lower (s : string) : string :=
  match s with
  | EmptyString => EmptyString
  | String c rest => String (chr_lower c) (str_lower rest)
  end.

(** [os.path.join(a, b)] for a relative [b]. *)
Definition dir_prefix (a : string) : string :=
  match a with
  | EmptyString => EmptyString
  | _ => if String.prefix "/" (String.rev a) then a else a +:+ "/"
  end.

Definition os_path_join (a b : string) : string := dir_prefix a +:+ b.

(** ** Arrays of samples *)

Abbreviation waveform := (list float).

(** [len(y)] *)
Definition len {A} (y : list A) : Z := Z.of_nat (length y).

(** [np.zeros(n, dtype=np.float32)]: a negative dimension raises. *)
Definition np_zeros (n : Z) : result waveform :=
  if n <? 0 then Raise ValueError else OK (replicate (Z.to_nat n) 0%float).

(** [np.pad(y, (0, padding), 'constant')] *)
Definition np_pad (y : waveform) (padding : Z) : waveform :=
  y ++ replicate (Z.to_nat padding) 0%float.

(** [y[:n]]: a negative [n] counts from the end. *)
Definition py_slice_to (y : waveform) (n : Z) : waveform :=
  if 0 <=? n then take (Z.to_nat n) y
  else take (length y - Z.to_nat (- n))%nat y.

(* ================================================================== *)
(** * Constants *)

(** The decimal literals denote the nearest binary64 numbers, as in Python. *)
Definition SAMPLE_RATE : Z := 24000.
Definition OVERLAP_THRESHOLD : float := 0.01%float.
Definition MIN_SEGMENT_DURATION : float := 0.05%float.
Definition FINAL_PADDING_THRESHOLD : float := 0.01%float.
Definition EXCESS_AUDIO_WARNING_THRESHOLD : float := 1.0%float.

(* ================================================================== *)
(** * The collaborators *)

Abbreviation bytes := (list Byte.byte).
Abbreviation files := (gmap string (list Byte.byte)).

(** A call that raises is taken to leave the files as they were: a failed
    [save] or [copy2] writes nothing.  The tasks of one generation batch,
    which run interleaved, are taken in the order of the list. *)

(** The three places of [srt_to_audio_numpy] that call [shutil.copy2]. *)
Inductive copy_site := FirstPass | AfterGeneration | Propagation.

Record world := {
  (** [hashlib.md5(s.encode('utf-8')).hexdigest()] *)
  md5_hexdigest : string -> string;
  (** [edge_tts.Communicate(text, voice).save(path)] at attempt [i]: the
      bytes it writes, or [None] when it raises. *)
  tts_save : string -> string -> nat -> option bytes;
  (** whether [shutil.copy2] to the clip of cue [i] succeeds at a site *)
  copy2_ok : copy_site -> nat -> bool;
  (** what [librosa.load(_, sr)] decodes a file's contents to, or [None]
      when it raises *)
  decode_audio : bytes -> Z -> option waveform;
  (** what [stretch_audio(_, _, ratio, sample_rate)] writes for an input
      file's contents, or [None] when it raises *)
  stretch : bytes -> float -> Z -> option bytes
}.

Definition path_exists (fs : files) (p : string) : bool :=
  bool_decide (is_Some (fs !! p)).

(** [os.path.exists(p) and os.path.getsize(p) > 0] *)
Definition exists_nonempty (fs : files) (p : string) : bool :=
  match fs !! p with
  | Some (_ :: _) => true
  | _ => false
  end.

(** [librosa.load(path, sr=sample_rate)]: a missing file raises. *)
Definition librosa_load (W : world) (fs : files) (path : string) (sr : Z)
  : option waveform :=
  match fs !! path with
  | Some b => decode_audio W b sr
  | None => None
  end.

(** [stretch_audio(input, output, ratio=..., sample_rate=...)]: the files
    afterwards, or [None] when it raises. *)
Definition stretch_audio (W : world) (fs : files) (input output : string)
    (ratio : float) (sr : Z) : option files :=
  match fs !! input with
  | Some b =>
      match stretch W b ratio sr with
      | Some b' => Some (<[output := b']> fs)
      | None => None
      end
  | None => None
  end.

(* ================================================================== *)
(** * Duration fitter: [adjust_audio_length] *)

(** Lines 294-301: the ratio handed to the stretch primitive. *)
Definition stretch_ratio (desired_length current_length max_speed_factor : float)
  : result float :=
  ratio ← py_float_truediv desired_length current_length;
  min_ratio ← py_float_truediv 1%float max_speed_factor;
  OK (if (ratio <? min_ratio)%float then min_ratio else ratio).

(** Lines 307-322: the body of the [try] block. *)
Definition stretch_and_fit (W : world) (fs : files) (input_tmp output_tmp : string)
    (ratio desired_length : float) (sample_rate : Z) : result waveform :=
  match stretch_audio W fs input_tmp output_tmp ratio sample_rate with
  | None => Raise ValueError   (* some exception: the caller catches all *)
  | Some fs' =>
      match librosa_load W fs' output_tmp sample_rate with
      | None => Raise ValueError
      | Some y_stretched =>
          scaled ← py_float_mul_int desired_length sample_rate;
          target_samples ← py_int scaled;
          if len y_stretched <? target_samples then
            OK (np_pad y_stretched (target_samples - len y_stretched))
          else if target_samples <? len y_stretched then
            OK (py_slice_to y_stretched target_samples)
          else OK y_stretched
      end
  end.

(** Line 304: the path of the temporary stretched file. *)
Definition output_tmp_path (wav_path : string) : string :=
  str_replace ".wav" "_stretched.wav"
    (str_replace ".mp3" "_stretched.wav" wav_path).

Definition adjust_audio_length (W : world) (fs : files) (wav_path : string)
    (desired_length : float) (sample_rate : Z) (max_speed_factor : float)
  : result waveform :=
  match librosa_load W fs wav_path sample_rate with
  | None => OK []
  | Some y =>
      current_length ← py_int_truediv (len y) sample_rate;
      if (desired_length <=? 0)%float then OK y
      else
        ratio ← stretch_ratio desired_length current_length max_speed_factor;
        let input_tmp := wav_path in
        let output_tmp := output_tmp_path wav_path in
        match stretch_and_fit W fs input_tmp output_tmp ratio desired_length
                sample_rate with
        | OK y_stretched => OK y_stretched
        | Raise _ => OK y
        end
  end.

(* ================================================================== *)
(** * Cues and run statistics *)

(** A [pysrt] time stamp and a subtitle entry. *)
Record SubRipTime := {
  hours : Z;
  minutes : Z;
  seconds : Z;
  milliseconds : Z
}.

Record SubRipItem := {
  sub_start : SubRipTime;
  sub_end : SubRipTime;
  sub_text : string
}.

Definition time_str_to_seconds (t_obj : SubRipTime) : result float :=
  ms ← float_of_int (milliseconds t_obj);
  whole ← float_of_int (hours t_obj * 3600 + minutes t_obj * 60 + seconds t_obj);
  OK (whole + ms / 1000)%float.

Definition newline : string := String (ascii_of_nat 10) EmptyString.

(** [sub.text.replace('\n', ' ').strip()] *)
Definition cue_text (sub : SubRipItem) : string :=
  str_strip (str_replace newline " " (sub_text sub)).

(** The [stats] dictionary. *)
Record stats := {
  stats_total : nat;
  stats_generated : nat;
  stats_resumed : nat;
  stats_cached : nat;
  stats_failed : nat;
  stats_empty : nat;
  stats_overlaps : nat;
  stats_late_starts : nat
}.

Definition new_stats (n : nat) : stats :=
  {| stats_total := n; stats_generated := 0; stats_resumed := 0;
     stats_cached := 0; stats_failed := 0; stats_empty := 0;
     stats_overlaps := 0; stats_late_starts := 0 |}.

Definition incr_generated (s : stats) : stats :=
  {| stats_total := stats_total s; stats_generated := S (stats_generated s);
     stats_resumed := stats_resumed s; stats_cached := stats_cached s;
     stats_failed := stats_failed s; stats_empty := stats_empty s;
     stats_overlaps := stats_overlaps s;
     stats_late_starts := stats_late_starts s |}.

Definition incr_resumed (s : stats) : stats :=
  {| stats_total := stats_total s; stats_generated := stats_generated s;
     stats_resumed := S (stats_resumed s); stats_cached := stats_cached s;
     stats_failed := stats_failed s; stats_empty := stats_empty s;
     stats_overlaps := stats_overlaps s;
     stats_late_starts := stats_late_starts s |}.

Definition incr_cached (s : stats) : stats :=
  {| stats_total := stats_total s; stats_generated := stats_generated s;
     stats_resumed := stats_resumed s; stats_cached := S (stats_cached s);
     stats_failed := stats_failed s; stats_empty := stats_empty s;
     stats_overlaps := stats_overlaps s;
     stats_late_starts := stats_late_starts s |}.

Definition incr_failed (s : stats) : stats :=
  {| stats_total := stats_total s; stats_generated := stats_generated s;
     stats_resumed := stats_resumed s; stats_cached := stats_cached s;
     stats_failed := S (stats_failed s); stats_empty := stats_empty s;
     stats_overlaps := stats_overlaps s;
     stats_late_starts := stats_late_starts s |}.

Definition incr_empty (s : stats) : stats :=
  {| stats_total := stats_total s; stats_generated := stats_generated s;
     stats_resumed := stats_resumed s; stats_cached := stats_cached s;
     stats_failed := stats_failed s; stats_empty := S (stats_empty s);
     stats_overlaps := stats_overlaps s;
     stats_late_starts := stats_late_starts s |}.

Definition incr_overlaps (s : stats) : stats :=
  {| stats_total := stats_total s; stats_generated := stats_generated s;
     stats_resumed := stats_resumed s; stats_cached := stats_cached s;
     stats_failed := stats_failed s; stats_empty := stats_empty s;
     stats_overlaps := S (stats_overlaps s);
     stats_late_starts := stats_late_starts s |}.

Definition incr_late_starts (s : stats) : stats :=
  {| stats_total := stats_total s; stats_generated := stats_generated s;
     stats_resumed := stats_resumed s; stats_cached := stats_cached s;
     stats_failed := stats_failed s; stats_empty := stats_empty s;
     stats_overlaps := stats_overlaps s;
     stats_late_starts := S (stats_late_starts s) |}.

(* ================================================================== *)
(** * Cache store and generation (lines 459-555) *)

Definition raw_audio_path (temp_dir : string) (i : nat) : string :=
  os_path_join temp_dir ("raw_" +:+ pretty i +:+ ".mp3").

Definition cache_path_of (W : world) (temp_dir text : string) : string :=
  let cache_dir := os_path_join temp_dir "cache" in
  let text_hash := md5_hexdigest W (str_lower text) in
  os_path_join cache_dir ("cache_" +:+ text_hash +:+ ".mp3").

(** [shutil.copy2(src, dst)] when it succeeds. *)
Definition copy_file (fs : files) (src dst : string) : files :=
  match fs !! src with
  | Some b => <[dst := b]> fs
  | None => fs
  end.

(** What the first pass threads through its loop. *)
Record prepare_state := {
  ps_files : files;
  ps_stats : stats;
  segments_to_generate : list (string * string * nat);
  text_to_cache : gmap string string
}.

(** [if text not in text_to_cache: ...] (lines 490-492 and 495-497). *)
Definition schedule (text cache_path : string) (i : nat) (p : prepare_state)
  : prepare_state :=
  match text_to_cache p !! text with
  | Some _ => p
  | None =>
      {| ps_files := ps_files p;
         ps_stats := ps_stats p;
         segments_to_generate := segments_to_generate p ++ [(text, cache_path, i)];
         text_to_cache := <[text := cache_path]> (text_to_cache p) |}
  end.

Definition with_stats (f : stats -> stats) (p : prepare_state) : prepare_state :=
  {| ps_files := ps_files p;
     ps_stats := f (ps_stats p);
     segments_to_generate := segments_to_generate p;
     text_to_cache := text_to_cache p |}.

Definition with_files (fs : files) (p : prepare_state) : prepare_state :=
  {| ps_files := fs;
     ps_stats := ps_stats p;
     segments_to_generate := segments_to_generate p;
     text_to_cache := text_to_cache p |}.

(** The state the first pass starts from. *)
Definition initial_prepare_state (fs : files) (n : nat) : prepare_state :=
  {| ps_files := fs; ps_stats := new_stats n;
     segments_to_generate := []; text_to_cache := ∅ |}.

(** One iteration of the first pass (lines 463-497). *)
Definition first_pass_step (W : world) (temp_dir : string) (resume : bool)
    (p : prepare_state) (i : nat) (sub : SubRipItem) : prepare_state :=
  let text := cue_text sub in
  if bool_decide (text = EmptyString) then with_stats incr_empty p
  else
    let raw_audio_path := raw_audio_path temp_dir i in
    let exists_ := exists_nonempty (ps_files p) raw_audio_path in
    if resume && exists_ then with_stats incr_resumed p
    else
      let cache_path := cache_path_of W temp_dir text in
      if exists_nonempty (ps_files p) cache_path then
        if copy2_ok W FirstPass i then
          with_stats incr_cached
            (with_files (copy_file (ps_files p) cache_path raw_audio_path) p)
        else schedule text cache_path i p
      else schedule text cache_path i p.

(** [for i, sub in enumerate(subs)], from index [i] on. *)
Fixpoint first_pass (W : world) (temp_dir : string) (resume : bool)
    (i : nat) (subs : list SubRipItem) (p : prepare_state) : prepare_state :=
  match subs with
  | [] => p
  | sub :: rest =>
      first_pass W temp_dir resume (S i) rest
        (first_pass_step W temp_dir resume p i sub)
  end.

(** [generate_audio_segment]: the loop over [range(retries + 1)], from a
    list of attempt numbers; the exception it leaves with, if any. *)
Fixpoint generate_audio_segment_loop (W : world) (text output_file : string)
    (retries : Z) (attempts : list nat) (fs : files) : files * option exception :=
  match attempts with
  | [] => (fs, None)
  | i :: rest =>
      match tts_save W text output_file i with
      | Some b => (<[output_file := b]> fs, None)
      | None =>
          if Z.of_nat i <? retries
          then generate_audio_segment_loop W text output_file retries rest fs
          else (fs, Some NetworkError)
      end
  end.

Definition generate_audio_segment (W : world) (text output_file : string)
    (retries : Z) (fs : files) : files * option exception :=
  generate_audio_segment_loop W text output_file retries
    (seq 0 (Z.to_nat (retries + 1))) fs.

(** [generate_one] catches the exception and returns it with the index;
    the results of a batch are then stored in [all_results]. *)
Definition generate_one (W : world) (retries : Z)
    (acc : files * gmap nat (option exception)) (item : string * string * nat)
  : files * gmap nat (option exception) :=
  let '(text, output_path, index) := item in
  let '(fs, e) := generate_audio_segment W text output_path retries (fst acc) in
  (fs, <[index := e]> (snd acc)).

(** [segments_info[i:i + batch_size]] for [i] in
    [range(0, len(segments_info), batch_size)]. *)
Fixpoint batches {A} (fuel batch_size : nat) (l : list A) : list (list A) :=
  match fuel with
  | O => []
  | S fuel' =>
      match l with
      | [] => []
      | _ => take batch_size l :: batches fuel' batch_size (drop batch_size l)
      end
  end.

Definition generate_audio_batch (W : world)
    (segments_info : list (string * string * nat)) (batch_size retries : Z)
    (fs : files) : result (files * gmap nat (option exception)) :=
  if batch_size =? 0 then Raise ValueError
  else if batch_size <? 0 then OK (fs, ∅)
  else
    OK (fold_left
          (fun acc batch => fold_left (generate_one W retries) batch acc)
          (batches (length segments_info) (Z.to_nat batch_size) segments_info)
          (fs, ∅)).

(** One iteration of the loop over the generated segments (lines 513-530). *)
Definition after_generation_step (W : world) (temp_dir : string)
    (generation_errors : gmap nat (option exception))
    (acc : files * stats) (item : string * string * nat) : files * stats :=
  let '(text, cache_path, idx) := item in
  let raw_audio_path := raw_audio_path temp_dir idx in
  match generation_errors !! idx with
  | Some None =>
      if path_exists (fst acc) cache_path then
        if copy2_ok W AfterGeneration idx
        then (copy_file (fst acc) cache_path raw_audio_path,
              incr_generated (snd acc))
        else (fst acc, incr_failed (snd acc))
      else (fst acc, incr_generated (snd acc))
  | _ => (fst acc, incr_failed (snd acc))
  end.

(** One iteration of the propagation loop (lines 533-555). *)
Definition propagate_step (W : world) (temp_dir : string) (fs : files)
    (i : nat) (sub : SubRipItem) : files :=
  let text := cue_text sub in
  if bool_decide (text = EmptyString) then fs
  else
    let raw_audio_path := raw_audio_path temp_dir i in
    if exists_nonempty fs raw_audio_path then fs
    else
      let cache_path := cache_path_of W temp_dir text in
      if path_exists fs cache_path && copy2_ok W Propagation i
      then copy_file fs cache_path raw_audio_path
      else fs.

Fixpoint propagate (W : world) (temp_dir : string) (i : nat)
    (subs : list SubRipItem) (fs : files) : files :=
  match subs with
  | [] => fs
  | sub :: rest =>
      propagate W temp_dir (S i) rest (propagate_step W temp_dir fs i sub)
  end.

(* ================================================================== *)
(** * Synchronization engine (lines 559-636) *)

(** The accumulation buffer with its sample counter, and the statistics. *)
Record sync_state := {
  audio_segments : list waveform;
  current_total_samples : Z;
  sync_stats : stats
}.

(** [audio_segments.append(chunk); current_total_samples += n] *)
Definition append_chunk (st : sync_state) (chunk : waveform) (n : Z) : sync_state :=
  {| audio_segments := audio_segments st ++ [chunk];
     current_total_samples := current_total_samples st + n;
     sync_stats := sync_stats st |}.

Definition count (f : stats -> stats) (st : sync_state) : sync_state :=
  {| audio_segments := audio_segments st;
     current_total_samples := current_total_samples st;
     sync_stats := f (sync_stats st) |}.

(** [int(sec * SAMPLE_RATE)] zero samples appended to the buffer. *)
Definition append_silence (st : sync_state) (sec : float) : result sync_state :=
  scaled ← py_float_mul_int sec SAMPLE_RATE;
  n_samples ← py_int scaled;
  silence_chunk ← np_zeros n_samples;
  OK (append_chunk st silence_chunk n_samples).

(** Step 1 of an iteration: the gap before the cue (lines 566-579). *)
Definition pre_gap (st : sync_state) (start_sec : float) : result sync_state :=
  current_head_sec ← py_int_truediv (current_total_samples st) SAMPLE_RATE;
  let gap_sec := (start_sec - current_head_sec)%float in
  if (0 <? gap_sec)%float then append_silence st gap_sec
  else if (gap_sec <? - OVERLAP_THRESHOLD)%float then OK (count incr_overlaps st)
  else OK st.

(** The rest of an iteration (lines 581-623).  [generation_errors] is
    [None] while the variable is unbound: it is assigned only when
    [segments_to_generate] is not empty (line 510). *)
Definition cue_body (W : world) (fs : files) (temp_dir : string)
    (generation_errors : option (gmap nat (option exception)))
    (max_speed : float) (st : sync_state) (i : nat) (text : string)
    (end_sec target_span_sec : float) : result sync_state :=
  if bool_decide (text = EmptyString) then
    let st := count incr_empty st in
    current_head_sec ← py_int_truediv (current_total_samples st) SAMPLE_RATE;
    let needed_sec := (end_sec - current_head_sec)%float in
    if (0 <? needed_sec)%float then append_silence st needed_sec
    else OK st
  else
    let raw_audio_path := raw_audio_path temp_dir i in
    match generation_errors with
    | None => Raise UnboundLocalError
    | Some errors =>
        match errors !! i with
        | Some (Some _) => append_silence st target_span_sec
        | _ =>
            current_head_sec ←
              py_int_truediv (current_total_samples st) SAMPLE_RATE;
            let target_dur_for_segment := (end_sec - current_head_sec)%float in
            let late := (target_dur_for_segment <? MIN_SEGMENT_DURATION)%float in
            let st := if late then count incr_late_starts st else st in
            let target_dur_for_segment :=
              if late then MIN_SEGMENT_DURATION else target_dur_for_segment in
            stretched_wav ←
              adjust_audio_length W fs raw_audio_path target_dur_for_segment
                SAMPLE_RATE max_speed;
            OK (append_chunk st stretched_wav (len stretched_wav))
        end
    end.

(** One iteration of the main loop. *)
Definition sync_step (W : world) (fs : files) (temp_dir : string)
    (generation_errors : option (gmap nat (option exception)))
    (max_speed : float) (st : sync_state) (i : nat) (sub : SubRipItem)
  : result sync_state :=
  start_sec ← time_str_to_seconds (sub_start sub);
  end_sec ← time_str_to_seconds (sub_end sub);
  let target_span_sec := (end_sec - start_sec)%float in
  let text := cue_text sub in
  st ← pre_gap st start_sec;
  cue_body W fs temp_dir generation_errors max_speed st i text end_sec
    target_span_sec.

(** [for i, sub in enumerate(subs)], from index [i] on. *)
Fixpoint sync_cues (W : world) (fs : files) (temp_dir : string)
    (generation_errors : option (gmap nat (option exception)))
    (max_speed : float) (i : nat) (subs : list SubRipItem) (st : sync_state)
  : result sync_state :=
  match subs with
  | [] => OK st
  | sub :: rest =>
      st' ← sync_step W fs temp_dir generation_errors max_speed st i sub;
      sync_cues W fs temp_dir generation_errors max_speed (S i) rest st'
  end.

(** The final padding against the target duration (lines 626-636). *)
Definition final_padding (final_target_sec : float) (st : sync_state)
  : result sync_state :=
  if (0 <? final_target_sec)%float then
    current_len_sec ← py_int_truediv (current_total_samples st) SAMPLE_RATE;
    let missing := (final_target_sec - current_len_sec)%float in
    if (FINAL_PADDING_THRESHOLD <? missing)%float then append_silence st missing
    else if (missing <? - EXCESS_AUDIO_WARNING_THRESHOLD)%float
    then OK st   (* a warning is logged; nothing is cut *)
    else OK st
  else OK st.

(* ================================================================== *)
(** * The whole run: [srt_to_audio_numpy] *)

(** Lines 459-555: first pass, batched generation, copies.  The result is
    the files, the statistics and [generation_errors]. *)
Definition prepare_clips (W : world) (fs : files) (temp_dir : string)
    (subs : list SubRipItem) (resume : bool) (batch_size retries : Z)
  : result (files * stats * option (gmap nat (option exception))) :=
  let p :=
    first_pass W temp_dir resume 0 subs
      (initial_prepare_state fs (length subs)) in
  '(fs, stats, generation_errors) ←
    match segments_to_generate p with
    | [] => OK (ps_files p, ps_stats p, None)
    | _ =>
        '(fs, errors) ←
          generate_audio_batch W (segments_to_generate p) batch_size retries
            (ps_files p);
        let '(fs, stats) :=
          fold_left (after_generation_step W temp_dir errors)
            (segments_to_generate p) (fs, ps_stats p) in
        OK (fs, stats, Some errors)
    end;
  OK (propagate W temp_dir 0 subs fs, stats, generation_errors).

(** The run up to the summary: what the buffer, the counter and the
    statistics are when the chunks are about to be concatenated.
    [final_target_sec] is the target duration the caller derived from
    [expected_duration] or [ref_video] (0 when there is none). *)
Definition srt_to_audio_numpy (W : world) (fs : files) (temp_dir : string)
    (subs : list SubRipItem) (resume : bool) (final_target_sec max_speed : float)
    (batch_size retries : Z) : result sync_state :=
  match subs with
  | [] =>
      (* "SRT file is empty or contains no valid subtitles": return *)
      OK {| audio_segments := []; current_total_samples := 0;
            sync_stats := new_stats 0 |}
  | _ =>
      '(fs, stats, generation_errors) ←
        prepare_clips W fs temp_dir subs resume batch_size retries;
      st ← sync_cues W fs temp_dir generation_errors max_speed 0 subs
             {| audio_segments := []; current_total_samples := 0;
                sync_stats := stats |};
      final_padding final_target_sec st
  end.

(* ================================================================== *)
(** * The rest of the program *)

(** ** More strings and paths *)

(** [sep in s] for a one-character [sep]. *)
Fixpoint str_contains_char (sep : ascii) (s : string) : bool :=
  match s with
  | EmptyString => false
  | String c rest => if Ascii.eqb c sep then true else str_contains_char sep rest
  end.

(** [s.split(sep)] for a one-character [sep]. *)
Fixpoint str_split (sep : ascii) (s : string) : list string :=
  match s with
  | EmptyString => [EmptyString]
  | String c rest =>
      if Ascii.eqb c sep then EmptyString :: str_split sep rest
      else
        match str_split sep rest with
        | [] => [String c EmptyString]
        | part :: parts => String c part :: parts
        end
  end.

(** [s.lstrip(c)] for a one-character [c]. *)
Fixpoint str_lstrip_char (c : ascii) (s : string) : string :=
  match s with
  | EmptyString => EmptyString
  | String c' rest => if Ascii.eqb c' c then str_lstrip_char c rest else s
  end.

(** [s[s.rfind(c):]], or [None] when [c] is not in [s]; with it, the index
    [s.rfind(c)]. *)
Fixpoint str_rfind_char (c : ascii) (s : string) : option (nat * string) :=
  match s with
  | EmptyString => None
  | String c' rest =>
      match str_rfind_char c rest with
      | Some (i, tail) => Some (S i, tail)
      | None => if Ascii.eqb c' c then Some (O, s) else None
      end
  end.

(** [PurePosixPath(p).name]: the last component that is neither empty nor
    a single dot. *)
Definition path_name (p : string) : string :=
  List.last
    (List.filter (fun x => negb (String.eqb x "") && negb (String.eqb x "."))
       (str_split "/" p))
    EmptyString.

(** [PurePosixPath(p).suffix], as CPython computes it up to version 3.13:
    [i = name.rfind('.')], and [name[i:]] when [0 < i < len(name) - 1]. *)
Definition path_suffix (p : string) : string :=
  let name := path_name p in
  match str_rfind_char "." name with
  | Some (i, tail) =>
      if ((0 <? i) && (i <? String.length name - 1))%nat then tail else EmptyString
  | None => EmptyString
  end.

(** [Path(p).suffix.lower().lstrip('.')] (lines 673 and 742). *)
Definition output_ext_of (p : string) : string :=
  str_lstrip_char "." (str_lower (path_suffix p)).

(** ** The host: parsers, subprocesses, the sound file library, the log *)

(** The parts of [srt_to_audio_numpy], by the records they log. *)
Inductive log_part :=
| LogHead             (* lines 375-442: the set-up and the target duration *)
| LogPreparation      (* lines 459-557: first pass, generation, copies *)
| LogCue (i : nat)    (* lines 559-623: iteration [i] of the main loop *)
| LogSummary          (* lines 625-664: the final padding and the summary *)
| LogExport           (* lines 666-696 *)
| LogCleanup.         (* lines 698-706 *)

(** The calls the front end and the export make outside the program.  As
    for [world], a call that raises is taken to leave the files as they
    were. *)
Record host := {
  (** [int(s)] on a string: [None] when it raises *)
  py_int_of_str : string -> option Z;
  (** [float(s)] on a string: [None] when it raises *)
  py_float_of_str : string -> option float;
  (** the standard output of [subprocess.run(cmd, ..., check=True)] for an
      [ffprobe] command: [None] when the call raises *)
  run_ffprobe : list string -> option string;
  (** what [ffmpeg] writes to its output for a command and the contents of
      its input: [None] when [subprocess.run] raises *)
  run_ffmpeg : list string -> bytes -> option bytes;
  (** the bytes [sf.write(path, data, samplerate)] writes, which depend on
      the extension of [path]: [None] when it raises *)
  sf_write : string -> waveform -> Z -> option bytes;
  (** whether [os.remove(path)] succeeds *)
  os_remove_ok : string -> bool;
  (** whether [shutil.rmtree(path)] succeeds *)
  rmtree_ok : string -> bool;
  (** what the file handler of [setup_logging] appends to the log file
      during a part of the run: the formatted records, which bear the time
      of day *)
  log_records : log_part -> bytes
}.

Definition of_option {A} (o : option A) : result A :=
  match o with
  | Some a => OK a
  | None => Raise ValueError
  end.

(** ** Target duration: [parse_duration_str], [get_media_duration] *)

(** Lines 137-143: the fields of a string with a colon. *)
Definition parse_duration_fields (H : host) (parts : list string) : result float :=
  match parts with
  | [h; m; s] =>
      h ← of_option (py_int_of_str H h);
      m ← of_option (py_int_of_str H m);
      s ← of_option (py_float_of_str H s);
      whole ← float_of_int (h * 3600 + m * 60);
      OK (whole + s)%float
  | [m; s] =>
      m ← of_option (py_int_of_str H m);
      s ← of_option (py_float_of_str H s);
      whole ← float_of_int (m * 60);
      OK (whole + s)%float
  | _ => OK 0%float
  end.

Definition parse_duration_str (H : host) (duration_str : option string) : float :=
  match duration_str with
  | None | Some EmptyString => 0
  | Some s =>
      let parsed :=
        if str_contains_char ":" s
        then parse_duration_fields H (str_split ":" s)
        else of_option (py_float_of_str H s) in
      match parsed with
      | OK duration => duration
      | Raise _ => 0
      end
  end.

Definition ffprobe_cmd (file_path : string) : list string :=
  ["ffprobe"; "-v"; "error"; "-show_entries"; "format=duration";
   "-of"; "default=noprint_wrappers=1:nokey=1"; file_path].

Definition get_media_duration (H : host) (fs : files) (file_path : option string)
  : float :=
  match file_path with
  | None | Some EmptyString => 0
  | Some p =>
      if negb (path_exists fs p) then 0
      else
        match run_ffprobe H (ffprobe_cmd p) with
        | None => 0
        | Some stdout =>
            match py_float_of_str H (str_strip stdout) with
            | Some duration => duration
            | None => 0
            end
        end
  end.

(** Lines 431-436 of [srt_to_audio_numpy]. *)
Definition final_target_duration (H : host) (fs : files)
    (expected_duration ref_video : option string) : float :=
  match expected_duration with
  | Some (String _ _) => parse_duration_str H expected_duration
  | _ =>
      match ref_video with
      | Some (String _ _) => get_media_duration H fs ref_video
      | _ => 0
      end
  end.

(** ** Conversion: [convert_audio_format] *)

Definition ffmpeg_cmd (input_path output_path format : string) : list string :=
  if String.eqb format "m4a" then
    ["ffmpeg"; "-i"; input_path; "-c:a"; "aac"; "-b:a"; "192k"; "-y"; output_path]
  else if String.eqb format "opus" then
    ["ffmpeg"; "-i"; input_path; "-c:a"; "libopus"; "-b:a"; "128k"; "-y"; output_path]
  else ["ffmpeg"; "-i"; input_path; "-y"; output_path].

(** The files afterwards and the boolean returned; [ffmpeg] fails on an
    input that is not there. *)
Definition convert_audio_format (H : host) (input_path output_path format : string)
    (fs : files) : files * bool :=
  match fs !! input_path with
  | None => (fs, false)
  | Some b =>
      match run_ffmpeg H (ffmpeg_cmd input_path output_path format) b with
      | Some encoded => (<[output_path := encoded]> fs, true)
      | None => (fs, false)
      end
  end.

(** ** The log file *)

(** [setup_logging] (lines 47-78), which [srt_to_audio_numpy] calls first
    (line 375), gives the logger a [FileHandler] in append mode when
    [log_file] is given and not empty; from then on every record that
    passes the level is appended to that file.  The records of one part of
    the run are appended together, when the part is over: this leaves the
    same files as long as the log file is none of the files the run itself
    writes or removes, which the statements that depend on it assume.
    Opening the log file is taken to succeed. *)
Definition log_write (H : host) (log_file : option string) (part : log_part)
    (fs : files) : files :=
  match log_file with
  | Some (String _ _ as p) =>
      <[p := default [] (fs !! p) ++ log_records H part]> fs
  | _ => fs
  end.

(** ** The local name [shutil] *)

(** [srt_to_audio_numpy] has [import shutil] in three of its branches
    (lines 483, 519 and 552).  That makes [shutil] a local name of the
    function: the import of line 16 is not seen inside, and the name is
    bound from the first of the three statements that runs.  The functions
    below follow the three loops and tell whether one of them ran. *)

(** Line 483 runs in an iteration of the first pass that finds a cached
    clip, whether the copy succeeds or not. *)
Definition first_pass_step_imports (W : world) (temp_dir : string) (resume : bool)
    (p : prepare_state) (i : nat) (sub : SubRipItem) : bool :=
  let text := cue_text sub in
  if bool_decide (text = EmptyString) then false
  else
    let raw_audio_path := raw_audio_path temp_dir i in
    let exists_ := exists_nonempty (ps_files p) raw_audio_path in
    if resume && exists_ then false
    else exists_nonempty (ps_files p) (cache_path_of W temp_dir text).

Fixpoint first_pass_imports (W : world) (temp_dir : string) (resume : bool)
    (i : nat) (subs : list SubRipItem) (p : prepare_state) : bool :=
  match subs with
  | [] => false
  | sub :: rest =>
      first_pass_step_imports W temp_dir resume p i sub
      || first_pass_imports W temp_dir resume (S i) rest
           (first_pass_step W temp_dir resume p i sub)
  end.

(** Line 519 runs for a segment whose generation succeeded. *)
Definition after_generation_imports
    (generation_errors : gmap nat (option exception))
    (segments : list (string * string * nat)) : bool :=
  existsb
    (fun item =>
       let '(text, cache_path, idx) := item in
       match generation_errors !! idx with
       | Some None => true
       | _ => false
       end)
    segments.

(** Line 552 runs in an iteration of the propagation that finds the cache
    file of a cue without a clip. *)
Definition propagate_step_imports (W : world) (temp_dir : string) (fs : files)
    (i : nat) (sub : SubRipItem) : bool :=
  let text := cue_text sub in
  if bool_decide (text = EmptyString) then false
  else if exists_nonempty fs (raw_audio_path temp_dir i) then false
  else path_exists fs (cache_path_of W temp_dir text).

Fixpoint propagate_imports (W : world) (temp_dir : string) (i : nat)
    (subs : list SubRipItem) (fs : files) : bool :=
  match subs with
  | [] => false
  | sub :: rest =>
      propagate_step_imports W temp_dir fs i sub
      || propagate_imports W temp_dir (S i) rest
           (propagate_step W temp_dir fs i sub)
  end.

(** Whether [shutil] is bound when the preparation (lines 459-555) is
    over; the three loops are those of [prepare_clips]. *)
Definition shutil_bound (W : world) (fs : files) (temp_dir : string)
    (subs : list SubRipItem) (resume : bool) (batch_size retries : Z) : bool :=
  let p0 := initial_prepare_state fs (length subs) in
  let p := first_pass W temp_dir resume 0 subs p0 in
  first_pass_imports W temp_dir resume 0 subs p0
  || match segments_to_generate p with
     | [] => propagate_imports W temp_dir 0 subs (ps_files p)
     | _ =>
         match
           generate_audio_batch W (segments_to_generate p) batch_size retries
             (ps_files p)
         with
         | OK (fs, errors) =>
             after_generation_imports errors (segments_to_generate p)
             || propagate_imports W temp_dir 0 subs
                  (fold_left (after_generation_step W temp_dir errors)
                     (segments_to_generate p) (fs, ps_stats p)).1
         | Raise _ => false
         end
     end.

(** The preparation as a part of the run: the files it leaves, with its
    records logged, those of the generation among them, and the local names
    it leaves, of which [generation_errors] and [shutil] may be unbound.
    When the generation raises, the files are those of the first pass. *)
Definition prepare_clips_fs (H : host) (W : world) (log_file : option string)
    (fs : files) (temp_dir : string) (subs : list SubRipItem) (resume : bool)
    (batch_size retries : Z)
  : files * result (stats * option (gmap nat (option exception)) * bool) :=
  match prepare_clips W fs temp_dir subs resume batch_size retries with
  | OK (fs', stats, generation_errors) =>
      (log_write H log_file LogPreparation fs',
       OK (stats, generation_errors,
           shutil_bound W fs temp_dir subs resume batch_size retries))
  | Raise e =>
      (log_write H log_file LogPreparation
         (ps_files (first_pass W temp_dir resume 0 subs
                      (initial_prepare_state fs (length subs)))),
       Raise e)
  end.

(** ** The fitter and the main loop, with the files they leave *)

(** [if os.path.exists(p): try: os.remove(p) except: ...] *)
Definition remove_if_exists (H : host) (p : string) (fs : files) : files :=
  if path_exists fs p then
    if os_remove_ok H p then delete p fs else fs
  else fs.

(** [adjust_audio_length] with the files it leaves: the stretch primitive
    writes [output_tmp], the [finally] block removes it. *)
Definition adjust_audio_length_fs (H : host) (W : world) (wav_path : string)
    (desired_length : float) (sample_rate : Z) (max_speed_factor : float)
    (fs : files) : files * result waveform :=
  match librosa_load W fs wav_path sample_rate with
  | None => (fs, OK [])
  | Some y =>
      match py_int_truediv (len y) sample_rate with
      | Raise e => (fs, Raise e)
      | OK current_length =>
          if (desired_length <=? 0)%float then (fs, OK y)
          else
            match stretch_ratio desired_length current_length max_speed_factor with
            | Raise e => (fs, Raise e)
            | OK ratio =>
                let input_tmp := wav_path in
                let output_tmp := output_tmp_path wav_path in
                let fs_try :=
                  match stretch_audio W fs input_tmp output_tmp ratio sample_rate with
                  | Some fs' => fs'
                  | None => fs
                  end in
                let returned :=
                  match stretch_and_fit W fs input_tmp output_tmp ratio
                          desired_length sample_rate with
                  | OK y_stretched => y_stretched
                  | Raise _ => y
                  end in
                (remove_if_exists H output_tmp fs_try, OK returned)
            end
      end
  end.

(** [cue_body] with the files. *)
Definition cue_body_fs (H : host) (W : world) (temp_dir : string)
    (generation_errors : option (gmap nat (option exception)))
    (max_speed : float) (st : sync_state) (i : nat) (text : string)
    (end_sec target_span_sec : float) (fs : files) : files * result sync_state :=
  if bool_decide (text = EmptyString) then
    (fs,
     let st := count incr_empty st in
     current_head_sec ← py_int_truediv (current_total_samples st) SAMPLE_RATE;
     let needed_sec := (end_sec - current_head_sec)%float in
     if (0 <? needed_sec)%float then append_silence st needed_sec
     else OK st)
  else
    let raw_audio_path := raw_audio_path temp_dir i in
    match generation_errors with
    | None => (fs, Raise UnboundLocalError)
    | Some errors =>
        match errors !! i with
        | Some (Some _) => (fs, append_silence st target_span_sec)
        | _ =>
            match py_int_truediv (current_total_samples st) SAMPLE_RATE with
            | Raise e => (fs, Raise e)
            | OK current_head_sec =>
                let target_dur_for_segment := (end_sec - current_head_sec)%float in
                let late := (target_dur_for_segment <? MIN_SEGMENT_DURATION)%float in
                let st := if late then count incr_late_starts st else st in
                let target_dur_for_segment :=
                  if late then MIN_SEGMENT_DURATION else target_dur_for_segment in
                let '(fs, fitted) :=
                  adjust_audio_length_fs H W raw_audio_path target_dur_for_segment
                    SAMPLE_RATE max_speed fs in
                (fs,
                 stretched_wav ← fitted;
                 OK (append_chunk st stretched_wav (len stretched_wav)))
            end
        end
    end.

(** [sync_step] with the files: the stretched file of the fitter comes and
    goes, and the records of the iteration, those of the fitter among them,
    go to the log file. *)
Definition sync_step_fs (H : host) (W : world) (log_file : option string)
    (temp_dir : string)
    (generation_errors : option (gmap nat (option exception)))
    (max_speed : float) (st : sync_state) (i : nat) (sub : SubRipItem)
    (fs : files) : files * result sync_state :=
  let before :=
    start_sec ← time_str_to_seconds (sub_start sub);
    end_sec ← time_str_to_seconds (sub_end sub);
    st ← pre_gap st start_sec;
    OK (start_sec, end_sec, st) in
  let '(fs, after) :=
    match before with
    | Raise e => (fs, Raise e)
    | OK (start_sec, end_sec, st) =>
        cue_body_fs H W temp_dir generation_errors max_speed st i (cue_text sub)
          end_sec (end_sec - start_sec)%float fs
    end in
  (log_write H log_file (LogCue i) fs, after).

(** [sync_cues] with the files. *)
Fixpoint sync_cues_fs (H : host) (W : world) (log_file : option string)
    (temp_dir : string)
    (generation_errors : option (gmap nat (option exception)))
    (max_speed : float) (i : nat) (subs : list SubRipItem) (st : sync_state)
    (fs : files) : files * result sync_state :=
  match subs with
  | [] => (fs, OK st)
  | sub :: rest =>
      match
        sync_step_fs H W log_file temp_dir generation_errors max_speed st i sub fs
      with
      | (fs, OK st') =>
          sync_cues_fs H W log_file temp_dir generation_errors max_speed (S i)
            rest st' fs
      | (fs, Raise e) => (fs, Raise e)
      end
  end.

(** ** Export and cleanup (lines 652-706) *)

(** How a run ends when it does not complete. *)
Inductive failure :=
| Raised (e : exception)   (* an exception of the program's own code *)
| WriteFailed              (* [sf.write] raised *)
| CleanupFailed.           (* [shutil.rmtree] raised *)

(** Whether [path] is inside the directory [dir], by its name. *)
Definition under (dir path : string) : bool := String.prefix (dir_prefix dir) path.

(** [shutil.rmtree(dir)] when it succeeds. *)
Definition rmtree (dir : string) (fs : files) : files :=
  filter (fun entry => under dir entry.1 = false) fs.

(** Lines 666-696. *)
Definition export_audio (H : host) (log_file : option string)
    (temp_dir output_path : string) (st : sync_state) (fs : files)
  : files * option failure :=
  let full_wav := concat (audio_segments st) in
  let output_ext := output_ext_of output_path in
  let '(fs, outcome) :=
    if String.eqb output_ext "m4a" || String.eqb output_ext "opus" then
      let temp_output_wav := os_path_join temp_dir "final_output_temp.wav" in
      match sf_write H temp_output_wav full_wav SAMPLE_RATE with
      | None => (fs, Some WriteFailed)
      | Some b =>
          let fs := <[temp_output_wav := b]> fs in
          let '(fs, _) :=
            convert_audio_format H temp_output_wav output_path output_ext fs in
          (remove_if_exists H temp_output_wav fs, None)
      end
    else
      match sf_write H output_path full_wav SAMPLE_RATE with
      | None => (fs, Some WriteFailed)
      | Some b => (<[output_path := b]> fs, None)
      end in
  (log_write H log_file LogExport fs, outcome).

(** Lines 698-706; the directory exists, line 401 made it.  Line 700 reads
    the local name [shutil], and raises when it is unbound. *)
Definition cleanup (H : host) (log_file : option string) (temp_dir : string)
    (keep_temp shutil_is_bound : bool) (fs : files) : files * option failure :=
  if negb keep_temp then
    if shutil_is_bound then
      if rmtree_ok H temp_dir
      then (log_write H log_file LogCleanup (rmtree temp_dir fs), None)
      else (fs, Some CleanupFailed)
    else (fs, Some (Raised UnboundLocalError))
  else (log_write H log_file LogCleanup fs, None).

(** [srt_to_audio_numpy] for the subtitles [pysrt] parsed, with the files
    it leaves.  Line 652 divides the counter once more, for the summary. *)
Definition srt_to_audio_numpy_fs (H : host) (W : world)
    (log_file : option string) (temp_dir output_path : string)
    (subs : list SubRipItem) (keep_temp resume : bool)
    (ref_video expected_duration : option string) (max_speed : float)
    (no_concat : bool) (batch_size retries : Z) (fs : files)
  : files * option failure :=
  let fs := log_write H log_file LogHead fs in
  match subs with
  | [] => (fs, None)
  | _ =>
      let final_target_sec :=
        final_target_duration H fs expected_duration ref_video in
      match
        prepare_clips_fs H W log_file fs temp_dir subs resume batch_size retries
      with
      | (fs, Raise e) => (fs, Some (Raised e))
      | (fs, OK (stats, generation_errors, shutil_is_bound)) =>
          match
            sync_cues_fs H W log_file temp_dir generation_errors max_speed 0 subs
              {| audio_segments := []; current_total_samples := 0;
                 sync_stats := stats |} fs
          with
          | (fs, Raise e) => (fs, Some (Raised e))
          | (fs, OK st) =>
              let summary :=
                st ← final_padding final_target_sec st;
                final_audio_duration ←
                  py_int_truediv (current_total_samples st) SAMPLE_RATE;
                OK st in
              let fs := log_write H log_file LogSummary fs in
              match summary with
              | Raise e => (fs, Some (Raised e))
              | OK st =>
                  if no_concat then (fs, None)
                  else
                    match export_audio H log_file temp_dir output_path st fs with
                    | (fs, Some f) => (fs, Some f)
                    | (fs, None) =>
                        cleanup H log_file temp_dir keep_temp shutil_is_bound fs
                    end
              end
          end
      end
  end.

(** ** The command line: the format override (lines 738-744) *)

Definition final_output_name (output_file : string) (format : option string)
  : string :=
  match format with
  | Some (String _ _ as fmt) =>
      if String.eqb (output_ext_of output_file) fmt then output_file
      else output_file +:+ "." +:+ fmt
  | _ => output_file
  end.

(* ================================================================== *)
(** * Vocabulary of the statements *)

(** The samples held by the accumulation buffer. *)
Definition buffer_samples (segs : list waveform) : Z :=
  foldr (fun chunk n => len chunk + n) 0 segs.

(** The counter equals what has been appended. *)
Definition clock_inv (st : sync_state) : Prop :=
  current_total_samples st = buffer_samples (audio_segments st).

(** [st'] is reached from [st] by appending only: the counter did not go
    back, it still equals what the buffer holds, and what the buffer held
    is still there. *)
Definition advances (st st' : sync_state) : Prop :=
  clock_inv st' /\
  current_total_samples st <= current_total_samples st' /\
  audio_segments st `prefix_of` audio_segments st'.

(** The clock in seconds, as an exact rational: [total_samples / SAMPLE_RATE]. *)
Definition output_clock (st : sync_state) : Q :=
  inject_Z (current_total_samples st) / inject_Z SAMPLE_RATE.

(** The durations of the chunks of the buffer, summed. *)
Definition buffer_duration (segs : list waveform) : Q :=
  foldr (fun chunk d => inject_Z (len chunk) / inject_Z SAMPLE_RATE + d)%Q 0%Q segs.

(** [advances], with the clock read in seconds. *)
Definition clock_steps_forward (st st' : sync_state) : Prop :=
  advances st st' /\
  (output_clock st <= output_clock st')%Q /\
  (output_clock st' == buffer_duration (audio_segments st'))%Q.

(** The clock at [n] samples is before [t], as lines 566-569 and 584-586
    decide it: [t - n / SAMPLE_RATE > 0]. *)
Definition clock_before (n : Z) (t : float) : bool :=
  match py_int_truediv n SAMPLE_RATE with
  | OK head => (0 <? t - head)%float
  | Raise _ => false
  end.

(** The chunks one cue adds when the counter stands at [n] before it, in
    order: one pre-gap silence chunk when the cue starts after the clock,
    and none otherwise; then one chunk of its own when its text is not
    empty or its end is after the clock, and none otherwise. *)
Definition cue_chunks (n : Z) (sub : SubRipItem) (chunks : list waveform) : Prop :=
  exists start_sec end_sec gap body,
    time_str_to_seconds (sub_start sub) = OK start_sec /\
    time_str_to_seconds (sub_end sub) = OK end_sec /\
    chunks = gap ++ body /\
    length gap = (if clock_before n start_sec then 1 else 0)%nat /\
    length body
    = (if bool_decide (cue_text sub = EmptyString)
       then if clock_before (n + buffer_samples gap) end_sec then 1 else 0
       else 1)%nat.

(** The chunks of the cues, cue by cue, from a counter that stands at [n]. *)
Fixpoint chunks_in_order (n : Z) (subs : list SubRipItem)
    (per_cue : list (list waveform)) : Prop :=
  match subs, per_cue with
  | [], [] => True
  | sub :: subs, chunks :: per_cue =>
      cue_chunks n sub chunks /\
      chunks_in_order (n + buffer_samples chunks) subs per_cue
  | _, _ => False
  end.

(** The cues whose text is not empty. *)
Definition spoken_cues (subs : list SubRipItem) : nat :=
  length (filter (fun sub => cue_text sub <> EmptyString) subs).

(** A spec float that is not negative (a NaN counts). *)
Definition SF_nonneg (x : spec_float) : Prop :=
  match x with
  | S754_finite s _ _ => s = false
  | S754_infinity s => s = false
  | S754_zero _ => True
  | S754_nan => True
  end.

Definition SF_number (x : spec_float) : Prop :=
  match x with S754_nan => False | _ => True end.

Definition seg_text (item : string * string * nat) : string := item.1.1.
Definition seg_index (item : string * string * nat) : nat := item.2.

(** Cue [i] needs a generated clip: it has text, it is not resumed, and no
    cached clip was copied for it (there is none, or the copy failed). *)
Definition needs_generation (W : world) (fs : files) (temp_dir : string)
    (resume : bool) (i : nat) (sub : SubRipItem) : bool :=
  negb (bool_decide (cue_text sub = EmptyString))
  && negb (resume && exists_nonempty fs (raw_audio_path temp_dir i))
  && negb (exists_nonempty fs (cache_path_of W temp_dir (cue_text sub))
           && copy2_ok W FirstPass i).

(** [(text, path, i)] is the first cue with that text among the cues of
    [subs] that need a generated clip. *)
Definition first_needing (W : world) (fs : files) (temp_dir : string)
    (resume : bool) (subs : list SubRipItem) (text path : string) (i : nat)
  : Prop :=
  exists sub,
    subs !! i = Some sub /\ cue_text sub = text /\
    path = cache_path_of W temp_dir text /\
    needs_generation W fs temp_dir resume i sub = true /\
    forall j sub', (j < i)%nat -> subs !! j = Some sub' ->
      needs_generation W fs temp_dir resume j sub' = true ->
      cue_text sub' <> text.

(** The texts of the cues that need a generated clip, from index [i] on. *)
Fixpoint texts_to_generate (W : world) (fs : files) (temp_dir : string)
    (resume : bool) (i : nat) (subs : list SubRipItem) : list string :=
  match subs with
  | [] => []
  | sub :: rest =>
      (if needs_generation W fs temp_dir resume i sub then [cue_text sub] else [])
      ++ texts_to_generate W fs temp_dir resume (S i) rest
  end.

(** What holds after the first pass went over [done], from the files [fs0]. *)
Record first_pass_inv (W : world) (fs0 : files) (temp_dir : string)
    (resume : bool) (done : list SubRipItem) (p : prepare_state) : Prop := {
  fpi_files : forall path,
    (forall j, (j < length done)%nat -> path <> raw_audio_path temp_dir j) ->
    ps_files p !! path = fs0 !! path;
  fpi_seen : forall text,
    is_Some (text_to_cache p !! text)
    <-> text ∈ map seg_text (segments_to_generate p);
  fpi_nodup : NoDup (map seg_text (segments_to_generate p));
  fpi_sched : forall text path i,
    (text, path, i) ∈ segments_to_generate p
    <-> first_needing W fs0 temp_dir resume done text path i;
  fpi_cover : forall j sub,
    done !! j = Some sub ->
    needs_generation W fs0 temp_dir resume j sub = true ->
    cue_text sub ∈ map seg_text (segments_to_generate p)
}.

(** The outcome of [generate_audio_segment]: the exception it leaves
    with, if any.  It does not depend on the files. *)
Definition generation_outcome (W : world) (text output_file : string)
    (retries : Z) : option exception :=
  (generate_audio_segment W text output_file retries ∅).2.

(** The schedule the first pass leaves. *)
Definition scheduled_segments (W : world) (fs : files) (temp_dir : string)
    (resume : bool) (subs : list SubRipItem) : list (string * string * nat) :=
  segments_to_generate
    (first_pass W temp_dir resume 0 subs (initial_prepare_state fs (length subs))).

(** The world in which the stretch primitive refuses, by raising, every
    ratio below [bound]. *)
Definition refuse_below (bound : float) (W : world) : world :=
  {| md5_hexdigest := md5_hexdigest W;
     tts_save := tts_save W;
     copy2_ok := copy2_ok W;
     decode_audio := decode_audio W;
     stretch := fun b ratio sr =>
       if (ratio <? bound)%float then None else stretch W b ratio sr |}.

(** The cues whose text is empty. *)
Definition silent_cues (subs : list SubRipItem) : nat :=
  length (filter (fun sub => cue_text sub = EmptyString) subs).

(** The path a scheduled segment is generated at. *)
Definition seg_path (item : string * string * nat) : string := item.1.2.

(** The counters the main loop leaves alone. *)
Definition prepared_counts (s : stats) : nat * nat * nat * nat * nat :=
  (stats_total s, stats_generated s, stats_resumed s, stats_cached s, stats_failed s).

(** The first character of [old] does not come back in it. *)
Definition border_free (old : string) : Prop :=
  match old with
  | EmptyString => False
  | String c r => forall n, String.get n r <> Some c
  end.

(** The stretched file of cue [j]. *)
Definition stretched_path (temp_dir : string) (j : nat) : string :=
  output_tmp_path (raw_audio_path temp_dir j).

(** A path the run keeps temporary files at: a path inside the temporary
    directory, or the stretched file of a cue. *)
Definition temporary_path (temp_dir path : string) : Prop :=
  under temp_dir path = true \/ exists j, path = stretched_path temp_dir j.


(** The log file, if there is one, is no temporary file. *)
Definition log_apart (log_file : option string) (temp_dir : string) : Prop :=
  forall q, log_file = Some q -> ~ temporary_path temp_dir q.

(** [H] with another [ffmpeg]. *)
Definition with_ffmpeg (ffmpeg : list string -> bytes -> option bytes) (H : host)
  : host :=
  {| py_int_of_str := py_int_of_str H;
     py_float_of_str := py_float_of_str H;
     run_ffprobe := run_ffprobe H;
     run_ffmpeg := ffmpeg;
     sf_write := sf_write H;
     os_remove_ok := os_remove_ok H;
     rmtree_ok := rmtree_ok H;
     log_records := log_records H |}.

(** How often a character occurs in a string. *)
Fixpoint count_char (c : ascii) (s : string) : nat :=
  match s with
  | EmptyString => O
  | String c' rest => ((if Ascii.eqb c' c then 1 else 0) + count_char c rest)%nat
  end.

(** What follows the last slash of a path. *)
Definition last_component (p : string) : string :=
  List.last (str_split "/" p) EmptyString.

(** The formats the command line accepts for [--format] (line 727). *)
Definition format_choices : list string := ["wav"; "m4a"; "opus"].

(* ================================================================== *)
(** * Example worlds and runs *)

(** A world in which every call succeeds: the backend writes three bytes,
    a file decodes to one sample per byte, stretching leaves the file as
    it is. *)
Definition demo_world : world :=
  {| md5_hexdigest := fun s => s;
     tts_save := fun _ _ _ => Some [Byte.x01; Byte.x02; Byte.x03];
     copy2_ok := fun _ _ => true;
     decode_audio := fun b _ => Some (map (fun _ => 1%float) b);
     stretch := fun b _ _ => Some b |}.

(** The same world with a backend that always fails. *)
Definition offline_world : world :=
  {| md5_hexdigest := md5_hexdigest demo_world;
     tts_save := fun _ _ _ => None;
     copy2_ok := copy2_ok demo_world;
     decode_audio := decode_audio demo_world;
     stretch := stretch demo_world |}.

(** [demo_world] with every copy failing. *)
Definition no_copy_world : world :=
  {| md5_hexdigest := md5_hexdigest demo_world;
     tts_save := tts_save demo_world;
     copy2_ok := fun _ _ => false;
     decode_audio := decode_audio demo_world;
     stretch := stretch demo_world |}.

(** The stamp [00:00:s,ms] and a cue between two such stamps. *)
Definition stamp (s ms : Z) : SubRipTime :=
  {| hours := 0; minutes := 0; seconds := s; milliseconds := ms |}.

Definition cue (s1 ms1 s2 ms2 : Z) (text : string) : SubRipItem :=
  {| sub_start := stamp s1 ms1; sub_end := stamp s2 ms2; sub_text := text |}.

Definition initial_state (s : stats) : sync_state :=
  {| audio_segments := []; current_total_samples := 0; sync_stats := s |}.

(** What a run leaves: the chunk lengths, the counter and the statistics. *)
Definition summary (r : result sync_state) : option (list Z * Z * stats) :=
  match r with
  | OK st => Some (map len (audio_segments st), current_total_samples st, sync_stats st)
  | Raise _ => None
  end.

(** The end-to-end scenario of the specification. *)
Definition scenario_cues : list SubRipItem :=
  [cue 0 0 2 0 "Hello"; cue 2 0 4 0 ""; cue 4 0 4 50 "Hi"].

(** Two silent cues, the second inside the first. *)
Definition nested_silent_cues : list SubRipItem :=
  [cue 0 0 2 0 ""; cue 1 0 2 0 ""].

(** Two spoken cues that overlap, with their clips on disk. *)
Definition overlapping_cues : list SubRipItem :=
  [cue 0 0 0 100 "Hello"; cue 0 50 0 200 "Hi"].

Definition two_clips : files :=
  <[raw_audio_path "tmp" 0 := [Byte.x01; Byte.x02]]>
    (<[raw_audio_path "tmp" 1 := [Byte.x03]]> ∅).

(** One clip of [n] bytes, at the path ["clip.mp3"]. *)
Definition one_clip (n : nat) : files :=
  {[ "clip.mp3" := replicate n Byte.x01 ]}.

(** Four cues: a text twice, another text, and a silent cue. *)
Definition repeated_cues : list SubRipItem :=
  [cue 0 0 1 0 "Hello"; cue 1 0 2 0 "Hello"; cue 2 0 3 0 "Hi"; cue 3 0 4 0 ""].

(** A cache that already holds the clip of ["hello"]. *)
Definition warm_cache : files :=
  {[ cache_path_of demo_world "tmp" "Hello" := [Byte.x07] ]}.

(** Ten seconds of target with nine seconds in the buffer. *)
Definition nine_seconds : sync_state :=
  {| audio_segments := [replicate (Z.to_nat 216000) 0%float];
     current_total_samples := 216000;
     sync_stats := new_stats 1 |}.

(** A backend that fails twice and then writes one byte. *)
Definition flaky_world : world :=
  {| md5_hexdigest := md5_hexdigest demo_world;
     tts_save := fun _ _ i => if (i <? 2)%nat then None else Some [Byte.x2a];
     copy2_ok := copy2_ok demo_world;
     decode_audio := decode_audio demo_world;
     stretch := stretch demo_world |}.

(** The value of a string of decimal digits. *)
Fixpoint digits_value (acc : Z) (s : string) : option Z :=
  match s with
  | EmptyString => Some acc
  | String c rest =>
      let n := nat_of_ascii c in
      if ((48 <=? n) && (n <=? 57))%nat
      then digits_value (acc * 10 + (Z.of_nat n - 48)) rest
      else None
  end.

(** A host that reads numbers written with decimal digits only, has no
    [ffprobe], and whose other calls succeed: [ffmpeg] copies its input,
    [sf.write] writes one byte per sample, and each part of the run logs
    one byte. *)
Definition demo_host : host :=
  {| py_int_of_str := fun s =>
       match s with EmptyString => None | _ => digits_value 0 s end;
     py_float_of_str := fun s =>
       match s with
       | EmptyString => None
       | _ => n ← digits_value 0 s;
              Some (SF2Prim (binary_normalize prec emax n 0 false))
       end;
     run_ffprobe := fun _ => None;
     run_ffmpeg := fun _ b => Some b;
     sf_write := fun _ data _ => Some (map (fun _ => Byte.x00) data);
     os_remove_ok := fun _ => true;
     rmtree_ok := fun _ => true;
     log_records := fun _ => [Byte.x0a] |}.

(** [demo_host] with an [ffmpeg] that fails. *)
Definition no_ffmpeg_host : host :=
  {| py_int_of_str := py_int_of_str demo_host;
     py_float_of_str := py_float_of_str demo_host;
     run_ffprobe := run_ffprobe demo_host;
     run_ffmpeg := fun _ _ => None;
     sf_write := sf_write demo_host;
     os_remove_ok := os_remove_ok demo_host;
     rmtree_ok := rmtree_ok demo_host;
     log_records := log_records demo_host |}.

(** One clip at a path that holds neither [.mp3] nor [.wav]. *)
Definition flac_clip : files := {[ "clip.flac" := [Byte.x01; Byte.x02; Byte.x03] ]}.

(* ================================================================== *)
(** * Supporting lemmas *)

(** ** Results, lengths and silence *)

Lemma bind_OK {A B} (r : result A) (f : A -> result B) (b : B) :
  r ≫= f = OK b -> exists a, r = OK a /\ f a = OK b.
Proof. destruct r as [a|e]; simpl; [eauto | discriminate]. Qed.

(** Splits the hypotheses that say a sequence of calls returned. *)
Ltac inv_bind :=
  repeat match goal with
    | H : _ ≫= _ = OK _ |- _ =>
        let a := fresh "v" in
        let Ha := fresh "Hv" in
        apply bind_OK in H; destruct H as (a & Ha & H)
    | H : OK _ = OK _ |- _ => injection H as H
    | H : Raise _ = OK _ |- _ => discriminate H
    end.

Lemma len_nonneg {A} (y : list A) : 0 <= len y.
Proof. unfold len. lia. Qed.

Lemma len_app {A} (y z : list A) : len (y ++ z) = len y + len z.
Proof. unfold len. rewrite length_app. lia. Qed.

Lemma len_replicate {A} (n : Z) (x : A) :
  0 <= n -> len (replicate (Z.to_nat n) x) = n.
Proof. intros Hn. unfold len. rewrite length_replicate. lia. Qed.

Lemma np_zeros_OK (n : Z) (w : waveform) :
  np_zeros n = OK w -> 0 <= n /\ w = replicate (Z.to_nat n) 0%float /\ len w = n.
Proof.
  unfold np_zeros. destruct (Z.ltb_spec n 0); [discriminate|].
  intros [= <-]. repeat split; [assumption|]. now apply len_replicate.
Qed.

Lemma np_zeros_nonneg (n : Z) :
  0 <= n -> np_zeros n = OK (replicate (Z.to_nat n) 0%float).
Proof. intros Hn. unfold np_zeros. destruct (Z.ltb_spec n 0); [lia | reflexivity]. Qed.

(** What a successful [append_silence] did. *)
Lemma append_silence_OK (st st' : sync_state) (sec : float) :
  append_silence st sec = OK st' ->
  exists scaled n,
    py_float_mul_int sec SAMPLE_RATE = OK scaled /\ py_int scaled = OK n /\
    0 <= n /\
    st' = append_chunk st (replicate (Z.to_nat n) 0%float) n.
Proof.
  unfold append_silence. intros H. inv_bind.
  apply np_zeros_OK in Hv1 as (Hn & -> & _).
  exists v, v0. subst st'. auto.
Qed.

(** ** The output clock *)

Lemma buffer_samples_app (l1 l2 : list waveform) :
  buffer_samples (l1 ++ l2) = buffer_samples l1 + buffer_samples l2.
Proof.
  induction l1 as [|c l1 IH]; simpl; [reflexivity|].
  unfold buffer_samples in *. simpl. rewrite IH. lia.
Qed.

Lemma advances_refl (st : sync_state) : clock_inv st -> advances st st.
Proof. intros H. repeat split; [assumption | lia | reflexivity]. Qed.

Lemma advances_trans (st1 st2 st3 : sync_state) :
  advances st1 st2 -> advances st2 st3 -> advances st1 st3.
Proof.
  intros (_ & Hle1 & Hp1) (Hi & Hle2 & Hp2).
  repeat split; [assumption | lia | by etrans].
Qed.

Lemma advances_count (f : stats -> stats) (st : sync_state) :
  clock_inv st -> advances st (count f st).
Proof. intros H. repeat split; simpl; [exact H | lia | reflexivity]. Qed.

Lemma advances_append (st : sync_state) (chunk : waveform) :
  clock_inv st -> advances st (append_chunk st chunk (len chunk)).
Proof.
  intros H. repeat split; simpl.
  - unfold clock_inv. simpl. rewrite buffer_samples_app, H.
    unfold buffer_samples at 3. simpl. lia.
  - pose proof (len_nonneg chunk). lia.
  - by apply prefix_app_r.
Qed.

Lemma advances_append_silence (st st' : sync_state) (sec : float) :
  clock_inv st -> append_silence st sec = OK st' -> advances st st'.
Proof.
  intros Hinv H. apply append_silence_OK in H as (scaled & n & _ & _ & Hn & ->).
  rewrite <- (len_replicate n 0%float Hn) at 2. by apply advances_append.
Qed.

Lemma pre_gap_advances (st st' : sync_state) (start_sec : float) :
  clock_inv st -> pre_gap st start_sec = OK st' -> advances st st'.
Proof.
  intros Hinv H. unfold pre_gap in H. inv_bind.
  destruct (0 <? _)%float.
  - by eapply advances_append_silence.
  - destruct (_ <? _)%float; inv_bind; subst;
      [by apply advances_count | by apply advances_refl].
Qed.

Lemma cue_body_advances W fs temp_dir errs max_speed st i text end_sec span st' :
  clock_inv st ->
  cue_body W fs temp_dir errs max_speed st i text end_sec span = OK st' ->
  advances st st'.
Proof.
  intros Hinv H. unfold cue_body in H.
  destruct (bool_decide _).
  - inv_bind. destruct (0 <? _)%float.
    + eapply advances_trans; [by apply (advances_count incr_empty)|].
      eapply advances_append_silence; [|eassumption]. exact Hinv.
    + inv_bind. subst. by apply advances_count.
  - destruct errs as [errors|]; [|discriminate].
    assert (Hfit :
      forall st0, clock_inv st0 ->
        (current_head_sec ← py_int_truediv (current_total_samples st0) SAMPLE_RATE;
         let target := (end_sec - current_head_sec)%float in
         let late := (target <? MIN_SEGMENT_DURATION)%float in
         let st1 := if late then count incr_late_starts st0 else st0 in
         let target := if late then MIN_SEGMENT_DURATION else target in
         stretched_wav ←
           adjust_audio_length W fs (raw_audio_path temp_dir i) target
             SAMPLE_RATE max_speed;
         OK (append_chunk st1 stretched_wav (len stretched_wav))) = OK st' ->
        advances st0 st').
    { clear. intros st0 Hinv H. inv_bind. cbv zeta in H. inv_bind. subst st'.
      destruct (_ <? _)%float.
      - eapply advances_trans; [by apply (advances_count incr_late_starts)|].
        by apply advances_append.
      - by apply advances_append. }
    destruct (errors !! i) as [[e|]|].
    + by eapply advances_append_silence.
    + by apply Hfit.
    + by apply Hfit.
Qed.

Lemma sync_step_advances W fs temp_dir errs max_speed st i sub st' :
  clock_inv st ->
  sync_step W fs temp_dir errs max_speed st i sub = OK st' ->
  advances st st'.
Proof.
  intros Hinv H. unfold sync_step in H. inv_bind.
  pose proof (pre_gap_advances _ _ _ Hinv Hv1) as Hadv.
  eapply advances_trans; [exact Hadv|].
  eapply cue_body_advances; [|eassumption]. apply Hadv.
Qed.

Lemma sync_cues_advances W fs temp_dir errs max_speed subs :
  forall i st st',
    clock_inv st ->
    sync_cues W fs temp_dir errs max_speed i subs st = OK st' ->
    advances st st'.
Proof.
  induction subs as [|sub rest IH]; intros i st st' Hinv H; simpl in H.
  - injection H as <-. by apply advances_refl.
  - inv_bind.
    pose proof (sync_step_advances _ _ _ _ _ _ _ _ _ Hinv Hv) as Hadv.
    eapply advances_trans; [exact Hadv|].
    eapply IH; [|eassumption]. apply Hadv.
Qed.

Lemma final_padding_advances (target : float) (st st' : sync_state) :
  clock_inv st -> final_padding target st = OK st' -> advances st st'.
Proof.
  intros Hinv H. unfold final_padding in H.
  destruct (0 <? target)%float.
  - inv_bind. destruct (FINAL_PADDING_THRESHOLD <? _)%float.
    + by eapply advances_append_silence.
    + destruct (_ <? _)%float; injection H as <-; by apply advances_refl.
  - injection H as <-. by apply advances_refl.
Qed.

Lemma buffer_duration_samples (segs : list waveform) :
  (buffer_duration segs == inject_Z (buffer_samples segs) / inject_Z SAMPLE_RATE)%Q.
Proof.
  induction segs as [|c segs IH].
  - reflexivity.
  - change (buffer_duration (c :: segs))
      with (inject_Z (len c) / inject_Z SAMPLE_RATE + buffer_duration segs)%Q.
    change (buffer_samples (c :: segs)) with (len c + buffer_samples segs).
    rewrite IH, inject_Z_plus. unfold Qdiv. ring.
Qed.

Lemma advances_seconds (st st' : sync_state) :
  advances st st' -> clock_steps_forward st st'.
Proof.
  intros Hadv. split; [exact Hadv|]. destruct Hadv as (Hinv & Hle & _). split.
  - unfold output_clock, Qdiv. apply Qmult_le_compat_r.
    + by rewrite <- Zle_Qle.
    + by vm_compute.
  - unfold output_clock. rewrite buffer_duration_samples, Hinv. reflexivity.
Qed.

(** ** Chunks per cue *)

Lemma append_silence_chunks (st st' : sync_state) (sec : float) :
  append_silence st sec = OK st' ->
  exists chunk,
    audio_segments st' = audio_segments st ++ [chunk] /\
    current_total_samples st' = current_total_samples st + buffer_samples [chunk].
Proof.
  intros H. apply append_silence_OK in H as (? & n & _ & _ & Hn & ->).
  simpl. eexists. split; [reflexivity|].
  unfold buffer_samples. simpl. rewrite len_replicate by exact Hn. lia.
Qed.

Lemma pre_gap_chunks (st st' : sync_state) (start_sec : float) :
  pre_gap st start_sec = OK st' ->
  exists gap,
    audio_segments st' = audio_segments st ++ gap /\
    current_total_samples st' = current_total_samples st + buffer_samples gap /\
    length gap
    = (if clock_before (current_total_samples st) start_sec then 1 else 0)%nat.
Proof.
  unfold pre_gap, clock_before. intros H. inv_bind. rewrite Hv.
  destruct (0 <? _)%float.
  - apply append_silence_chunks in H as (c & -> & ->). by exists [c].
  - exists []. rewrite app_nil_r.
    destruct (_ <? _)%float; injection H as <-; simpl;
      (split; [reflexivity|]); (split; [|reflexivity]);
      unfold buffer_samples; simpl; lia.
Qed.

Lemma cue_body_chunks W fs temp_dir errs max_speed st i text end_sec span st' :
  cue_body W fs temp_dir errs max_speed st i text end_sec span = OK st' ->
  exists body,
    audio_segments st' = audio_segments st ++ body /\
    current_total_samples st' = current_total_samples st + buffer_samples body /\
    length body
    = (if bool_decide (text = EmptyString)
       then if clock_before (current_total_samples st) end_sec then 1 else 0
       else 1)%nat.
Proof.
  unfold cue_body, clock_before. intros H. case_bool_decide as Htext.
  - inv_bind. simpl in Hv. rewrite Hv. destruct (0 <? _)%float.
    + apply append_silence_chunks in H as (c & -> & ->). by exists [c].
    + injection H as <-. exists []. simpl. rewrite app_nil_r.
      split; [reflexivity|]. split; [|reflexivity].
      unfold buffer_samples. simpl. lia.
  - destruct errs as [errors|]; [|discriminate].
    assert (exists c,
      audio_segments st' = audio_segments st ++ [c] /\
      current_total_samples st'
      = current_total_samples st + buffer_samples [c]) as (c & Hc & Hn).
    { assert (Hfit : forall w st1,
        audio_segments st1 = audio_segments st ->
        current_total_samples st1 = current_total_samples st ->
        audio_segments (append_chunk st1 w (len w)) = audio_segments st ++ [w] /\
        current_total_samples (append_chunk st1 w (len w))
        = current_total_samples st + buffer_samples [w]).
      { intros w st1 Hs Hc. simpl. rewrite Hs, Hc. split; [reflexivity|].
        unfold buffer_samples. simpl. lia. }
      destruct (errors !! i) as [[e|]|].
      - by apply append_silence_chunks in H.
      - inv_bind. cbv zeta in H. inv_bind. subst st'. eexists.
        apply Hfit; by destruct (_ <? _)%float.
      - inv_bind. cbv zeta in H. inv_bind. subst st'. eexists.
        apply Hfit; by destruct (_ <? _)%float. }
    by exists [c].
Qed.

Lemma sync_step_chunks W fs temp_dir errs max_speed st i sub st' :
  sync_step W fs temp_dir errs max_speed st i sub = OK st' ->
  exists chunks,
    audio_segments st' = audio_segments st ++ chunks /\
    current_total_samples st' = current_total_samples st + buffer_samples chunks /\
    cue_chunks (current_total_samples st) sub chunks.
Proof.
  unfold sync_step. intros H. inv_bind.
  apply pre_gap_chunks in Hv1 as (gap & Hgap & Hn & Hlen).
  apply cue_body_chunks in H as (body & Hbody & Hn' & Hlen').
  exists (gap ++ body). split; [|split].
  - by rewrite Hbody, Hgap, app_assoc.
  - rewrite Hn', Hn, buffer_samples_app. lia.
  - exists v, v0, gap, body. rewrite Hn in Hlen'. auto.
Qed.

Lemma sync_cues_chunks W fs temp_dir errs max_speed subs :
  forall i st st',
    sync_cues W fs temp_dir errs max_speed i subs st = OK st' ->
    exists per_cue,
      audio_segments st' = audio_segments st ++ concat per_cue /\
      chunks_in_order (current_total_samples st) subs per_cue.
Proof.
  induction subs as [|sub rest IH]; intros i st st' H; simpl in H.
  - injection H as <-. exists []. simpl. rewrite app_nil_r. auto.
  - inv_bind. apply sync_step_chunks in Hv as (c & Hc & Hn & Hcue).
    apply IH in H as (cs & Hcs & Hall).
    exists (c :: cs). split.
    + simpl. by rewrite Hcs, Hc, app_assoc.
    + simpl. split; [exact Hcue|]. by rewrite <- Hn.
Qed.

Lemma cue_chunks_count (subs : list SubRipItem) :
  forall n (per_cue : list (list waveform)),
    chunks_in_order n subs per_cue ->
    (spoken_cues subs <= length (concat per_cue) <= 2 * length subs)%nat.
Proof.
  unfold spoken_cues.
  induction subs as [|sub subs IH]; intros n [|c cs] Hall; simpl in Hall;
    try done; try (simpl; lia).
  destruct Hall as [Hc Hall]. specialize (IH _ _ Hall).
  destruct Hc as (s & e & gap & body & _ & _ & -> & Hg & Hb).
  simpl. rewrite !length_app. rewrite filter_cons.
  destruct (clock_before n s); case_bool_decide as Ht;
    destruct (decide (cue_text sub <> EmptyString)) as [Hne|Hne]; simpl;
    try done;
    try (destruct (clock_before _ e)); lia.
Qed.

Lemma final_padding_chunks (target : float) (st st' : sync_state) :
  final_padding target st = OK st' ->
  exists padding,
    audio_segments st' = audio_segments st ++ padding /\ (length padding <= 1)%nat.
Proof.
  unfold final_padding. intros H.
  assert (Hsame : OK st = OK st' ->
    exists padding, audio_segments st' = audio_segments st ++ padding /\
                    (length padding <= 1)%nat).
  { intros [= <-]. exists []. rewrite app_nil_r. simpl. auto. }
  destruct (0 <? target)%float; [|by apply Hsame].
  inv_bind.
  destruct (FINAL_PADDING_THRESHOLD <? _)%float;
    [|by destruct (_ <? _)%float; apply Hsame].
  apply append_silence_chunks in H as (c & -> & _). exists [c]. auto.
Qed.

(** ** Binary64 numbers *)

Lemma shr_1_nonneg mrs : 0 <= shr_m mrs -> 0 <= shr_m (shr_1 mrs).
Proof.
  destruct mrs as [m r s]. simpl. intros Hm.
  destruct m as [|p|p]; simpl; [lia | destruct p; simpl; lia | lia].
Qed.

Lemma iter_pos_shr_1_nonneg p : forall mrs,
  0 <= shr_m mrs -> 0 <= shr_m (SpecFloat.iter_pos shr_1 p mrs).
Proof.
  induction p as [p IH|p IH|]; intros mrs Hm; simpl.
  - apply IH, IH, shr_1_nonneg, Hm.
  - apply IH, IH, Hm.
  - apply shr_1_nonneg, Hm.
Qed.

Lemma shr_fexp_nonneg m e l :
  0 <= m -> 0 <= shr_m (fst (shr_fexp prec emax m e l)).
Proof.
  intros Hm. unfold shr_fexp, shr.
  assert (H0 : 0 <= shr_m (shr_record_of_loc m l)).
  { destruct l as [|[| |]]; simpl; exact Hm. }
  destruct (fexp prec emax (Zdigits2 m + e) - e); simpl;
    [exact H0 | apply iter_pos_shr_1_nonneg, H0 | exact H0].
Qed.

Lemma round_nearest_even_nonneg m l : 0 <= m -> 0 <= round_nearest_even m l.
Proof.
  intros Hm. unfold round_nearest_even.
  destruct l as [|[| |]]; try lia. destruct (Z.even m); lia.
Qed.

(** Rounding a mantissa that is not negative gives a number of the sign
    asked for. *)
Lemma binary_round_aux_sign s m e l :
  0 <= m ->
  match binary_round_aux prec emax s m e l with
  | S754_zero s' | S754_infinity s' | S754_finite s' _ _ => s' = s
  | S754_nan => False
  end.
Proof.
  intros Hm. unfold binary_round_aux.
  pose proof (shr_fexp_nonneg m e l Hm) as H1.
  destruct (shr_fexp prec emax m e l) as [mrs' e']. simpl in H1.
  pose proof (shr_fexp_nonneg
                (round_nearest_even (shr_m mrs') (loc_of_shr_record mrs')) e'
                loc_Exact (round_nearest_even_nonneg _ _ H1)) as H2.
  destruct (shr_fexp prec emax _ e' loc_Exact) as [mrs'' e'']. simpl in H2.
  destruct (shr_m mrs'') as [|p|p]; [reflexivity| |lia].
  destruct (e'' <=? emax - prec); reflexivity.
Qed.

Lemma binary_normalize_nonneg n :
  0 <= n -> SF_nonneg (binary_normalize prec emax n 0 false).
Proof.
  intros Hn. destruct n as [|p|p]; simpl; [exact I | | lia].
  unfold binary_round.
  destruct (shl_align p 0 _) as [mz ez].
  pose proof (binary_round_aux_sign false (Zpos mz) ez loc_Exact ltac:(lia)) as H.
  destruct (binary_round_aux _ _ _ _ _ _); simpl; auto.
Qed.

Lemma SFmul_nonneg x y :
  SF_nonneg x -> SF_nonneg y -> SF_nonneg (SFmul prec emax x y).
Proof.
  destruct x as [sx|sx| |sx mx ex], y as [sy|sy| |sy my ey]; simpl;
    try (intros; subst; simpl; auto; fail).
  intros -> ->. simpl.
  pose proof (binary_round_aux_sign false (Zpos (mx * my)) (ex + ey) loc_Exact
                ltac:(lia)) as H.
  destruct (binary_round_aux _ _ _ _ _ _); simpl; auto.
Qed.

Lemma SF_trunc_nonneg m e : 0 <= (if 0 <=? e then Zpos m * 2 ^ e else Zpos m / 2 ^ (- e)).
Proof.
  destruct (Z.leb_spec 0 e).
  - apply Z.mul_nonneg_nonneg; [lia | apply Z.pow_nonneg; lia].
  - apply Z.div_pos; [lia | apply Z.pow_pos_nonneg; lia].
Qed.

(** A float above zero is a positive number or the positive infinity. *)
Lemma positive_float x :
  (0 <? x)%float = true ->
  match Prim2SF x with
  | S754_finite s _ _ | S754_infinity s => s = false
  | _ => False
  end.
Proof.
  rewrite ltb_spec. change (Prim2SF 0) with (S754_zero false).
  unfold SFltb. destruct (Prim2SF x) as [s|s| |s m e]; simpl; try discriminate.
  - destruct s; [discriminate | reflexivity].
  - destruct s; [discriminate | reflexivity].
Qed.

Lemma SFcompare_refl x : SFcompare x x = Some Eq \/ SFcompare x x = None.
Proof.
  destruct x as [s|s| |s m e]; simpl; auto.
  - destruct s; auto.
  - destruct s; rewrite Z.compare_refl, Pos.compare_cont_refl; auto.
Qed.

Lemma ltb_irrefl x : (x <? x)%float = false.
Proof.
  rewrite ltb_spec. unfold SFltb.
  destruct (SFcompare_refl (Prim2SF x)) as [-> | ->]; reflexivity.
Qed.

Lemma SFcompare_antisym x y c :
  SFcompare x y = Some c -> SFcompare y x = Some (CompOpp c).
Proof.
  destruct x as [sx|sx| |sx mx ex], y as [sy|sy| |sy my ey]; simpl;
    try discriminate;
    try (intros [= <-]; try destruct sx; try destruct sy; reflexivity).
  intros [= <-]. f_equal.
  destruct sx, sy; try reflexivity;
    rewrite (Z.compare_antisym ex ey), (ZC4 my mx);
    destruct (ex ?= ey); simpl; reflexivity.
Qed.

Lemma SFcompare_number x y :
  SF_number x -> SF_number y -> exists c, SFcompare x y = Some c.
Proof.
  destruct x, y; simpl; try contradiction; eauto.
Qed.

(** On numbers, "not below" is "at least". *)
Lemma not_ltb_leb x y :
  SF_number (Prim2SF x) -> SF_number (Prim2SF y) ->
  (x <? y)%float = false -> (y <=? x)%float = true.
Proof.
  intros Hx Hy. rewrite ltb_spec, leb_spec. unfold SFltb, SFleb.
  destruct (SFcompare_number _ _ Hx Hy) as [c Hc].
  rewrite Hc, (SFcompare_antisym _ _ _ Hc).
  destruct c; simpl; congruence.
Qed.

Lemma leb_refl x : SF_number (Prim2SF x) -> (x <=? x)%float = true.
Proof.
  intros Hx. rewrite leb_spec. unfold SFleb.
  destruct (SFcompare_refl (Prim2SF x)) as [-> | H]; [reflexivity|].
  destruct (SFcompare_number _ _ Hx Hx) as [c Hc]. congruence.
Qed.

Lemma SFdiv_core_nonneg m1 e1 m2 e2 :
  0 <= fst (fst (SFdiv_core_binary prec emax (Zpos m1) e1 (Zpos m2) e2)).
Proof.
  unfold SFdiv_core_binary.
  set (s := _ - _ - _).
  set (m' := match s with Zpos _ => Z.shiftl (Zpos m1) s | Z0 => Zpos m1 | Zneg _ => 0 end).
  assert (Hm' : 0 <= m').
  { subst m'. destruct s; [lia | apply Z.shiftl_nonneg; lia | lia]. }
  pose proof (Z_div_mod m' (Zpos m2) ltac:(lia)) as Hdiv.
  destruct (Z.div_eucl m' (Zpos m2)) as [q r]. simpl.
  destruct Hdiv as [Heq Hr]. nia.
Qed.

(** A finite positive number divided by a positive number or the positive
    infinity is a number. *)
Lemma SFdiv_number x y :
  match x with S754_finite false _ _ => True | _ => False end ->
  match y with S754_finite false _ _ | S754_infinity false => True | _ => False end ->
  SF_number (SFdiv prec emax x y).
Proof.
  destruct x as [sx|sx| |sx mx ex]; try contradiction.
  destruct sx; [contradiction|]. intros _.
  destruct y as [sy|sy| |sy my ey]; try contradiction;
    destruct sy; try contradiction; intros _; simpl; [exact I|].
  pose proof (SFdiv_core_nonneg mx ex my ey) as Hq.
  destruct (SFdiv_core_binary prec emax (Zpos mx) ex (Zpos my) ey) as [[mz ez] lz].
  simpl in Hq.
  pose proof (binary_round_aux_sign false mz ez lz Hq) as H.
  destruct (binary_round_aux _ _ _ _ _ _); simpl; auto.
Qed.

Lemma finite_positive_float x :
  (0 <? x)%float = true -> (x <? infinity)%float = true ->
  match Prim2SF x with S754_finite false _ _ => True | _ => False end.
Proof.
  intros Hpos Hfin. apply positive_float in Hpos.
  rewrite ltb_spec in Hfin. change (Prim2SF infinity) with (S754_infinity false) in Hfin.
  destruct (Prim2SF x) as [s|s| |s m e]; try contradiction; subst; [discriminate|exact I].
Qed.

Lemma Prim2SF_of_Z n :
  0 <= n < 2 ^ 63 ->
  Prim2SF (SF2Prim (binary_normalize prec emax n 0 false))
  = binary_normalize prec emax n 0 false.
Proof.
  intros Hn.
  rewrite <- (Z.mod_small n Uint63.wB) at 1 by exact Hn.
  rewrite <- Uint63.of_Z_spec, <- of_uint63_spec, SF2Prim_Prim2SF.
  rewrite of_uint63_spec, Uint63.of_Z_spec, Z.mod_small by exact Hn. reflexivity.
Qed.

(** ** The duration fitter *)

Lemma float_of_int_nonneg (n : Z) (f : float) :
  0 <= n < 2 ^ 63 -> float_of_int n = OK f -> SF_nonneg (Prim2SF f).
Proof.
  intros Hn. unfold float_of_int.
  destruct (PrimFloat.is_infinity _); [discriminate|]. intros [= <-].
  rewrite Prim2SF_of_Z by exact Hn. apply binary_normalize_nonneg. lia.
Qed.

(** [int(d * n)] is not negative for a positive [d] and an [n] within the
    range of a machine integer. *)
Lemma py_int_scaled_nonneg (d : float) (n : Z) (scaled : float) (k : Z) :
  (0 <? d)%float = true -> 0 <= n < 2 ^ 63 ->
  py_float_mul_int d n = OK scaled -> py_int scaled = OK k -> 0 <= k.
Proof.
  intros Hd Hn Hmul Hint. unfold py_float_mul_int in Hmul. inv_bind. subst scaled.
  apply float_of_int_nonneg in Hv; [|exact Hn].
  apply positive_float in Hd.
  assert (Hd' : SF_nonneg (Prim2SF d)).
  { destruct (Prim2SF d); simpl; auto. }
  pose proof (SFmul_nonneg _ _ Hd' Hv) as Hprod.
  unfold py_int in Hint. rewrite mul_spec in Hint. unfold SF64mul in Hint.
  destruct (SFmul prec emax (Prim2SF d) (Prim2SF v)) as [s|s| |s m e];
    try discriminate; injection Hint as <-; [lia|].
  simpl in Hprod. subst s. unfold SF_trunc. apply SF_trunc_nonneg.
Qed.

Lemma len_py_slice_to (y : waveform) (n : Z) :
  0 <= n <= len y -> len (py_slice_to y n) = n.
Proof.
  intros Hn. unfold py_slice_to, len in *.
  destruct (Z.leb_spec 0 n); [|lia]. rewrite length_take. lia.
Qed.

(** The [try] block, when it completes, returns [int(d * sr)] samples. *)
Lemma stretch_and_fit_samples W fs input output ratio d sr w :
  (0 <? d)%float = true -> 0 <= sr < 2 ^ 63 ->
  stretch_and_fit W fs input output ratio d sr = OK w ->
  exists scaled n,
    py_float_mul_int d sr = OK scaled /\ py_int scaled = OK n /\
    0 <= n /\ len w = n.
Proof.
  intros Hd Hsr H. unfold stretch_and_fit in H.
  destruct (stretch_audio _ _ _ _ _ _) as [fs'|]; [|discriminate].
  destruct (librosa_load _ _ _ _) as [y|]; [|discriminate].
  inv_bind. exists v, v0.
  pose proof (py_int_scaled_nonneg _ _ _ _ Hd Hsr Hv Hv0) as Hn.
  repeat split; try assumption.
  destruct (Z.ltb_spec (len y) v0).
  - injection H as <-. unfold np_pad. rewrite len_app, len_replicate; lia.
  - destruct (Z.ltb_spec v0 (len y)); injection H as <-.
    + apply len_py_slice_to. lia.
    + lia.
Qed.

Lemma positive_not_leb_zero (d : float) :
  (0 <? d)%float = true -> (d <=? 0)%float = false.
Proof.
  intros Hd. apply positive_float in Hd. rewrite leb_spec.
  change (Prim2SF 0) with (S754_zero false). unfold SFleb.
  destruct (Prim2SF d) as [s|s| |s m e]; try contradiction; subst; reflexivity.
Qed.

Lemma positive_float_divisor (x : float) :
  (0 <? x)%float = true ->
  match Prim2SF x with
  | S754_finite false _ _ | S754_infinity false => True
  | _ => False
  end.
Proof.
  intros H. apply positive_float in H.
  destruct (Prim2SF x) as [s|s| |s m e]; try contradiction; subst; exact I.
Qed.

Lemma stretch_ratio_not_below (d current msf ratio : float) :
  stretch_ratio d current msf = OK ratio -> (ratio <? 1 / msf)%float = false.
Proof.
  unfold stretch_ratio, py_float_truediv. intros H.
  destruct (PrimFloat.is_zero current); [discriminate|].
  destruct (PrimFloat.is_zero msf); [discriminate|]. simpl in H.
  injection H as <-.
  destruct (d / current <? 1 / msf)%float eqn:Hlt; [apply ltb_irrefl | exact Hlt].
Qed.

(** A stretch primitive that refuses the ratios below [1 / msf] makes no
    difference to the fitter: it never asks for one. *)
Lemma adjust_audio_length_refuse_below W fs wav_path d sr msf :
  adjust_audio_length (refuse_below (1 / msf) W) fs wav_path d sr msf
  = adjust_audio_length W fs wav_path d sr msf.
Proof.
  unfold adjust_audio_length.
  change (librosa_load (refuse_below (1 / msf) W)) with (librosa_load W).
  destruct (librosa_load W fs wav_path sr) as [y|]; [|reflexivity].
  destruct (py_int_truediv (len y) sr) as [current|e]; [simpl|reflexivity].
  destruct (d <=? 0)%float; [reflexivity|].
  destruct (stretch_ratio d current msf) as [ratio|e] eqn:Hratio;
    [simpl|reflexivity].
  apply stretch_ratio_not_below in Hratio.
  unfold stretch_and_fit, stretch_audio. simpl. by rewrite Hratio.
Qed.

Lemma py_float_truediv_OK (x y q : float) :
  py_float_truediv x y = OK q -> q = (x / y)%float.
Proof.
  unfold py_float_truediv. destruct (PrimFloat.is_zero y); [discriminate|].
  by intros [= <-].
Qed.

(** ** Paths *)

Lemma string_app_nil_l (t : string) : "" +:+ t = t.
Proof. reflexivity. Qed.

Lemma string_app_cons (c : ascii) (s t : string) :
  String c s +:+ t = String c (s +:+ t).
Proof. reflexivity. Qed.

Lemma string_app_length (s t : string) :
  String.length (s +:+ t) = (String.length s + String.length t)%nat.
Proof.
  induction s as [|c s IH]; [reflexivity|].
  rewrite string_app_cons. simpl. by rewrite IH.
Qed.

Lemma string_app_inj_r (s1 s2 t : string) : s1 +:+ t = s2 +:+ t -> s1 = s2.
Proof.
  revert s2. induction s1 as [|c s1 IH]; intros [|c' s2] H;
    rewrite ?string_app_nil_l, ?string_app_cons in H.
  - reflexivity.
  - apply (f_equal String.length) in H. simpl in H.
    rewrite string_app_length in H. lia.
  - apply (f_equal String.length) in H. simpl in H.
    rewrite string_app_length in H. lia.
  - injection H as -> H. f_equal. by apply IH.
Qed.

Lemma string_app_assoc (s t u : string) : (s +:+ t) +:+ u = s +:+ (t +:+ u).
Proof.
  induction s as [|c s IH]; [reflexivity|].
  rewrite !string_app_cons. by rewrite IH.
Qed.

Lemma string_app_nil_r (s : string) : s +:+ "" = s.
Proof.
  induction s as [|c s IH]; [reflexivity|].
  rewrite string_app_cons. by rewrite IH.
Qed.

Lemma raw_audio_path_inj (temp_dir : string) (i j : nat) :
  raw_audio_path temp_dir i = raw_audio_path temp_dir j -> i = j.
Proof.
  unfold raw_audio_path, os_path_join. intros H.
  apply String.app_inj in H. apply (String.app_inj "raw_") in H.
  apply string_app_inj_r in H. by apply pretty_nat_inj in H.
Qed.

Lemma dir_prefix_extends (a : string) :
  a <> EmptyString -> exists rest, dir_prefix a = a +:+ rest.
Proof.
  intros Ha. destruct a as [|c a]; [done|].
  unfold dir_prefix. destruct (String.prefix _ _).
  - exists "". by rewrite string_app_nil_r.
  - by exists "/".
Qed.

Lemma raw_audio_path_not_cache (W : world) (temp_dir text : string) (i : nat) :
  raw_audio_path temp_dir i <> cache_path_of W temp_dir text.
Proof.
  unfold raw_audio_path, cache_path_of, os_path_join. intros H.
  destruct (dir_prefix_extends (dir_prefix temp_dir +:+ "cache")) as [rest Hrest].
  { destruct (dir_prefix temp_dir); discriminate. }
  rewrite Hrest, !string_app_assoc in H.
  apply String.app_inj in H. discriminate H.
Qed.

(** ** The first pass *)

Lemma exists_nonempty_ext (fs fs' : files) (path : string) :
  fs !! path = fs' !! path -> exists_nonempty fs path = exists_nonempty fs' path.
Proof. unfold exists_nonempty. by intros ->. Qed.

Lemma needs_generation_ext W fs fs' temp_dir resume i sub :
  fs !! raw_audio_path temp_dir i = fs' !! raw_audio_path temp_dir i ->
  fs !! cache_path_of W temp_dir (cue_text sub)
  = fs' !! cache_path_of W temp_dir (cue_text sub) ->
  needs_generation W fs temp_dir resume i sub
  = needs_generation W fs' temp_dir resume i sub.
Proof.
  intros H1 H2. unfold needs_generation.
  by rewrite (exists_nonempty_ext _ _ _ H1), (exists_nonempty_ext _ _ _ H2).
Qed.

Lemma copy_file_lookup_ne (fs : files) (src dst path : string) :
  path <> dst -> copy_file fs src dst !! path = fs !! path.
Proof.
  intros Hne. unfold copy_file. destruct (fs !! src); [|reflexivity].
  by rewrite lookup_insert_ne.
Qed.

(** What one iteration of the first pass does to the files and to the
    schedule. *)
Lemma first_pass_step_shape W temp_dir resume p i sub :
  let p' := first_pass_step W temp_dir resume p i sub in
  (forall path, path <> raw_audio_path temp_dir i ->
     ps_files p' !! path = ps_files p !! path) /\
  let q :=
    if needs_generation W (ps_files p) temp_dir resume i sub
    then schedule (cue_text sub) (cache_path_of W temp_dir (cue_text sub)) i p
    else p in
  segments_to_generate p' = segments_to_generate q /\
  text_to_cache p' = text_to_cache q.
Proof.
  unfold first_pass_step, needs_generation.
  case_bool_decide as Htext; simpl; [by auto|].
  destruct (resume && _) eqn:Hres; simpl; [by auto|].
  destruct (exists_nonempty (ps_files p) (cache_path_of _ _ _)) eqn:Hc; simpl.
  - destruct (copy2_ok W FirstPass i); simpl.
    + split; [|by auto]. intros path Hne. by apply copy_file_lookup_ne.
    + split; [|by auto]. intros path _. unfold schedule.
      by destruct (text_to_cache p !! _).
  - split; [|by auto]. intros path _. unfold schedule.
    by destruct (text_to_cache p !! _).
Qed.

Lemma first_needing_snoc W fs temp_dir resume subs sub text path i :
  first_needing W fs temp_dir resume (subs ++ [sub]) text path i
  <-> first_needing W fs temp_dir resume subs text path i
      \/ (i = length subs /\ cue_text sub = text /\
          path = cache_path_of W temp_dir text /\
          needs_generation W fs temp_dir resume i sub = true /\
          forall j sub', subs !! j = Some sub' ->
            needs_generation W fs temp_dir resume j sub' = true ->
            cue_text sub' <> text).
Proof.
  unfold first_needing. split.
  - intros (s & Hi & Ht & Hp & Hn & Hfirst).
    apply lookup_snoc_Some in Hi as [[Hlt Hi] | [-> <-]].
    + left. exists s. repeat split; try assumption.
      intros j s' Hj Hl. apply Hfirst; [exact Hj|].
      apply lookup_app_l_Some, Hl.
    + right. repeat split; try assumption.
      intros j s' Hl. apply Hfirst.
      * by apply lookup_lt_Some in Hl.
      * apply lookup_app_l_Some, Hl.
  - intros [(s & Hi & Ht & Hp & Hn & Hfirst) | (-> & Ht & Hp & Hn & Hfirst)].
    + exists s. repeat split; try assumption.
      * apply lookup_app_l_Some, Hi.
      * intros j s' Hj Hl. apply (Hfirst j s' Hj).
        apply lookup_snoc_Some in Hl as [[_ Hl] | [-> _]]; [exact Hl|].
        apply lookup_lt_Some in Hi. lia.
    + exists sub. repeat split; try assumption.
      * apply lookup_snoc_Some. by right.
      * intros j s' Hj Hl. apply (Hfirst j s').
        apply lookup_snoc_Some in Hl as [[_ Hl] | [-> _]]; [exact Hl | lia].
Qed.

Lemma first_pass_inv_init W fs0 temp_dir resume n :
  first_pass_inv W fs0 temp_dir resume [] (initial_prepare_state fs0 n).
Proof.
  split; simpl.
  - reflexivity.
  - intros text. rewrite lookup_empty. split; [by intros [? ?] | by intros ?%elem_of_nil].
  - constructor.
  - intros text path i. split; [by intros ?%elem_of_nil|].
    by intros (s & Hi & _).
  - intros j s Hj. done.
Qed.

Lemma first_pass_inv_step W fs0 temp_dir resume done sub p :
  first_pass_inv W fs0 temp_dir resume done p ->
  first_pass_inv W fs0 temp_dir resume (done ++ [sub])
    (first_pass_step W temp_dir resume p (length done) sub).
Proof.
  intros [Hfiles Hseen Hnodup Hsched Hcover].
  pose proof (first_pass_step_shape W temp_dir resume p (length done) sub)
    as (Hfs & Hsegs & Httc).
  set (p' := first_pass_step W temp_dir resume p (length done) sub) in *.
  set (text := cue_text sub) in *.
  set (cache := cache_path_of W temp_dir text) in *.
  assert (Hneeds : needs_generation W (ps_files p) temp_dir resume (length done) sub
                   = needs_generation W fs0 temp_dir resume (length done) sub).
  { apply needs_generation_ext; apply Hfiles; intros j Hj.
    - intros Heq%raw_audio_path_inj. lia.
    - intros Heq. symmetry in Heq. by apply raw_audio_path_not_cache in Heq. }
  rewrite Hneeds in Hsegs, Httc. clear Hneeds.
  assert (Hfiles' : forall path,
    (forall j, (j < length (done ++ [sub]))%nat -> path <> raw_audio_path temp_dir j) ->
    ps_files p' !! path = fs0 !! path).
  { intros path Hpath. rewrite length_app in Hpath. simpl in Hpath.
    rewrite Hfs by (apply Hpath; lia). apply Hfiles.
    intros j Hj. apply Hpath. lia. }
  destruct (needs_generation W fs0 temp_dir resume (length done) sub) eqn:Hn.
  - (* the cue needs a clip: [schedule] *)
    unfold schedule in Hsegs, Httc.
    destruct (text_to_cache p !! text) as [c|] eqn:Hlook.
    + (* its text is scheduled already *)
      assert (Hin : text ∈ map seg_text (segments_to_generate p)).
      { apply Hseen. by rewrite Hlook. }
      split.
      * exact Hfiles'.
      * intros t. by rewrite Hsegs, Httc.
      * by rewrite Hsegs.
      * intros t path i. rewrite Hsegs, Hsched, first_needing_snoc.
        split; [by left|]. intros [H | (-> & <- & _ & _ & Hfirst)]; [exact H|].
        exfalso. apply list_elem_of_fmap in Hin as ([[t' path'] i'] & Ht' & Hin).
        unfold seg_text in Ht'. simpl in Ht'. subst t'.
        apply Hsched in Hin as (s & Hi' & Hs & _ & Hn' & _).
        by apply (Hfirst i' s Hi' Hn').
      * intros j s Hj Hnj. rewrite Hsegs.
        apply lookup_snoc_Some in Hj as [[_ Hj] | [-> <-]]; [by eapply Hcover|].
        exact Hin.
    + (* a new entry *)
      assert (Hnotin : text ∉ map seg_text (segments_to_generate p)).
      { intros Hin%Hseen. rewrite Hlook in Hin. by destruct Hin. }
      simpl in Hsegs, Httc. split.
      * exact Hfiles'.
      * intros t. rewrite Hsegs, Httc, map_app, elem_of_app. simpl.
        rewrite list_elem_of_singleton. unfold seg_text at 2. simpl.
        destruct (decide (t = text)) as [->|Hne].
        -- rewrite lookup_insert_eq. split; [by right | by eauto].
        -- rewrite lookup_insert_ne by done. rewrite Hseen.
           split; [by left | by intros [H | H]].
      * rewrite Hsegs, map_app. simpl. apply NoDup_app. split; [exact Hnodup|].
        split; [|apply NoDup_singleton].
        intros t Ht ->%list_elem_of_singleton. by apply Hnotin.
      * intros t path i. rewrite Hsegs, elem_of_app, list_elem_of_singleton,
          Hsched, first_needing_snoc.
        split; (intros [H | H]; [by left | right]).
        -- injection H as -> -> ->. repeat split; try done.
           intros j s Hj Hnj Ht. apply Hnotin. rewrite <- Ht. by eapply Hcover.
        -- destruct H as (-> & <- & -> & _). reflexivity.
      * intros j s Hj Hnj. rewrite Hsegs, map_app, elem_of_app.
        apply lookup_snoc_Some in Hj as [[_ Hj] | [-> <-]].
        -- left. by eapply Hcover.
        -- right. simpl. apply list_elem_of_singleton. reflexivity.
  - (* the cue needs nothing *)
    split.
    + exact Hfiles'.
    + intros t. by rewrite Hsegs, Httc.
    + by rewrite Hsegs.
    + intros t path i. rewrite Hsegs, Hsched, first_needing_snoc.
      split; [by left|]. intros [H | (-> & _ & _ & Hn' & _)]; [exact H|].
      congruence.
    + intros j s Hj Hnj. rewrite Hsegs.
      apply lookup_snoc_Some in Hj as [[_ Hj] | [-> <-]]; [by eapply Hcover|].
      congruence.
Qed.

Lemma first_pass_app W temp_dir resume l1 : forall l2 i p,
  first_pass W temp_dir resume i (l1 ++ l2) p
  = first_pass W temp_dir resume (i + length l1) l2
      (first_pass W temp_dir resume i l1 p).
Proof.
  induction l1 as [|s l1 IH]; intros l2 i p; simpl.
  - by rewrite Nat.add_0_r.
  - rewrite IH. f_equal. lia.
Qed.

(** The invariant holds when the first pass is over. *)
Lemma first_pass_inv_final W fs0 temp_dir resume subs n :
  first_pass_inv W fs0 temp_dir resume subs
    (first_pass W temp_dir resume 0 subs (initial_prepare_state fs0 n)).
Proof.
  induction subs as [|sub subs IH] using rev_ind.
  - apply first_pass_inv_init.
  - rewrite first_pass_app. simpl. by apply first_pass_inv_step.
Qed.

Lemma elem_of_texts_to_generate W fs temp_dir resume subs : forall i text,
  text ∈ texts_to_generate W fs temp_dir resume i subs
  <-> exists j sub, subs !! j = Some sub /\ cue_text sub = text /\
        needs_generation W fs temp_dir resume (i + j) sub = true.
Proof.
  induction subs as [|s subs IH]; intros i text; simpl.
  - split; [by intros ?%elem_of_nil | by intros (j & s & Hj & _)].
  - rewrite elem_of_app, IH. split.
    + intros [H | (j & s' & Hj & Ht & Hn)].
      * destruct (needs_generation _ _ _ _ i s) eqn:Hn;
          [|by apply elem_of_nil in H].
        apply list_elem_of_singleton in H as ->.
        exists 0%nat, s. by rewrite Nat.add_0_r.
      * exists (S j), s'. repeat split; try done.
        by replace (i + S j)%nat with (S i + j)%nat by lia.
    + intros (j & s' & Hj & Ht & Hn). destruct j as [|j]; simpl in Hj.
      * injection Hj as ->. left. rewrite Nat.add_0_r in Hn. rewrite Hn.
        by apply list_elem_of_singleton.
      * right. exists j, s'. repeat split; try done.
        by replace (S i + j)%nat with (i + S j)%nat by lia.
Qed.

(** The scheduled texts are the texts that need a clip, each once. *)
Lemma scheduled_texts W fs0 temp_dir resume subs p text :
  first_pass_inv W fs0 temp_dir resume subs p ->
  text ∈ map seg_text (segments_to_generate p)
  <-> text ∈ texts_to_generate W fs0 temp_dir resume 0 subs.
Proof.
  intros Hinv. rewrite elem_of_texts_to_generate. split.
  - intros ([[t path] i] & Ht & Hin)%list_elem_of_fmap.
    unfold seg_text in Ht. simpl in Ht. subst t.
    apply (fpi_sched _ _ _ _ _ _ Hinv) in Hin as (s & Hi & Hs & _ & Hn & _).
    by exists i, s.
  - intros (j & s & Hj & <- & Hn). by eapply (fpi_cover _ _ _ _ _ _ Hinv).
Qed.

Lemma scheduled_index_nodup W fs0 temp_dir resume subs p :
  first_pass_inv W fs0 temp_dir resume subs p ->
  NoDup (map seg_index (segments_to_generate p)).
Proof.
  intros Hinv. apply NoDup_fmap_2_strong.
  - intros [[t1 p1] i1] [[t2 p2] i2] H1 H2 Hi.
    unfold seg_index in Hi. simpl in Hi. subst i2.
    apply (fpi_sched _ _ _ _ _ _ Hinv) in H1 as (s1 & Hl1 & Ht1 & Hp1 & _).
    apply (fpi_sched _ _ _ _ _ _ Hinv) in H2 as (s2 & Hl2 & Ht2 & Hp2 & _).
    congruence.
  - eapply NoDup_fmap_1, (fpi_nodup _ _ _ _ _ _ Hinv).
Qed.

(** ** Propagation *)

Lemma propagate_step_lookup_ne W temp_dir fs i sub path :
  path <> raw_audio_path temp_dir i ->
  propagate_step W temp_dir fs i sub !! path = fs !! path.
Proof.
  intros Hne. unfold propagate_step.
  case_bool_decide; [reflexivity|].
  destruct (exists_nonempty _ _); [reflexivity|].
  destruct (_ && _); [|reflexivity]. by apply copy_file_lookup_ne.
Qed.

Lemma propagate_lookup_ne W temp_dir subs : forall k fs path,
  (forall j, (k <= j < k + length subs)%nat -> path <> raw_audio_path temp_dir j) ->
  propagate W temp_dir k subs fs !! path = fs !! path.
Proof.
  induction subs as [|s subs IH]; intros k fs path Hpath; simpl; [reflexivity|].
  rewrite IH.
  - apply propagate_step_lookup_ne, Hpath. simpl. lia.
  - intros j Hj. apply Hpath. simpl. lia.
Qed.

(** A cue with text and no clip gets the file stored under its text's
    cache key, when the copy succeeds. *)
Lemma propagate_copies W temp_dir subs : forall k fs i sub b,
  subs !! i = Some sub ->
  cue_text sub <> EmptyString ->
  exists_nonempty fs (raw_audio_path temp_dir (k + i)) = false ->
  fs !! cache_path_of W temp_dir (cue_text sub) = Some b ->
  copy2_ok W Propagation (k + i) = true ->
  propagate W temp_dir k subs fs !! raw_audio_path temp_dir (k + i) = Some b.
Proof.
  induction subs as [|s subs IH]; intros k fs i sub b Hi Htext Hraw Hcache Hcopy;
    [done|].
  destruct i as [|i]; simpl in Hi |- *.
  - injection Hi as ->. rewrite Nat.add_0_r in *.
    rewrite propagate_lookup_ne.
    + unfold propagate_step. rewrite bool_decide_eq_false_2 by done.
      rewrite Hraw. unfold path_exists. rewrite Hcache.
      rewrite bool_decide_eq_true_2 by eauto. rewrite Hcopy. simpl.
      unfold copy_file. rewrite Hcache. apply lookup_insert_eq.
    + intros j Hj Heq%raw_audio_path_inj. lia.
  - replace (k + S i)%nat with (S k + i)%nat in * by lia.
    apply (IH (S k) _ i sub b Hi Htext).
    + rewrite <- Hraw. apply exists_nonempty_ext, propagate_step_lookup_ne.
      intros Heq%raw_audio_path_inj. lia.
    + rewrite <- Hcache. apply propagate_step_lookup_ne.
      intros Heq. symmetry in Heq. by apply raw_audio_path_not_cache in Heq.
    + exact Hcopy.
Qed.

(** ** Batched generation *)

Lemma generate_audio_segment_loop_outcome W text path retries attempts :
  forall fs fs',
    (generate_audio_segment_loop W text path retries attempts fs).2
    = (generate_audio_segment_loop W text path retries attempts fs').2.
Proof.
  induction attempts as [|i rest IH]; intros fs fs'; simpl; [reflexivity|].
  destruct (tts_save W text path i); [reflexivity|].
  destruct (Z.of_nat i <? retries); [apply IH | reflexivity].
Qed.

Lemma generate_audio_segment_outcome W text path retries fs :
  (generate_audio_segment W text path retries fs).2
  = generation_outcome W text path retries.
Proof. apply generate_audio_segment_loop_outcome. Qed.

(** When every attempt fails, the last one leaves with the error. *)
Lemma generate_audio_segment_loop_fails W text path retries fs : forall n i,
  (Z.of_nat i + Z.of_nat n = retries + 1) -> (0 < n)%nat ->
  (forall k, Z.of_nat k <= retries -> tts_save W text path k = None) ->
  generate_audio_segment_loop W text path retries (seq i n) fs
  = (fs, Some NetworkError).
Proof.
  induction n as [|n IH]; intros i Hsum Hn Hfail; [lia|].
  simpl. rewrite Hfail by lia.
  destruct (Z.ltb_spec (Z.of_nat i) retries); [|reflexivity].
  apply IH; [lia | lia | exact Hfail].
Qed.


Lemma batches_concat {A} (n : nat) : forall fuel (l : list A),
  (0 < n)%nat -> (length l <= fuel)%nat -> concat (batches fuel n l) = l.
Proof.
  induction fuel as [|fuel IH]; intros l Hn Hlen.
  - destruct l; [reflexivity | simpl in Hlen; lia].
  - destruct l as [|x l]; [reflexivity|].
    cbn [batches concat]. rewrite IH.
    + apply take_drop.
    + exact Hn.
    + rewrite length_drop. simpl in *. lia.
Qed.

Lemma fold_left_concat {A B} (f : A -> B -> A) (ls : list (list B)) : forall a,
  fold_left (fun acc l => fold_left f l acc) ls a = fold_left f (concat ls) a.
Proof.
  induction ls as [|l ls IH]; intros a; simpl; [reflexivity|].
  by rewrite fold_left_app, IH.
Qed.

(** With a positive batch size, the batches go over the items in order. *)
Lemma generate_audio_batch_positive W segs batch_size retries fs :
  0 < batch_size ->
  generate_audio_batch W segs batch_size retries fs
  = OK (fold_left (generate_one W retries) segs (fs, ∅)).
Proof.
  intros Hb. unfold generate_audio_batch.
  destruct (Z.eqb_spec batch_size 0); [lia|].
  destruct (Z.ltb_spec batch_size 0); [lia|].
  rewrite fold_left_concat, batches_concat; [reflexivity | lia | lia].
Qed.

Lemma generate_one_results W retries segs : forall acc idx,
  idx ∉ map seg_index segs ->
  (fold_left (generate_one W retries) segs acc).2 !! idx = acc.2 !! idx.
Proof.
  induction segs as [|[[t p] i] segs IH]; intros acc idx Hnot; simpl; [reflexivity|].
  apply not_elem_of_cons in Hnot as [Hne Hnot]. rewrite IH by exact Hnot.
  unfold generate_one.
  destruct (generate_audio_segment W t p retries acc.1) as [fs e]. simpl.
  unfold seg_index in Hne. simpl in Hne. by rewrite lookup_insert_ne.
Qed.

(** Every submitted index gets its outcome. *)
Lemma generate_one_outcome W retries segs : forall acc text path idx,
  NoDup (map seg_index segs) ->
  (text, path, idx) ∈ segs ->
  (fold_left (generate_one W retries) segs acc).2 !! idx
  = Some (generation_outcome W text path retries).
Proof.
  induction segs as [|[[t p] i] segs IH]; intros acc text path idx Hnd Hin;
    [by apply elem_of_nil in Hin|].
  simpl in Hnd. apply NoDup_cons in Hnd as [Hnot Hnd].
  apply elem_of_cons in Hin as [Heq | Hin].
  - injection Heq as -> -> ->. simpl. rewrite generate_one_results by exact Hnot.
    unfold generate_one.
    pose proof (generate_audio_segment_outcome W t p retries acc.1) as Hout.
    destruct (generate_audio_segment W t p retries acc.1) as [fs e]. simpl in *.
    by rewrite lookup_insert_eq, Hout.
  - simpl. by apply IH.
Qed.

Lemma scheduled_segments_inv W fs temp_dir resume subs :
  exists p,
    first_pass_inv W fs temp_dir resume subs p /\
    scheduled_segments W fs temp_dir resume subs = segments_to_generate p.
Proof. eexists. split; [apply first_pass_inv_final | reflexivity]. Qed.

(** With a positive batch size the preparation completes, and every
    scheduled index has its outcome in [generation_errors]. *)
Lemma prepare_clips_outcomes W fs temp_dir subs resume batch_size retries
    text path idx :
  0 < batch_size ->
  (text, path, idx) ∈ scheduled_segments W fs temp_dir resume subs ->
  exists fs' stats errors,
    prepare_clips W fs temp_dir subs resume batch_size retries
    = OK (fs', stats, Some errors) /\
    errors !! idx = Some (generation_outcome W text path retries).
Proof.
  intros Hb Hin.
  destruct (scheduled_segments_inv W fs temp_dir resume subs) as (p & Hinv & Hp).
  unfold prepare_clips.
  change (first_pass W temp_dir resume 0 subs _)
    with (first_pass W temp_dir resume 0 subs
            (initial_prepare_state fs (length subs))).
  unfold scheduled_segments in Hin, Hp.
  set (p0 := first_pass W temp_dir resume 0 subs _) in *.
  destruct (segments_to_generate p0) as [|item segs] eqn:Hsegs;
    [by apply elem_of_nil in Hin|].
  rewrite <- Hsegs in *. clear Hsegs item segs.
  rewrite generate_audio_batch_positive by exact Hb. simpl.
  destruct (fold_left (generate_one W retries) (segments_to_generate p0)
              (ps_files p0, ∅)) as [fs1 errors] eqn:Hgen.
  simpl.
  destruct (fold_left (after_generation_step W temp_dir errors)
              (segments_to_generate p0) (fs1, ps_stats p0)) as [fs2 stats2].
  simpl. eexists _, _, _. split; [reflexivity|].
  pose proof (generate_one_outcome W retries (segments_to_generate p0)
                (ps_files p0, ∅) text path idx) as Hout.
  rewrite Hgen in Hout. simpl in Hout. apply Hout; [|exact Hin].
  rewrite Hp. by eapply scheduled_index_nodup.
Qed.

(** ** The [empty] statistic *)

Lemma silent_cues_cons (sub : SubRipItem) (subs : list SubRipItem) :
  silent_cues (sub :: subs)
  = ((if bool_decide (cue_text sub = EmptyString) then 1 else 0)
     + silent_cues subs)%nat.
Proof.
  unfold silent_cues. rewrite filter_cons.
  case_bool_decide; destruct (decide _); try done; reflexivity.
Qed.

Lemma schedule_stats text cache i p : ps_stats (schedule text cache i p) = ps_stats p.
Proof. unfold schedule. by destruct (text_to_cache p !! text). Qed.

Lemma first_pass_step_empty W temp_dir resume p i sub :
  stats_empty (ps_stats (first_pass_step W temp_dir resume p i sub))
  = ((if bool_decide (cue_text sub = EmptyString) then 1 else 0)
     + stats_empty (ps_stats p))%nat.
Proof.
  unfold first_pass_step. case_bool_decide; [reflexivity|].
  destruct (resume && _); [reflexivity|].
  destruct (exists_nonempty _ (cache_path_of _ _ _));
    [destruct (copy2_ok _ _ _)|]; rewrite ?schedule_stats; reflexivity.
Qed.

Lemma first_pass_empty W temp_dir resume subs : forall i p,
  stats_empty (ps_stats (first_pass W temp_dir resume i subs p))
  = (stats_empty (ps_stats p) + silent_cues subs)%nat.
Proof.
  induction subs as [|sub subs IH]; intros i p; simpl.
  - unfold silent_cues. simpl. lia.
  - rewrite IH, first_pass_step_empty, silent_cues_cons. lia.
Qed.

Lemma after_generation_empty W temp_dir errors segs : forall acc,
  stats_empty (fold_left (after_generation_step W temp_dir errors) segs acc).2
  = stats_empty acc.2.
Proof.
  induction segs as [|[[t p] i] segs IH]; intros acc; simpl; [reflexivity|].
  rewrite IH. unfold after_generation_step.
  destruct (errors !! i) as [[e|]|]; try reflexivity.
  destruct (path_exists _ _); [destruct (copy2_ok _ _ _)|]; reflexivity.
Qed.

Lemma append_silence_stats st sec st' :
  append_silence st sec = OK st' -> sync_stats st' = sync_stats st.
Proof. intros H. by apply append_silence_OK in H as (? & ? & _ & _ & _ & ->). Qed.

Lemma pre_gap_empty st start_sec st' :
  pre_gap st start_sec = OK st' ->
  stats_empty (sync_stats st') = stats_empty (sync_stats st).
Proof.
  unfold pre_gap. intros H. inv_bind. destruct (0 <? _)%float.
  - by rewrite (append_silence_stats _ _ _ H).
  - destruct (_ <? _)%float; by injection H as <-.
Qed.

Lemma cue_body_empty W fs temp_dir errs max_speed st i text end_sec span st' :
  cue_body W fs temp_dir errs max_speed st i text end_sec span = OK st' ->
  stats_empty (sync_stats st')
  = ((if bool_decide (text = EmptyString) then 1 else 0)
     + stats_empty (sync_stats st))%nat.
Proof.
  unfold cue_body. intros H. case_bool_decide.
  - inv_bind. destruct (0 <? _)%float.
    + by rewrite (append_silence_stats _ _ _ H).
    + by injection H as <-.
  - destruct errs as [errors|]; [|discriminate].
    destruct (errors !! i) as [[e|]|].
    + by rewrite (append_silence_stats _ _ _ H).
    + inv_bind. cbv zeta in H. inv_bind. subst st'. simpl.
      by destruct (_ <? _)%float.
    + inv_bind. cbv zeta in H. inv_bind. subst st'. simpl.
      by destruct (_ <? _)%float.
Qed.

Lemma sync_cues_empty W fs temp_dir errs max_speed subs : forall i st st',
  sync_cues W fs temp_dir errs max_speed i subs st = OK st' ->
  stats_empty (sync_stats st')
  = (stats_empty (sync_stats st) + silent_cues subs)%nat.
Proof.
  induction subs as [|sub subs IH]; intros i st st' H; simpl in H.
  - injection H as <-. unfold silent_cues. simpl. lia.
  - inv_bind. apply IH in H. rewrite H, silent_cues_cons.
    unfold sync_step in Hv. inv_bind.
    apply cue_body_empty in Hv. apply pre_gap_empty in Hv2.
    rewrite Hv, Hv2. lia.
Qed.

Lemma final_padding_stats target st st' :
  final_padding target st = OK st' -> sync_stats st' = sync_stats st.
Proof.
  unfold final_padding. intros H. destruct (0 <? target)%float.
  - inv_bind. destruct (FINAL_PADDING_THRESHOLD <? _)%float.
    + by apply append_silence_stats in H.
    + by destruct (_ <? _)%float; injection H as <-.
  - by injection H as <-.
Qed.

(** A run that completes reports twice as many empty subtitles as there
    are cues with empty text: lines 466 and 582 both count them. *)
Lemma empty_cues_are_counted_twice W fs temp_dir subs resume target max_speed
    batch_size retries st :
  srt_to_audio_numpy W fs temp_dir subs resume target max_speed batch_size
    retries = OK st ->
  stats_empty (sync_stats st) = (2 * silent_cues subs)%nat.
Proof.
  unfold srt_to_audio_numpy. intros H.
  destruct subs as [|sub subs'] eqn:Hsubs; [by injection H as <-|].
  rewrite <- Hsubs in *. clear Hsubs. inv_bind.
  destruct v as [[fs' stats'] errs]. inv_bind.
  rewrite (final_padding_stats _ _ _ H).
  apply sync_cues_empty in Hv0. rewrite Hv0. simpl.
  assert (stats_empty stats' = silent_cues subs); [|lia].
  clear -Hv. unfold prepare_clips in Hv.
  set (p0 := first_pass W temp_dir resume 0 subs _) in *.
  assert (Hp0 : stats_empty (ps_stats p0) = silent_cues subs).
  { subst p0. by rewrite first_pass_empty. }
  destruct (segments_to_generate p0) as [|item segs].
  - simpl in Hv. by injection Hv as _ <- _.
  - inv_bind. destruct v as [[fs3 stats3] errs3], v0 as [fs1 errors].
    injection Hv as _ <- _.
    pose proof (after_generation_empty W temp_dir errors (item :: segs)
                  (fs1, ps_stats p0)) as Hgen.
    destruct (fold_left _ (item :: segs) (fs1, ps_stats p0)) as [fs2 stats2].
    simpl in Hgen. injection Hv0 as _ <- _. by rewrite Hgen.
Qed.

(** A whole run starts from the empty buffer and only appends. *)
Lemma srt_to_audio_numpy_advances W fs temp_dir subs resume target max_speed
    batch_size retries st' :
  srt_to_audio_numpy W fs temp_dir subs resume target max_speed batch_size
    retries = OK st' ->
  exists s, clock_steps_forward (initial_state s) st'.
Proof.
  unfold srt_to_audio_numpy. intros H.
  assert (Hinit : forall s, clock_inv (initial_state s)) by reflexivity.
  destruct subs as [|sub subs'] eqn:Hsubs.
  - injection H as <-. exists (new_stats 0).
    apply advances_seconds, advances_refl, Hinit.
  - rewrite <- Hsubs in *. clear Hsubs. inv_bind.
    destruct v as [[fs' stats'] errs]. inv_bind.
    exists stats'. apply advances_seconds.
    pose proof (sync_cues_advances _ _ _ _ _ _ _ _ _ (Hinit stats') Hv0) as Hadv.
    eapply advances_trans; [exact Hadv|].
    eapply final_padding_advances; [apply Hadv | exact H].
Qed.

(** A clip that decodes to no samples makes the fitter raise: the ratio
    divides by a current length of zero, outside any [try]. *)
Lemma adjust_audio_length_empty_clip :
  adjust_audio_length demo_world (one_clip 0) "clip.mp3" 0.05 24000 1.5
  = Raise ZeroDivisionError.
Proof. vm_compute. reflexivity. Qed.

(** When no segment is scheduled, [generation_errors] stays unbound and the
    first cue with text makes the main loop raise. *)
Lemma resumed_run_raises :
  srt_to_audio_numpy demo_world two_clips "tmp" overlapping_cues true 0 1.5 10 10
  = Raise UnboundLocalError.
Proof. vm_compute. reflexivity. Qed.

(** A cue that shares the text of a scheduled cue has no entry of its own
    in [generation_errors]: when the generation of that text fails, the
    scheduled cue gets its span of silence and the other cue, with no clip
    to load, a chunk of no samples. *)
Lemma repeated_text_of_failed_generation :
  summary (srt_to_audio_numpy offline_world ∅ "tmp"
             [cue 0 0 1 0 "Hello"; cue 1 0 2 0 "Hello"] false 0 1.5 10 2)
  = Some ([24000; 0], 24000,
          {| stats_total := 2; stats_generated := 0; stats_resumed := 0;
             stats_cached := 0; stats_failed := 1; stats_empty := 0;
             stats_overlaps := 0; stats_late_starts := 0 |}).
Proof. vm_compute. reflexivity. Qed.

(** ** Paths inside the temporary directory, and the log file *)

Lemma string_prefix_app (a b : string) : String.prefix a (a +:+ b) = true.
Proof.
  induction a as [|c a IH]; [by destruct b|].
  rewrite string_app_cons. simpl. destruct (Ascii.ascii_dec c c); [exact IH | done].
Qed.

Lemma raw_audio_path_under (temp_dir : string) (i : nat) :
  String.prefix (dir_prefix temp_dir) (raw_audio_path temp_dir i) = true.
Proof. apply string_prefix_app. Qed.

Lemma cache_path_under (W : world) (temp_dir text : string) :
  String.prefix (dir_prefix temp_dir) (cache_path_of W temp_dir text) = true.
Proof.
  unfold cache_path_of, os_path_join.
  destruct (dir_prefix_extends (dir_prefix temp_dir +:+ "cache")) as [rest ->].
  { destruct (dir_prefix temp_dir); discriminate. }
  rewrite !string_app_assoc. apply string_prefix_app.
Qed.

Lemma log_write_lookup_ne H log_file part fs q :
  log_file <> Some q -> log_write H log_file part fs !! q = fs !! q.
Proof.
  intros Hne. unfold log_write. destruct log_file as [[|c p]|]; try reflexivity.
  rewrite lookup_insert_ne; [reflexivity | congruence].
Qed.

(** The log file holds what it held, and the records after it. *)
Lemma log_write_lookup H log_file part fs p :
  log_file = Some p -> p <> EmptyString ->
  log_write H log_file part fs !! p
  = Some (default [] (fs !! p) ++ log_records H part).
Proof.
  intros -> Hp. unfold log_write. destruct p as [|c p]; [done|].
  apply lookup_insert_eq.
Qed.

Lemma log_apart_raw log_file temp_dir j :
  log_apart log_file temp_dir -> log_file <> Some (raw_audio_path temp_dir j).
Proof.
  intros Hlog Heq. apply (Hlog _ Heq). left. apply raw_audio_path_under.
Qed.

Lemma log_apart_cache W log_file temp_dir text :
  log_apart log_file temp_dir -> log_file <> Some (cache_path_of W temp_dir text).
Proof.
  intros Hlog Heq. apply (Hlog _ Heq). left. apply cache_path_under.
Qed.

(** ** What is never raised *)




















(** ** A backend that is down *)









(* ================================================================== *)
(** * The claims *)

(** C1 (as amended). For every positive desired duration [d], what
    [adjust_audio_length] returns is settled by its two collaborators: when
    the clip loads and the stretch step completes, the waveform has exactly
    [int(d * sample_rate)] samples, the product truncated toward zero and
    not rounded; when the stretch step fails, it is the raw clip unchanged;
    when the clip does not load, it is empty. *)
Theorem adjust_audio_length_samples W fs wav_path d sr msf w :
  (0 <? d)%float = true -> 0 <= sr < 2 ^ 63 ->
  adjust_audio_length W fs wav_path d sr msf = OK w ->
  match librosa_load W fs wav_path sr with
  | None => w = []
  | Some y =>
      exists current ratio,
        py_int_truediv (len y) sr = OK current /\
        stretch_ratio d current msf = OK ratio /\
        match stretch_and_fit W fs wav_path (output_tmp_path wav_path) ratio d sr with
        | OK w' =>
            w = w' /\
            exists scaled n,
              py_float_mul_int d sr = OK scaled /\ py_int scaled = OK n /\
              0 <= n /\ len w = n
        | Raise _ => w = y
        end
  end.
Proof.
  intros Hd Hsr H. unfold adjust_audio_length in H.
  destruct (librosa_load W fs wav_path sr) as [y|]; [|by injection H as <-].
  inv_bind. rewrite (positive_not_leb_zero _ Hd) in H. inv_bind.
  exists v, v0. split; [assumption|]. split; [assumption|].
  destruct (stretch_and_fit _ _ _ _ _ _ _) as [w'|e] eqn:Hfit.
  - injection H as <-. split; [reflexivity|].
    by eapply stretch_and_fit_samples.
  - by injection H as <-.
Qed.

(** C1, an instance: a clip of 3 samples fitted to 0.001 s is padded to 24
    samples. *)
Lemma adjust_audio_length_samples_witness :
  match adjust_audio_length demo_world (one_clip 3) "clip.mp3" 0.001 24000 1.5 with
  | OK w => len w = 24
  | Raise _ => False
  end.
Proof.
  destruct (adjust_audio_length _ _ _ _ _ _) as [w|e] eqn:Hrun.
  - pose proof (adjust_audio_length_samples demo_world (one_clip 3) "clip.mp3"
                  0.001 24000 1.5 w eq_refl ltac:(lia) Hrun) as H.
    change (librosa_load demo_world (one_clip 3) "clip.mp3" 24000)
      with (Some [1%float; 1%float; 1%float]) in H.
    destruct H as (current & ratio & _ & _ & H).
    destruct (stretch_and_fit _ _ _ _ _ _ _) as [w'|e'].
    + destruct H as (_ & scaled & n & Hscaled & Hn & _ & Hlen).
      vm_compute in Hscaled. injection Hscaled as <-.
      vm_compute in Hn. injection Hn as <-. exact Hlen.
    + subst w. vm_compute in Hrun. discriminate Hrun.
  - vm_compute in Hrun. discriminate Hrun.
Defined.

(** C1, counterexample: a clip of 48 samples and the desired duration
    1/256 s at 24 kHz.  The product is 93.75; [round] gives 94 and the
    fitter returns 93 samples. *)
Lemma fit_truncates_where_round_rounds_up :
  (0 <? 0.00390625)%float = true /\
  py_float_mul_int 0.00390625 24000 = OK 93.75%float /\
  py_round 93.75 = OK 94 /\
  match adjust_audio_length demo_world (one_clip 48) "clip.mp3" 0.00390625
          24000 1.5 with
  | OK w => len w = 93
  | Raise _ => False
  end.
Proof. vm_compute. repeat split. Qed.

(** C2 (as amended). In a run that completes, the buffer is, in cue order,
    what each cue added followed by at most one terminal padding chunk.
    With the counter at [n] samples before it, a cue adds one pre-gap
    silence chunk when its start is after the clock [n / SAMPLE_RATE], and
    none otherwise; then one chunk of its own when its text is not empty,
    one when its text is empty and its end is after the clock, and none
    when its text is empty and the clock has already reached its end.  So
    the number of chunks lies between the number of cues with text and
    twice the number of cues plus one. *)
Theorem chunks_per_cue W fs temp_dir subs resume target max_speed batch_size
    retries st :
  srt_to_audio_numpy W fs temp_dir subs resume target max_speed batch_size
    retries = OK st ->
  exists per_cue padding,
    audio_segments st = concat per_cue ++ padding /\
    chunks_in_order 0 subs per_cue /\
    (length padding <= 1)%nat /\
    (spoken_cues subs <= length (audio_segments st) <= 2 * length subs + 1)%nat.
Proof.
  unfold srt_to_audio_numpy. intros H.
  destruct subs as [|sub subs'] eqn:Hsubs.
  - injection H as <-. exists [], []. simpl. repeat split; auto.
  - rewrite <- Hsubs in *. clear Hsubs. inv_bind.
    destruct v as [[fs' stats'] errs].
    inv_bind.
    apply sync_cues_chunks in Hv0 as (per_cue & Hsegs & Hall).
    apply final_padding_chunks in H as (padding & Hpad & Hlen).
    simpl in Hsegs, Hall. exists per_cue, padding.
    assert (Heq : audio_segments st = concat per_cue ++ padding)
      by (by rewrite Hpad, Hsegs).
    split; [exact Heq|]. split; [exact Hall|]. split; [exact Hlen|].
    rewrite Heq, length_app.
    pose proof (cue_chunks_count _ _ _ Hall). lia.
Qed.

(** C2, an instance: the end-to-end scenario, three cues and three chunks,
    none of them a pre-gap chunk. *)
Lemma chunks_per_cue_witness :
  exists per_cue padding,
    map len (concat per_cue ++ padding) = [48000; 48000; 1200] /\
    chunks_in_order 0 scenario_cues per_cue /\
    (length padding <= 1)%nat.
Proof.
  assert (Hsum :
    option_map fst
      (summary (srt_to_audio_numpy demo_world ∅ "tmp" scenario_cues false 0 1.5
                  10 10))
    = Some ([48000; 48000; 1200], 97200)) by (vm_compute; reflexivity).
  destruct (srt_to_audio_numpy demo_world ∅ "tmp" scenario_cues false 0 1.5 10 10)
    as [st|e] eqn:Hrun; [|discriminate Hsum].
  destruct (chunks_per_cue _ _ _ _ _ _ _ _ _ _ Hrun)
    as (per_cue & padding & Heq & Hall & Hlen & _).
  exists per_cue, padding. rewrite <- Heq. split; [|by split].
  simpl in Hsum. congruence.
Defined.

(** C2, counterexample: two silent cues, the second ending where the first
    ends.  The run completes with one chunk for two cues: the second cue
    adds nothing, because the clock has already reached its end. *)
Lemma silent_cue_adds_no_chunk :
  length nested_silent_cues = 2%nat /\
  summary (srt_to_audio_numpy demo_world ∅ "tmp" nested_silent_cues false 0 1.5
             10 10)
  = Some ([48000], 48000,
          {| stats_total := 2; stats_generated := 0; stats_resumed := 0;
             stats_cached := 0; stats_failed := 0; stats_empty := 4;
             stats_overlaps := 1; stats_late_starts := 0 |}).
Proof. vm_compute. repeat split. Qed.

(** C3. Throughout the synchronization pass the output clock
    [total_samples / SAMPLE_RATE] never goes back, overlaps included, and
    after every append it equals the summed durations of the chunks
    appended so far: from any state in which the counter equals what the
    buffer holds, the pre-gap step, the rest of an iteration, the loop over
    any cue sequence and the final padding each lead to a state where this
    holds again, with a clock that is not smaller and a buffer that only
    grew at its end; and so does a whole run, from the empty buffer to the
    end of processing. *)
Theorem output_clock_monotone W fs temp_dir errs max_speed (st : sync_state) :
  clock_inv st ->
  (forall start_sec st',
      pre_gap st start_sec = OK st' -> clock_steps_forward st st') /\
  (forall i text end_sec span st',
      cue_body W fs temp_dir errs max_speed st i text end_sec span = OK st' ->
      clock_steps_forward st st') /\
  (forall i subs st',
      sync_cues W fs temp_dir errs max_speed i subs st = OK st' ->
      clock_steps_forward st st') /\
  (forall target st',
      final_padding target st = OK st' -> clock_steps_forward st st') /\
  (forall fs0 subs resume target batch_size retries st',
      srt_to_audio_numpy W fs0 temp_dir subs resume target max_speed batch_size
        retries = OK st' ->
      exists s, clock_steps_forward (initial_state s) st').
Proof.
  intros Hinv. split; [|split; [|split; [|split]]]; intros.
  - by eapply advances_seconds, pre_gap_advances.
  - by eapply advances_seconds, cue_body_advances.
  - by eapply advances_seconds, sync_cues_advances.
  - by eapply advances_seconds, final_padding_advances.
  - by eapply srt_to_audio_numpy_advances.
Qed.

(** C3, an instance: two overlapping cues; the overlap is recorded and the
    clock does not go back. *)
Lemma output_clock_monotone_witness :
  clock_inv (initial_state (new_stats 2)) /\
  match sync_cues demo_world two_clips "tmp" (Some ∅) 1.5 0 overlapping_cues
          (initial_state (new_stats 2)) with
  | OK st' =>
      clock_steps_forward (initial_state (new_stats 2)) st' /\
      stats_overlaps (sync_stats st') = 1%nat
  | Raise _ => False
  end.
Proof.
  assert (Hinv : clock_inv (initial_state (new_stats 2))) by reflexivity.
  split; [exact Hinv|].
  assert (Hsum :
    summary (sync_cues demo_world two_clips "tmp" (Some ∅) 1.5 0 overlapping_cues
               (initial_state (new_stats 2)))
    = Some ([2400; 2400], 4800,
            {| stats_total := 2; stats_generated := 0; stats_resumed := 0;
               stats_cached := 0; stats_failed := 0; stats_empty := 0;
               stats_overlaps := 1; stats_late_starts := 0 |}))
    by (vm_compute; reflexivity).
  destruct (sync_cues _ _ _ _ _ _ _ _) as [st'|e] eqn:Hrun; [|discriminate Hsum].
  split.
  - exact (proj1 (proj2 (proj2
      (output_clock_monotone demo_world two_clips "tmp" (Some ∅) 1.5 _ Hinv)))
      _ _ _ Hrun).
  - simpl in Hsum. injection Hsum as _ _ ->. reflexivity.
Defined.

(** C4 (as amended). The ratio [adjust_audio_length] hands to the stretch
    primitive is never below [1 / max_speed_factor]: a primitive that
    refuses every ratio below that bound changes nothing for the fitter,
    and the ratio computed is at least the bound whenever the durations and
    the factor are positive numbers.  When the stretch step completes,
    clamped ratio or not, the waveform it returns has exactly
    [int(d * sample_rate)] samples, by zero-padding or cropping: the
    desired duration truncated to whole samples. *)
Theorem stretch_ratio_clamped W fs d sr msf :
  (forall wav_path,
      adjust_audio_length (refuse_below (1 / msf) W) fs wav_path d sr msf
      = adjust_audio_length W fs wav_path d sr msf) /\
  (forall current ratio,
      stretch_ratio d current msf = OK ratio ->
      (ratio <? 1 / msf)%float = false /\
      ((0 <? d)%float = true -> (d <? infinity)%float = true ->
       (0 <? current)%float = true -> (0 <? msf)%float = true ->
       (1 / msf <=? ratio)%float = true) /\
      (forall input output w,
          (0 <? d)%float = true -> 0 <= sr < 2 ^ 63 ->
          stretch_and_fit W fs input output ratio d sr = OK w ->
          exists scaled n,
            py_float_mul_int d sr = OK scaled /\ py_int scaled = OK n /\
            0 <= n /\ len w = n)).
Proof.
  split; [intros; apply adjust_audio_length_refuse_below|].
  intros current ratio H.
  split; [by eapply stretch_ratio_not_below|].
  unfold stretch_ratio in H. inv_bind.
  apply py_float_truediv_OK in Hv, Hv0. subst v v0 ratio.
  split.
  - intros Hd Hfin Hcur Hmsf.
    assert (Hnum1 : SF_number (Prim2SF (d / current))).
    { rewrite div_spec. apply SFdiv_number.
      - by apply finite_positive_float.
      - by apply positive_float_divisor. }
    assert (Hnum2 : SF_number (Prim2SF (1 / msf))).
    { rewrite div_spec. apply SFdiv_number.
      - exact I.
      - by apply positive_float_divisor. }
    destruct (d / current <? 1 / msf)%float eqn:Hlt.
    + by apply leb_refl.
    + by apply not_ltb_leb.
  - intros input output w Hd Hsr Hfit. by eapply stretch_and_fit_samples.
Qed.

(** C4, an instance: 0.05 s asked of a clip of 0.2 s at a maximum speed of
    1.5: the ratio is clamped to 1/1.5 and the result has 1200 samples. *)
Lemma stretch_ratio_clamped_witness :
  stretch_ratio 0.05 0.2 1.5 = OK (1 / 1.5)%float /\
  (1 / 1.5 <=? 1 / 1.5)%float = true /\
  match stretch_and_fit demo_world (one_clip 4800) "clip.mp3" "out.wav"
          (1 / 1.5) 0.05 24000 with
  | OK w => len w = 1200
  | Raise _ => False
  end.
Proof.
  assert (Hratio : stretch_ratio 0.05 0.2 1.5 = OK (1 / 1.5)%float)
    by (vm_compute; reflexivity).
  destruct (proj2 (stretch_ratio_clamped demo_world (one_clip 4800) 0.05 24000 1.5)
              0.2%float _ Hratio) as (_ & Hle & Hfit).
  split; [exact Hratio|]. split.
  - apply Hle; vm_compute; reflexivity.
  - destruct (stretch_and_fit _ _ _ _ _ _ _) as [w|e] eqn:Hrun.
    + destruct (Hfit _ _ w eq_refl ltac:(lia) Hrun)
        as (scaled & n & Hscaled & Hn & _ & Hlen).
      vm_compute in Hscaled. injection Hscaled as <-.
      vm_compute in Hn. injection Hn as <-. exact Hlen.
    + vm_compute in Hrun. discriminate Hrun.
Defined.

(** C4, counterexample: a clip of 0.2 s (4800 samples) and the desired
    duration 1/256 s, with a maximum speed factor of 1.5.  The ratio is
    clamped, the stretch succeeds, and the fitter returns 93 samples: a
    duration below the 1/256 s asked for, and below [round(d * sr)] = 94
    samples as well.  The same happens with the duration of a cue that ends
    at 00:00:00,287: 6887 samples, less than 0.287 s. *)
Lemma clamped_fit_is_shorter_than_requested :
  stretch_ratio 0.00390625 0.2 1.5 = OK (1 / 1.5)%float /\
  (0.00390625 / 0.2 <? 1 / 1.5)%float = true /\
  match adjust_audio_length demo_world (one_clip 4800) "clip.mp3" 0.00390625
          24000 1.5 with
  | OK w =>
      len w = 93 /\
      match py_int_truediv (len w) 24000 with
      | OK duration => (duration <? 0.00390625)%float = true
      | Raise _ => False
      end
  | Raise _ => False
  end /\
  match time_str_to_seconds (stamp 0 287) with
  | OK d =>
      stretch_ratio d 1 1.5 = OK (1 / 1.5)%float /\
      match adjust_audio_length demo_world (one_clip (Z.to_nat 24000)) "clip.mp3"
              d 24000 1.5 with
      | OK w =>
          len w = 6887 /\
          match py_int_truediv (len w) 24000 with
          | OK duration => (duration <? d)%float = true
          | Raise _ => False
          end
      | Raise _ => False
      end
  | Raise _ => False
  end.
Proof. vm_compute. repeat split. Qed.

(** C5 (as amended). Take a cue set in which no two texts that need a
    generated clip differ only in letter case.  Texts are compared as the
    program trims them: newlines replaced by spaces and the ends stripped,
    inner whitespace kept as it is.  Then every text is scheduled at most
    once; the scheduled entries are exactly the first cue of each text
    among the cues that need a clip, each with the cache path of its text;
    so the number of generation calls is the number [k] of distinct
    lowercased texts that need a clip.  Afterwards the propagation loop
    gives every cue with text and no clip a copy of the file stored under
    its text's cache key, when the copy succeeds: cues that share a text
    share one output. *)
Theorem scheduled_once_per_text W fs temp_dir resume subs :
  (forall t1 t2,
      t1 ∈ texts_to_generate W fs temp_dir resume 0 subs ->
      t2 ∈ texts_to_generate W fs temp_dir resume 0 subs ->
      str_lower t1 = str_lower t2 -> t1 = t2) ->
  NoDup (map seg_text (scheduled_segments W fs temp_dir resume subs)) /\
  (forall text path i,
      (text, path, i) ∈ scheduled_segments W fs temp_dir resume subs
      <-> first_needing W fs temp_dir resume subs text path i) /\
  length (scheduled_segments W fs temp_dir resume subs)
  = size (list_to_set (C := gset string)
            (str_lower <$> texts_to_generate W fs temp_dir resume 0 subs)) /\
  (forall fs' i sub b,
      subs !! i = Some sub ->
      cue_text sub <> EmptyString ->
      exists_nonempty fs' (raw_audio_path temp_dir i) = false ->
      fs' !! cache_path_of W temp_dir (cue_text sub) = Some b ->
      copy2_ok W Propagation i = true ->
      propagate W temp_dir 0 subs fs' !! raw_audio_path temp_dir i = Some b).
Proof.
  intros Hcase.
  destruct (scheduled_segments_inv W fs temp_dir resume subs) as (p & Hinv & ->).
  split; [exact (fpi_nodup _ _ _ _ _ _ Hinv)|].
  split; [exact (fpi_sched _ _ _ _ _ _ Hinv)|].
  split.
  - assert (Hnd : NoDup (str_lower <$> map seg_text (segments_to_generate p))).
    { apply NoDup_fmap_2_strong; [|exact (fpi_nodup _ _ _ _ _ _ Hinv)].
      intros t1 t2 H1 H2. apply Hcase; by eapply scheduled_texts. }
    rewrite <- (length_map seg_text), <- (length_fmap str_lower).
    rewrite <- (size_list_to_set (C := gset string)) by exact Hnd.
    f_equal. apply set_eq. intros t.
    rewrite !elem_of_list_to_set, !list_elem_of_fmap.
    split; intros (t' & -> & Hin); exists t'; (split; [reflexivity|]);
      by eapply scheduled_texts.
  - intros fs' i sub b Hi Htext Hraw Hcache Hcopy.
    by apply (propagate_copies W temp_dir subs 0 fs' i sub b).
Qed.

(** C5, an instance: two texts over three spoken cues, two calls. *)
Lemma scheduled_once_per_text_witness :
  scheduled_segments demo_world ∅ "tmp" false repeated_cues
  = [("Hello", cache_path_of demo_world "tmp" "Hello", 0%nat);
     ("Hi", cache_path_of demo_world "tmp" "Hi", 2%nat)] /\
  length (scheduled_segments demo_world ∅ "tmp" false repeated_cues)
  = size (list_to_set (C := gset string)
            (str_lower <$> texts_to_generate demo_world ∅ "tmp" false 0
                             repeated_cues)).
Proof.
  split; [vm_compute; reflexivity|].
  apply (scheduled_once_per_text demo_world ∅ "tmp" false repeated_cues).
  change (texts_to_generate demo_world ∅ "tmp" false 0 repeated_cues)
    with ["Hello"; "Hello"; "Hi"].
  intros t1 t2 H1 H2 Hlow.
  repeat (apply elem_of_cons in H1 as [-> | H1]);
    try (by apply elem_of_nil in H1);
    repeat (apply elem_of_cons in H2 as [-> | H2]);
    try (by apply elem_of_nil in H2);
    try reflexivity; vm_compute in Hlow; discriminate Hlow.
Defined.

(** C5, counterexample: two cues whose texts differ in inner whitespace
    only.  Lowercased and split into words they are the same text, one
    normalized text in the claim's sense, and two generation calls are
    scheduled. *)
Lemma inner_whitespace_is_not_collapsed :
  String.words (str_lower "a  b") = String.words (str_lower "a b") /\
  map seg_text
    (scheduled_segments demo_world ∅ "tmp" false
       [cue 0 0 1 0 "a  b"; cue 1 0 2 0 "a b"])
  = ["a  b"; "a b"].
Proof. vm_compute. repeat split. Qed.

(** The same text in two letter cases is scheduled twice, and both calls
    write the same cache file. *)
Lemma letter_case_is_scheduled_twice :
  scheduled_segments demo_world ∅ "tmp" false
    [cue 0 0 1 0 "Hello"; cue 1 0 2 0 "hello"]
  = [("Hello", "tmp/cache/cache_hello.mp3", 0%nat);
     ("hello", "tmp/cache/cache_hello.mp3", 1%nat)].
Proof. vm_compute. reflexivity. Qed.

(** C6. A cue whose cache lookup hits and whose copy to its own location
    fails does not fail the run: the first pass has no failing path, and
    it leaves a generation call for that cue's text scheduled, under the
    cache path of the text and for this cue or an earlier one with the
    same text.  With a positive batch size the preparation then completes
    and the outcome of that call is recorded. *)
Theorem cache_copy_failure_is_scheduled W fs temp_dir resume subs i sub :
  subs !! i = Some sub ->
  cue_text sub <> EmptyString ->
  resume && exists_nonempty fs (raw_audio_path temp_dir i) = false ->
  exists_nonempty fs (cache_path_of W temp_dir (cue_text sub)) = true ->
  copy2_ok W FirstPass i = false ->
  exists j,
    (j <= i)%nat /\
    (cue_text sub, cache_path_of W temp_dir (cue_text sub), j)
      ∈ scheduled_segments W fs temp_dir resume subs /\
    forall batch_size retries,
      0 < batch_size ->
      exists fs' stats errors,
        prepare_clips W fs temp_dir subs resume batch_size retries
        = OK (fs', stats, Some errors) /\
        errors !! j
        = Some (generation_outcome W (cue_text sub)
                  (cache_path_of W temp_dir (cue_text sub)) retries).
Proof.
  intros Hi Htext Hres Hhit Hcopy.
  assert (Hneeds : needs_generation W fs temp_dir resume i sub = true).
  { unfold needs_generation.
    rewrite bool_decide_eq_false_2 by exact Htext.
    by rewrite Hres, Hhit, Hcopy. }
  destruct (scheduled_segments_inv W fs temp_dir resume subs) as (p & Hinv & Hp).
  pose proof (fpi_cover _ _ _ _ _ _ Hinv i sub Hi Hneeds) as Hin.
  apply list_elem_of_fmap in Hin as ([[t path] j] & Ht & Hin).
  unfold seg_text in Ht. simpl in Ht. subst t.
  pose proof Hin as Hfirst.
  apply (fpi_sched _ _ _ _ _ _ Hinv) in Hfirst as (s & Hj & Hs & -> & _ & Hmin).
  exists j. split; [|split].
  - destruct (le_lt_dec j i) as [|Hlt]; [assumption|].
    by destruct (Hmin i sub Hlt Hi Hneeds).
  - by rewrite Hp.
  - intros batch_size retries Hb.
    apply prepare_clips_outcomes; [exact Hb | by rewrite Hp].
Qed.

(** C6, an instance: the cache holds the clip, every copy fails, and the
    second cue's text is scheduled. *)
Lemma cache_copy_failure_is_scheduled_witness :
  exists j,
    (j <= 1)%nat /\
    ("Hello", cache_path_of no_copy_world "tmp" "Hello", j)
      ∈ scheduled_segments no_copy_world warm_cache "tmp" false repeated_cues.
Proof.
  destruct (cache_copy_failure_is_scheduled no_copy_world warm_cache "tmp" false
              repeated_cues 1 (cue 1 0 2 0 "Hello"))
    as (j & Hj & Hin & _); try reflexivity.
  - vm_compute. discriminate.
  - by exists j.
Defined.




(** C8. The end-to-end scenario of the specification, in a world where
    every call succeeds: the chunks are 2.0 s of speech, 2.0 s of silence
    for the empty cue and 0.05 s of speech, with one late start; and the
    [empty] statistic is 2 for the one empty cue, which the first pass and
    the synchronization pass each count. *)
Theorem scenario_counts_the_empty_cue_twice :
  silent_cues scenario_cues = 1%nat /\
  summary (srt_to_audio_numpy demo_world ∅ "tmp" scenario_cues false 0 1.5 10 10)
  = Some ([48000; 48000; 1200], 97200,
          {| stats_total := 3; stats_generated := 2; stats_resumed := 0;
             stats_cached := 0; stats_failed := 0; stats_empty := 2;
             stats_overlaps := 0; stats_late_starts := 1 |}).
Proof. vm_compute. repeat split. Qed.

(** C9 (as amended). When a positive target duration is given and
    [missing = target - current] exceeds the padding threshold, one chunk
    of [int(missing * SAMPLE_RATE)] zero samples is appended and the
    counter advances by that many: [missing] truncated to whole samples,
    which is [missing] itself when it is a whole number of samples.  In
    every other case, an output that overran the target included, the
    state is left as it is.  Chunks already in the buffer are never
    removed or shortened. *)
Theorem final_padding_appends_missing (target : float) (st st' : sync_state) :
  final_padding target st = OK st' ->
  audio_segments st `prefix_of` audio_segments st' /\
  ((0 <? target)%float = false -> st' = st) /\
  ((0 <? target)%float = true ->
   exists current,
     py_int_truediv (current_total_samples st) SAMPLE_RATE = OK current /\
     if (FINAL_PADDING_THRESHOLD <? target - current)%float then
       exists scaled n,
         py_float_mul_int (target - current) SAMPLE_RATE = OK scaled /\
         py_int scaled = OK n /\ 0 <= n /\
         st' = append_chunk st (replicate (Z.to_nat n) 0%float) n
     else st' = st).
Proof.
  intros H. split; [|split].
  - apply final_padding_chunks in H as (padding & -> & _).
    by apply prefix_app_r.
  - intros Hneg. unfold final_padding in H. rewrite Hneg in H. by injection H.
  - intros Hpos. unfold final_padding in H. rewrite Hpos in H. inv_bind.
    exists v. split; [exact Hv|].
    destruct (FINAL_PADDING_THRESHOLD <? _)%float.
    + apply append_silence_OK in H as (scaled & n & ? & ? & ? & ->).
      by exists scaled, n.
    + by destruct (_ <? _)%float; injection H.
Qed.

(** C9, an instance: the target 10.0 s with 9.0 s in the buffer gets 24000
    samples, and the final duration is 10.0 s. *)
Lemma final_padding_appends_missing_witness :
  summary (final_padding 10 nine_seconds)
  = Some ([216000; 24000], 240000, new_stats 1) /\
  py_int_truediv 240000 SAMPLE_RATE = OK 10%float /\
  match final_padding 10 nine_seconds with
  | OK st' => audio_segments nine_seconds `prefix_of` audio_segments st'
  | Raise _ => False
  end.
Proof.
  split; [vm_compute; reflexivity|]. split; [vm_compute; reflexivity|].
  assert (Hsum : summary (final_padding 10 nine_seconds)
                 = Some ([216000; 24000], 240000, new_stats 1))
    by (vm_compute; reflexivity).
  destruct (final_padding 10 nine_seconds) as [st'|e] eqn:Hrun;
    [|discriminate Hsum].
  exact (proj1 (final_padding_appends_missing 10 nine_seconds st' Hrun)).
Defined.

(** C9, counterexample: the target 10.00390625 s with 9.0 s in the buffer.
    What is missing is 1.00390625 s, or 24093.75 samples; 24093 samples
    are appended, and the final duration stays below the target. *)
Lemma final_padding_is_truncated :
  summary (final_padding 10.00390625 nine_seconds)
  = Some ([216000; 24093], 240093, new_stats 1) /\
  py_int_truediv 216000 SAMPLE_RATE = OK 9%float /\
  (10.00390625 - 9)%float = 1.00390625%float /\
  py_float_mul_int 1.00390625 SAMPLE_RATE = OK 24093.75%float /\
  match py_int_truediv 24093 SAMPLE_RATE, py_int_truediv 240093 SAMPLE_RATE with
  | OK appended, OK final =>
      (appended <? 1.00390625)%float = true /\
      (final <? 10.00390625)%float = true
  | _, _ => False
  end.
Proof. vm_compute. repeat split. Qed.

(** C10. When the audio at a path fails to load, [adjust_audio_length]
    returns a waveform of no samples whatever the desired duration; so a
    cue with text and no recorded failure whose raw clip is unreadable or
    missing gets one chunk of zero samples, and the sample counter stays
    where it was: nothing is emitted in its place and nothing is raised. *)
Theorem unreadable_clip_adds_no_samples W fs wav_path sr :
  librosa_load W fs wav_path sr = None ->
  (forall d msf, adjust_audio_length W fs wav_path d sr msf = OK []) /\
  (forall temp_dir i errors max_speed st text end_sec span head,
      wav_path = raw_audio_path temp_dir i -> sr = SAMPLE_RATE ->
      text <> EmptyString ->
      (forall e, errors !! i <> Some (Some e)) ->
      py_int_truediv (current_total_samples st) SAMPLE_RATE = OK head ->
      exists st',
        cue_body W fs temp_dir (Some errors) max_speed st i text end_sec span
        = OK st' /\
        audio_segments st' = audio_segments st ++ [[]] /\
        current_total_samples st' = current_total_samples st).
Proof.
  intros Hload.
  assert (Hfit : forall d msf, adjust_audio_length W fs wav_path d sr msf = OK []).
  { intros d msf. unfold adjust_audio_length. by rewrite Hload. }
  split; [exact Hfit|].
  intros temp_dir i errors max_speed st text end_sec span head -> -> Htext Herr Hhead.
  unfold cue_body. rewrite bool_decide_eq_false_2 by exact Htext.
  assert (Hbranch :
    exists st',
      (current_head_sec ← py_int_truediv (current_total_samples st) SAMPLE_RATE;
       let target := (end_sec - current_head_sec)%float in
       let late := (target <? MIN_SEGMENT_DURATION)%float in
       let st1 := if late then count incr_late_starts st else st in
       let target := if late then MIN_SEGMENT_DURATION else target in
       stretched_wav ←
         adjust_audio_length W fs (raw_audio_path temp_dir i) target
           SAMPLE_RATE max_speed;
       OK (append_chunk st1 stretched_wav (len stretched_wav))) = OK st' /\
      audio_segments st' = audio_segments st ++ [[]] /\
      current_total_samples st' = current_total_samples st).
  { rewrite Hhead. simpl. rewrite Hfit. simpl.
    eexists. split; [reflexivity|].
    destruct (_ <? _)%float; simpl; (split; [reflexivity | unfold len; simpl; lia]). }
  destruct (errors !! i) as [[e|]|] eqn:Hi.
  - by destruct (Herr e).
  - exact Hbranch.
  - exact Hbranch.
Qed.

(** C10, an instance: no clip on disk for the cue; one chunk of no samples
    and a clock that stays at 0. *)
Lemma unreadable_clip_adds_no_samples_witness :
  (forall d msf,
      adjust_audio_length demo_world ∅ (raw_audio_path "tmp" 0) d SAMPLE_RATE msf
      = OK []) /\
  summary (sync_cues demo_world ∅ "tmp" (Some ∅) 1.5 0 [cue 0 0 2 0 "Hello"]
             (initial_state (new_stats 1)))
  = Some ([0], 0, new_stats 1).
Proof.
  split.
  - exact (proj1 (unreadable_clip_adds_no_samples demo_world ∅
                    (raw_audio_path "tmp" 0) SAMPLE_RATE eq_refl)).
  - vm_compute. reflexivity.
Defined.

(* ================================================================== *)
(** * Further properties

    Properties of the code besides the claims: the generation and its
    retries, the counters, the files of a run with its log file, the export,
    the cleanup, and the target duration given on the command line. *)

(** ** Retries *)

Lemma generate_audio_segment_loop_first_success W text path retries fs b :
  forall k i n,
    (k < n)%nat ->
    Z.of_nat (i + k) <= retries ->
    tts_save W text path (i + k) = Some b ->
    (forall j, (j < k)%nat -> tts_save W text path (i + j) = None) ->
    generate_audio_segment_loop W text path retries (seq i n) fs
    = (<[path := b]> fs, None).
Proof.
  induction k as [|k IH]; intros i n Hn Hle Hok Hfail.
  - destruct n as [|n]; [lia|]. simpl. rewrite Nat.add_0_r in Hok. by rewrite Hok.
  - destruct n as [|n]; [lia|]. simpl.
    pose proof (Hfail 0%nat ltac:(lia)) as H0. rewrite Nat.add_0_r in H0.
    rewrite H0. destruct (Z.ltb_spec (Z.of_nat i) retries); [|lia].
    apply IH.
    + lia.
    + replace (S i + k)%nat with (i + S k)%nat by lia. exact Hle.
    + replace (S i + k)%nat with (i + S k)%nat by lia. exact Hok.
    + intros j Hj. replace (S i + j)%nat with (i + S j)%nat by lia.
      apply Hfail. lia.
Qed.

(** X3: the retry loop of [generate_audio_segment].  With a negative
    retry count no attempt is made and the call returns without an error,
    having written nothing.  Otherwise the first attempt that succeeds,
    among the attempts [0 .. retries], writes the file and ends the call;
    when all of them fail, the call leaves with the error and the files are
    as they were. *)
Theorem generate_audio_segment_retries W text path retries fs :
  (retries < 0 -> generate_audio_segment W text path retries fs = (fs, None)) /\
  (forall k b,
      Z.of_nat k <= retries ->
      tts_save W text path k = Some b ->
      (forall j, (j < k)%nat -> tts_save W text path j = None) ->
      generate_audio_segment W text path retries fs = (<[path := b]> fs, None)) /\
  (0 <= retries ->
   (forall k, Z.of_nat k <= retries -> tts_save W text path k = None) ->
   generate_audio_segment W text path retries fs = (fs, Some NetworkError)).
Proof.
  split; [|split].
  - intros Hneg. unfold generate_audio_segment.
    replace (Z.to_nat (retries + 1)) with 0%nat by lia. reflexivity.
  - intros k b Hk Hok Hfail. unfold generate_audio_segment.
    apply (generate_audio_segment_loop_first_success W text path retries fs b k 0%nat);
      [lia | simpl; lia | exact Hok | exact Hfail].
  - intros Hr Hfail. unfold generate_audio_segment.
    apply generate_audio_segment_loop_fails; [lia | lia | exact Hfail].
Qed.

(** X3, an instance: a third attempt that succeeds, a negative retry
    count, and a backend that is down. *)
Lemma generate_audio_segment_retries_witness :
  generate_audio_segment flaky_world "Hello" "c.mp3" 3 ∅
  = (<["c.mp3" := [Byte.x2a]]> ∅, None) /\
  generate_audio_segment flaky_world "Hello" "c.mp3" (-1) ∅ = (∅, None) /\
  generate_audio_segment offline_world "Hello" "c.mp3" 3 ∅ = (∅, Some NetworkError).
Proof.
  split; [|split].
  - apply (proj1 (proj2 (generate_audio_segment_retries flaky_world "Hello" "c.mp3" 3 ∅))
             2%nat [Byte.x2a]).
    + lia.
    + reflexivity.
    + intros j Hj. destruct j as [|[|j]]; [reflexivity | reflexivity | lia].
  - apply (proj1 (generate_audio_segment_retries flaky_world "Hello" "c.mp3" (-1) ∅)). lia.
  - apply (proj2 (proj2 (generate_audio_segment_retries offline_world "Hello" "c.mp3" 3 ∅))).
    + lia.
    + reflexivity.
Defined.

(** ** Batches *)

Lemma generate_audio_segment_loop_frame W text path retries attempts : forall fs p,
  p <> path ->
  (generate_audio_segment_loop W text path retries attempts fs).1 !! p = fs !! p.
Proof.
  induction attempts as [|i rest IH]; intros fs p Hne; simpl; [reflexivity|].
  destruct (tts_save W text path i); simpl; [by rewrite lookup_insert_ne|].
  destruct (Z.of_nat i <? retries); [by apply IH | reflexivity].
Qed.

Lemma generate_one_frame W retries segs : forall acc p,
  p ∉ map seg_path segs ->
  (fold_left (generate_one W retries) segs acc).1 !! p = acc.1 !! p.
Proof.
  induction segs as [|[[t q] i] segs IH]; intros acc p Hnot; simpl; [reflexivity|].
  apply not_elem_of_cons in Hnot as [Hne Hnot]. rewrite IH by exact Hnot.
  unfold generate_one, seg_path in *. simpl in Hne.
  pose proof (generate_audio_segment_loop_frame W t q retries
                (seq 0 (Z.to_nat (retries + 1))) acc.1 p Hne) as Hf.
  unfold generate_audio_segment.
  destruct (generate_audio_segment_loop W t q retries _ acc.1) as [fs e].
  exact Hf.
Qed.

Lemma generate_one_dom W retries segs : forall acc idx,
  is_Some ((fold_left (generate_one W retries) segs acc).2 !! idx)
  <-> is_Some (acc.2 !! idx) \/ idx ∈ map seg_index segs.
Proof.
  induction segs as [|[[t q] i] segs IH]; intros acc idx; simpl.
  - split; [by left | intros [H | H]; [exact H | by apply elem_of_nil in H]].
  - rewrite IH, elem_of_cons. unfold generate_one, seg_index at 2. simpl.
    destruct (generate_audio_segment W t q retries acc.1) as [fs e]. simpl.
    destruct (decide (idx = i)) as [->|Hne].
    + rewrite lookup_insert_eq. split; [intros _; right; by left | by eauto].
    + rewrite lookup_insert_ne by done.
      split; [intros [H | H]; [by left | right; by right]|].
      intros [H | [H | H]]; [by left | done | by right].
Qed.

(** X4: what [generate_audio_batch] returns for a positive batch size.
    The result has an entry for exactly the indices submitted; when no
    index is submitted twice, the entry of a segment is the outcome of its
    own generation; only the output paths of the segments are written; and
    when no output path is submitted twice, the result does not depend on
    the batch size. *)
Theorem generate_audio_batch_results W segs batch_size retries fs :
  0 < batch_size ->
  exists fs' errors,
    generate_audio_batch W segs batch_size retries fs = OK (fs', errors) /\
    (forall idx, is_Some (errors !! idx) <-> idx ∈ map seg_index segs) /\
    (NoDup (map seg_index segs) ->
     forall text path idx, (text, path, idx) ∈ segs ->
       errors !! idx = Some (generation_outcome W text path retries)) /\
    (forall path, path ∉ map seg_path segs -> fs' !! path = fs !! path) /\
    (NoDup (map seg_path segs) ->
     forall batch_size', 0 < batch_size' ->
       generate_audio_batch W segs batch_size' retries fs = OK (fs', errors)).
Proof.
  intros Hb. rewrite generate_audio_batch_positive by exact Hb.
  destruct (fold_left (generate_one W retries) segs (fs, ∅)) as [fs' errors] eqn:Hrun.
  exists fs', errors. split; [reflexivity|]. split; [|split; [|split]].
  - intros idx. pose proof (generate_one_dom W retries segs (fs, ∅) idx) as H.
    rewrite Hrun in H. simpl in H. rewrite H, lookup_empty.
    split; [intros [[? [=]] | Hin]; exact Hin | by right].
  - intros Hnd text path idx Hin.
    pose proof (generate_one_outcome W retries segs (fs, ∅) text path idx Hnd Hin) as H.
    by rewrite Hrun in H.
  - intros path Hnot.
    pose proof (generate_one_frame W retries segs (fs, ∅) path Hnot) as H.
    by rewrite Hrun in H.
  - intros _ b' Hb'. rewrite generate_audio_batch_positive by exact Hb'.
    by rewrite Hrun.
Qed.

(** X4, an instance: two segments, one per batch. *)
Lemma generate_audio_batch_results_witness :
  exists fs' errors,
    generate_audio_batch flaky_world
      [("Hello", "a.mp3", 0%nat); ("Hi", "b.mp3", 2%nat)] 1 1 ∅ = OK (fs', errors) /\
    (forall idx, is_Some (errors !! idx)
                 <-> idx ∈ map seg_index [("Hello", "a.mp3", 0%nat); ("Hi", "b.mp3", 2%nat)]).
Proof.
  destruct (generate_audio_batch_results flaky_world
              [("Hello", "a.mp3", 0%nat); ("Hi", "b.mp3", 2%nat)] 1 1 ∅ ltac:(lia))
    as (fs' & errors & Hrun & Hdom & _).
  exists fs', errors. split; [exact Hrun | exact Hdom].
Defined.

(** ** The counters *)

Lemma texts_to_generate_app W fs temp_dir resume l1 : forall i l2,
  texts_to_generate W fs temp_dir resume i (l1 ++ l2)
  = texts_to_generate W fs temp_dir resume i l1
    ++ texts_to_generate W fs temp_dir resume (i + length l1) l2.
Proof.
  induction l1 as [|s l1 IH]; intros i l2; simpl.
  - by rewrite Nat.add_0_r.
  - rewrite IH, <- app_assoc. do 3 f_equal. lia.
Qed.

Lemma spoken_cues_app (l1 l2 : list SubRipItem) :
  spoken_cues (l1 ++ l2) = (spoken_cues l1 + spoken_cues l2)%nat.
Proof. unfold spoken_cues. by rewrite filter_app, length_app. Qed.

Lemma spoken_cues_cons (sub : SubRipItem) (subs : list SubRipItem) :
  spoken_cues (sub :: subs)
  = ((if bool_decide (cue_text sub = EmptyString) then 0 else 1)
     + spoken_cues subs)%nat.
Proof.
  unfold spoken_cues. rewrite filter_cons.
  case_bool_decide; destruct (decide _); try done; reflexivity.
Qed.

(** One iteration of the first pass counts the cue once, unless the cue
    needs a generated clip. *)
Lemma first_pass_step_counts W temp_dir resume p i sub :
  let s := ps_stats p in
  let s' := ps_stats (first_pass_step W temp_dir resume p i sub) in
  stats_total s' = stats_total s /\
  stats_generated s' = stats_generated s /\
  stats_failed s' = stats_failed s /\
  stats_overlaps s' = stats_overlaps s /\
  stats_late_starts s' = stats_late_starts s /\
  (stats_resumed s' + stats_cached s'
   + (if needs_generation W (ps_files p) temp_dir resume i sub then 1 else 0)
   = stats_resumed s + stats_cached s
     + (if bool_decide (cue_text sub = EmptyString) then 0 else 1))%nat.
Proof.
  unfold first_pass_step, needs_generation.
  case_bool_decide as Htext; simpl; [repeat split; lia|].
  destruct (resume && _) eqn:Hres; simpl; [repeat split; lia|].
  destruct (exists_nonempty (ps_files p) (cache_path_of _ _ _)) eqn:Hc; simpl.
  - destruct (copy2_ok W FirstPass i); simpl; rewrite ?schedule_stats;
      repeat split; lia.
  - rewrite ?schedule_stats. repeat split; lia.
Qed.

(** What the first pass leaves in the counters. *)
Lemma first_pass_counts W fs temp_dir resume subs n :
  let s := ps_stats (first_pass W temp_dir resume 0 subs
                       (initial_prepare_state fs n)) in
  stats_total s = n /\
  stats_generated s = 0%nat /\
  stats_failed s = 0%nat /\
  stats_overlaps s = 0%nat /\
  stats_late_starts s = 0%nat /\
  (stats_resumed s + stats_cached s
   + length (texts_to_generate W fs temp_dir resume 0 subs)
   = spoken_cues subs)%nat.
Proof.
  induction subs as [|sub subs IH] using rev_ind.
  - simpl. repeat split; reflexivity.
  - rewrite first_pass_app. cbn [first_pass]. rewrite Nat.add_0_l.
    pose proof (first_pass_inv_final W fs temp_dir resume subs n) as Hinv.
    set (p := first_pass W temp_dir resume 0 subs _) in *.
    pose proof (first_pass_step_counts W temp_dir resume p (length subs) sub)
      as (Ht & Hg & Hf & Ho & Hl & Hsum).
    assert (Hneeds : needs_generation W (ps_files p) temp_dir resume (length subs) sub
                     = needs_generation W fs temp_dir resume (length subs) sub).
    { apply needs_generation_ext; apply (fpi_files _ _ _ _ _ _ Hinv); intros j Hj.
      - intros Heq%raw_audio_path_inj. lia.
      - intros Heq. symmetry in Heq. by apply raw_audio_path_not_cache in Heq. }
    rewrite Hneeds in Hsum.
    destruct IH as (IHt & IHg & IHf & IHo & IHl & IHsum).
    rewrite texts_to_generate_app, length_app, spoken_cues_app, spoken_cues_cons.
    cbn [texts_to_generate]. rewrite Nat.add_0_l, app_nil_r.
    unfold spoken_cues at 2. simpl.
    repeat split; try congruence.
    destruct (needs_generation W fs temp_dir resume (length subs) sub);
      simpl; simpl in Hsum; lia.
Qed.

(** Every scheduled segment is counted once, as generated or as failed. *)
Lemma after_generation_counts W temp_dir errors segs : forall acc,
  let s := acc.2 in
  let s' := (fold_left (after_generation_step W temp_dir errors) segs acc).2 in
  stats_total s' = stats_total s /\
  stats_resumed s' = stats_resumed s /\
  stats_cached s' = stats_cached s /\
  stats_overlaps s' = stats_overlaps s /\
  stats_late_starts s' = stats_late_starts s /\
  (stats_generated s' + stats_failed s'
   = stats_generated s + stats_failed s + length segs)%nat.
Proof.
  induction segs as [|[[t p] i] segs IH]; intros acc; cbv zeta;
    cbn [fold_left length].
  - repeat split; lia.
  - destruct (IH (after_generation_step W temp_dir errors acc (t, p, i)))
      as (Ht & Hr & Hc & Ho & Hl & Hsum).
    cbv zeta in *. rewrite Ht, Hr, Hc, Ho, Hl, Hsum. clear.
    unfold after_generation_step.
    destruct (errors !! i) as [[e|]|]; simpl; try (repeat split; lia).
    destruct (path_exists _ _); [destruct (copy2_ok _ _ _)|]; simpl;
      repeat split; lia.
Qed.

Lemma pre_gap_counts st start_sec st' :
  pre_gap st start_sec = OK st' ->
  prepared_counts (sync_stats st') = prepared_counts (sync_stats st) /\
  stats_late_starts (sync_stats st') = stats_late_starts (sync_stats st) /\
  (stats_overlaps (sync_stats st') <= stats_overlaps (sync_stats st) + 1)%nat.
Proof.
  unfold pre_gap. intros H. inv_bind. destruct (0 <? _)%float.
  - rewrite (append_silence_stats _ _ _ H). repeat split; lia.
  - destruct (_ <? _)%float; injection H as <-; simpl; repeat split; lia.
Qed.

Lemma cue_body_counts W fs temp_dir errs max_speed st i text end_sec span st' :
  cue_body W fs temp_dir errs max_speed st i text end_sec span = OK st' ->
  prepared_counts (sync_stats st') = prepared_counts (sync_stats st) /\
  stats_overlaps (sync_stats st') = stats_overlaps (sync_stats st) /\
  (stats_late_starts (sync_stats st')
   <= stats_late_starts (sync_stats st)
      + (if bool_decide (text = EmptyString) then 0 else 1))%nat.
Proof.
  unfold cue_body. intros H. case_bool_decide.
  - inv_bind. destruct (0 <? _)%float.
    + rewrite (append_silence_stats _ _ _ H). simpl. repeat split; lia.
    + injection H as <-. simpl. repeat split; lia.
  - destruct errs as [errors|]; [|discriminate].
    destruct (errors !! i) as [[e|]|].
    + rewrite (append_silence_stats _ _ _ H). repeat split; lia.
    + inv_bind. cbv zeta in H. inv_bind. subst st'. simpl.
      destruct (_ <? _)%float; simpl; repeat split; lia.
    + inv_bind. cbv zeta in H. inv_bind. subst st'. simpl.
      destruct (_ <? _)%float; simpl; repeat split; lia.
Qed.

Lemma sync_cues_counts W fs temp_dir errs max_speed subs : forall i st st',
  sync_cues W fs temp_dir errs max_speed i subs st = OK st' ->
  prepared_counts (sync_stats st') = prepared_counts (sync_stats st) /\
  (stats_overlaps (sync_stats st')
   <= stats_overlaps (sync_stats st) + length subs)%nat /\
  (stats_late_starts (sync_stats st')
   <= stats_late_starts (sync_stats st) + spoken_cues subs)%nat.
Proof.
  induction subs as [|sub subs IH]; intros i st st' H; simpl in H.
  - injection H as <-. unfold spoken_cues. simpl. repeat split; lia.
  - inv_bind. apply IH in H as (Hp & Ho & Hl).
    unfold sync_step in Hv. inv_bind.
    apply cue_body_counts in Hv as (Hp1 & Ho1 & Hl1).
    apply pre_gap_counts in Hv2 as (Hp2 & Hl2 & Ho2).
    rewrite spoken_cues_cons. simpl.
    split; [congruence|]. split; lia.
Qed.

(** The two ways the preparation completes: nothing was scheduled, or the
    batched generation returned. *)
Lemma prepare_clips_OK W fs temp_dir subs resume batch_size retries fs' stats errs :
  prepare_clips W fs temp_dir subs resume batch_size retries = OK (fs', stats, errs) ->
  let p0 := first_pass W temp_dir resume 0 subs
              (initial_prepare_state fs (length subs)) in
  (scheduled_segments W fs temp_dir resume subs = [] /\ errs = None /\
   stats = ps_stats p0 /\ fs' = propagate W temp_dir 0 subs (ps_files p0)) \/
  (scheduled_segments W fs temp_dir resume subs <> [] /\
   exists fs1 errors,
     generate_audio_batch W (segments_to_generate p0) batch_size retries (ps_files p0)
     = OK (fs1, errors) /\
     errs = Some errors /\
     stats = (fold_left (after_generation_step W temp_dir errors)
                (segments_to_generate p0) (fs1, ps_stats p0)).2 /\
     fs' = propagate W temp_dir 0 subs
             (fold_left (after_generation_step W temp_dir errors)
                (segments_to_generate p0) (fs1, ps_stats p0)).1).
Proof.
  intros H p0. unfold prepare_clips in H. unfold scheduled_segments.
  fold p0 in H |- *.
  destruct (segments_to_generate p0) as [|item segs] eqn:Hsegs.
  - left. simpl in H. injection H as <- <- <-. auto.
  - right. split; [discriminate|]. rewrite <- Hsegs in *. clear Hsegs item segs.
    inv_bind. destruct v as [[fs3 stats3] errs3], v0 as [fs1 errors].
    injection H as <- <- <-. exists fs1, errors. split; [exact Hv0|].
    destruct (fold_left _ (segments_to_generate p0) (fs1, ps_stats p0))
      as [fs2 stats2].
    by injection Hv as <- <- <-.
Qed.

(** X13: the counters of the summary.  In a run that completes,
    [total] is the number of cues; [generated + failed] is the number of
    scheduled segments; [resumed + cached] and the cues that need a
    generated clip add up to the cues with text; cues that share the text
    of a scheduled cue are not counted, so the scheduled segments are at
    most the cues that need a clip; [overlaps] is at most the number of
    cues and [late_starts] at most the number of cues with text. *)
Theorem summary_counters W fs temp_dir subs resume target max_speed batch_size
    retries st :
  srt_to_audio_numpy W fs temp_dir subs resume target max_speed batch_size retries
  = OK st ->
  let s := sync_stats st in
  let needing := texts_to_generate W fs temp_dir resume 0 subs in
  let scheduled := scheduled_segments W fs temp_dir resume subs in
  stats_total s = length subs /\
  (stats_generated s + stats_failed s = length scheduled)%nat /\
  (stats_resumed s + stats_cached s + length needing = spoken_cues subs)%nat /\
  (length scheduled <= length needing)%nat /\
  (stats_overlaps s <= length subs)%nat /\
  (stats_late_starts s <= spoken_cues subs)%nat.
Proof.
  unfold srt_to_audio_numpy. intros H.
  destruct (scheduled_segments_inv W fs temp_dir resume subs) as (p & Hinv & Hp).
  assert (Hle : (length (scheduled_segments W fs temp_dir resume subs)
                 <= length (texts_to_generate W fs temp_dir resume 0 subs))%nat).
  { rewrite Hp, <- (length_map seg_text). apply submseteq_length.
    apply NoDup_submseteq; [apply (fpi_nodup _ _ _ _ _ _ Hinv)|].
    intros text. by rewrite (scheduled_texts _ _ _ _ _ _ _ Hinv). }
  destruct subs as [|sub subs'] eqn:Hsubs.
  { injection H as <-. cbv. repeat split; lia. }
  rewrite <- Hsubs in *. clear Hsubs. inv_bind.
  destruct v as [[fs' stats'] errs]. inv_bind.
  cbv zeta. rewrite (final_padding_stats _ _ _ H).
  apply sync_cues_counts in Hv0 as (Hprep & Ho & Hl). simpl in Hprep, Ho, Hl.
  unfold prepared_counts in Hprep. injection Hprep as Ht Hg Hr Hc Hf.
  rewrite Ht, Hg, Hr, Hc, Hf. clear Ht Hg Hr Hc Hf.
  pose proof (first_pass_counts W fs temp_dir resume subs (length subs))
    as (Ft & Fg & Ff & Fo & Fl & Fsum).
  apply prepare_clips_OK in Hv
    as [(Hnone & _ & -> & _) | (Hsome & fs1 & errors & _ & _ & -> & _)].
  - rewrite Hnone in *. simpl in *. repeat split; lia.
  - pose proof (after_generation_counts W temp_dir errors
                  (segments_to_generate
                     (first_pass W temp_dir resume 0 subs
                        (initial_prepare_state fs (length subs))))
                  (fs1, ps_stats (first_pass W temp_dir resume 0 subs
                                    (initial_prepare_state fs (length subs)))))
      as (At & Ar & Ac & Ao & Al & Asum).
    cbv zeta in *. simpl in At, Ar, Ac, Ao, Al, Asum.
    fold (scheduled_segments W fs temp_dir resume subs) in *.
    repeat split; lia.
Qed.

(** X13, an instance: four cues, three with text, two scheduled. *)
Lemma summary_counters_witness :
  exists st,
    srt_to_audio_numpy demo_world ∅ "tmp" repeated_cues false 0 1.5 10 10 = OK st /\
    stats_total (sync_stats st) = length repeated_cues /\
    (stats_generated (sync_stats st) + stats_failed (sync_stats st)
     = length (scheduled_segments demo_world ∅ "tmp" false repeated_cues))%nat /\
    (stats_resumed (sync_stats st) + stats_cached (sync_stats st)
     + length (texts_to_generate demo_world ∅ "tmp" false 0 repeated_cues)
     = spoken_cues repeated_cues)%nat /\
    (length (scheduled_segments demo_world ∅ "tmp" false repeated_cues)
     <= length (texts_to_generate demo_world ∅ "tmp" false 0 repeated_cues))%nat /\
    (stats_overlaps (sync_stats st) <= length repeated_cues)%nat /\
    (stats_late_starts (sync_stats st) <= spoken_cues repeated_cues)%nat.
Proof.
  assert (Hsum :
    option_map fst
      (summary (srt_to_audio_numpy demo_world ∅ "tmp" repeated_cues false 0 1.5
                  10 10))
    <> None) by (vm_compute; discriminate).
  destruct (srt_to_audio_numpy demo_world ∅ "tmp" repeated_cues false 0 1.5 10 10)
    as [st|e] eqn:Hrun; [|by destruct Hsum].
  exists st. split; [reflexivity|].
  exact (summary_counters _ _ _ _ _ _ _ _ _ _ Hrun).
Defined.

(** ** A batch size out of range *)

Lemma after_generation_files_unbound W temp_dir segs : forall acc,
  (fold_left (after_generation_step W temp_dir ∅) segs acc).1 = acc.1.
Proof.
  induction segs as [|[[t p] i] segs IH]; intros acc; cbn [fold_left];
    [reflexivity|].
  rewrite IH. unfold after_generation_step. by rewrite lookup_empty.
Qed.

Lemma first_pass_keeps_cache W fs temp_dir resume subs n text :
  ps_files (first_pass W temp_dir resume 0 subs (initial_prepare_state fs n))
    !! cache_path_of W temp_dir text
  = fs !! cache_path_of W temp_dir text.
Proof.
  apply (fpi_files _ _ _ _ _ _ (first_pass_inv_final W fs temp_dir resume subs n)).
  intros j _ Heq. symmetry in Heq. by apply raw_audio_path_not_cache in Heq.
Qed.

Lemma propagate_keeps_cache W temp_dir subs k fs text :
  propagate W temp_dir k subs fs !! cache_path_of W temp_dir text
  = fs !! cache_path_of W temp_dir text.
Proof.
  apply propagate_lookup_ne. intros j _ Heq. symmetry in Heq.
  by apply raw_audio_path_not_cache in Heq.
Qed.

(** X5: a negative batch size.  When something is scheduled, the
    preparation completes with an empty [generation_errors]: no segment is
    generated, no cache file is written, and every scheduled segment is
    counted as failed. *)
Theorem negative_batch_size_generates_nothing W fs temp_dir subs resume
    batch_size retries :
  batch_size < 0 ->
  scheduled_segments W fs temp_dir resume subs <> [] ->
  exists fs' stats,
    prepare_clips W fs temp_dir subs resume batch_size retries
    = OK (fs', stats, Some ∅) /\
    stats_generated stats = 0%nat /\
    stats_failed stats = length (scheduled_segments W fs temp_dir resume subs) /\
    (forall text,
        fs' !! cache_path_of W temp_dir text = fs !! cache_path_of W temp_dir text).
Proof.
  intros Hb Hsched.
  destruct (prepare_clips W fs temp_dir subs resume batch_size retries)
    as [[[fs' stats] errs]|e] eqn:Hrun.
  - pose proof (first_pass_counts W fs temp_dir resume subs (length subs))
      as (_ & Fg & Ff & _).
    apply prepare_clips_OK in Hrun
      as [(Hnone & _) | (_ & fs1 & errors & Hgen & -> & -> & ->)]; [done|].
    unfold generate_audio_batch in Hgen.
    destruct (Z.eqb_spec batch_size 0); [lia|].
    destruct (Z.ltb_spec batch_size 0); [|lia].
    injection Hgen as <- <-.
    eexists _, _. split; [reflexivity|].
    set (p0 := first_pass W temp_dir resume 0 subs _) in *.
    pose proof (after_generation_counts W temp_dir ∅ (segments_to_generate p0)
                  (ps_files p0, ps_stats p0)) as (_ & _ & _ & _ & _ & Asum).
    cbv zeta in Asum. simpl in Asum.
    assert (Hfailed : forall segs acc,
      stats_generated (fold_left (after_generation_step W temp_dir ∅) segs acc).2
      = stats_generated acc.2).
    { induction segs as [|[[t p] i] segs IH]; intros acc; cbn [fold_left];
        [reflexivity|].
      rewrite IH. unfold after_generation_step. by rewrite lookup_empty. }
    split; [by rewrite Hfailed|].
    split.
    + rewrite Hfailed in Asum. simpl in Asum.
      fold (scheduled_segments W fs temp_dir resume subs) in Asum.
      unfold scheduled_segments in *. fold p0. lia.
    + intros text. rewrite propagate_keeps_cache, after_generation_files_unbound.
      simpl. apply first_pass_keeps_cache.
  - exfalso. unfold prepare_clips in Hrun.
    set (p0 := first_pass W temp_dir resume 0 subs _) in *.
    destruct (segments_to_generate p0); [discriminate Hrun|].
    unfold generate_audio_batch in Hrun.
    destruct (Z.eqb_spec batch_size 0); [lia|].
    destruct (Z.ltb_spec batch_size 0); [|lia].
    simpl in Hrun.
    destruct (fold_left _ _ _) in Hrun. discriminate Hrun.
Qed.

(** X5, an instance: two scheduled segments, both counted as failed. *)
Lemma negative_batch_size_generates_nothing_witness :
  exists fs' stats,
    prepare_clips demo_world ∅ "tmp" repeated_cues false (-1) 10
    = OK (fs', stats, Some ∅) /\
    stats_generated stats = 0%nat /\
    stats_failed stats = 2%nat.
Proof.
  destruct (negative_batch_size_generates_nothing demo_world ∅ "tmp"
              repeated_cues false (-1) 10)
    as (fs' & stats & Hrun & Hg & Hf & _).
  - lia.
  - vm_compute. discriminate.
  - exists fs', stats. split; [exact Hrun|]. split; [exact Hg|].
    rewrite Hf. vm_compute. reflexivity.
Defined.

(** X6: a batch size of zero makes the run raise [ValueError] as soon as
    one segment is scheduled: [range] refuses a step of zero (line 241) and
    nothing catches it. *)
Theorem zero_batch_size_raises W fs temp_dir subs resume target max_speed retries :
  scheduled_segments W fs temp_dir resume subs <> [] ->
  srt_to_audio_numpy W fs temp_dir subs resume target max_speed 0 retries
  = Raise ValueError.
Proof.
  intros Hsched. unfold srt_to_audio_numpy.
  destruct subs as [|sub subs'] eqn:Hsubs; [by destruct Hsched|].
  rewrite <- Hsubs in *. clear Hsubs.
  unfold prepare_clips. unfold scheduled_segments in Hsched.
  set (p0 := first_pass W temp_dir resume 0 subs _) in *.
  destruct (segments_to_generate p0); [done|]. reflexivity.
Qed.

(** X6, an instance. *)
Lemma zero_batch_size_raises_witness :
  srt_to_audio_numpy demo_world ∅ "tmp" repeated_cues false 0 1.5 0 10
  = Raise ValueError.
Proof.
  apply zero_batch_size_raises. vm_compute. discriminate.
Defined.

(** ** Nothing to generate *)

Lemma sync_cues_unbound W fs temp_dir max_speed subs : forall i st st',
  sync_cues W fs temp_dir None max_speed i subs st = OK st' ->
  forall sub, sub ∈ subs -> cue_text sub = EmptyString.
Proof.
  induction subs as [|s subs IH]; intros i st st' H sub Hin;
    [by apply elem_of_nil in Hin|].
  simpl in H. inv_bind.
  apply elem_of_cons in Hin as [-> | Hin]; [|by eapply IH].
  unfold sync_step in Hv. inv_bind. unfold cue_body in Hv.
  case_bool_decide; [assumption | discriminate].
Qed.

(** X14: a run with nothing to generate.  When no segment is scheduled
    (every cue with text is resumed or served from the cache),
    [generation_errors] is never assigned (line 510) and line 596 reads it:
    if some cue has text, the run raises instead of completing. *)
Theorem run_without_generation_raises W fs temp_dir subs resume target max_speed
    batch_size retries sub :
  scheduled_segments W fs temp_dir resume subs = [] ->
  sub ∈ subs ->
  cue_text sub <> EmptyString ->
  exists e,
    srt_to_audio_numpy W fs temp_dir subs resume target max_speed batch_size retries
    = Raise e.
Proof.
  intros Hsched Hin Htext.
  destruct (srt_to_audio_numpy W fs temp_dir subs resume target max_speed
              batch_size retries) as [st|e] eqn:Hrun; [exfalso | by exists e].
  unfold srt_to_audio_numpy in Hrun.
  destruct subs as [|s subs'] eqn:Hsubs; [by apply elem_of_nil in Hin|].
  rewrite <- Hsubs in *. clear Hsubs. inv_bind.
  destruct v as [[fs' stats'] errs]. inv_bind.
  apply prepare_clips_OK in Hv as [(_ & -> & _) | (Hsome & _)]; [|done].
  apply Htext. eapply sync_cues_unbound; [exact Hv0 | exact Hin].
Qed.

(** X14, an instance: both clips resumed. *)
Lemma run_without_generation_raises_witness :
  exists e,
    srt_to_audio_numpy demo_world two_clips "tmp" overlapping_cues true 0 1.5 10 10
    = Raise e.
Proof.
  apply (run_without_generation_raises demo_world two_clips "tmp" overlapping_cues
           true 0 1.5 10 10 (cue 0 0 0 100 "Hello")).
  - vm_compute. reflexivity.
  - apply list_elem_of_here.
  - vm_compute. discriminate.
Defined.

(** ** A clip of no samples *)

(** X7: a clip that decodes to no samples.  For every desired length that
    is not at or below zero, [adjust_audio_length] raises
    [ZeroDivisionError]: the length of the clip is zero (for a sample rate of
    zero line 286 already divides by it), and line 294 divides by it outside
    any [try]. *)
Theorem adjust_audio_length_no_samples W fs wav_path d sr msf :
  librosa_load W fs wav_path sr = Some [] ->
  (d <=? 0)%float = false ->
  adjust_audio_length W fs wav_path d sr msf = Raise ZeroDivisionError.
Proof.
  intros Hload Hd. unfold adjust_audio_length. rewrite Hload.
  unfold py_int_truediv, len. simpl length.
  destruct sr as [|p|p]; [reflexivity | |];
    simpl; rewrite Hd; reflexivity.
Qed.

(** X7, an instance: an empty file that decodes to no samples. *)
Lemma adjust_audio_length_no_samples_witness :
  adjust_audio_length demo_world (one_clip 0) "clip.mp3" 0.05 24000 1.5
  = Raise ZeroDivisionError.
Proof.
  apply adjust_audio_length_no_samples; vm_compute; reflexivity.
Defined.

(** ** An infinite target *)

Lemma binary_round_number s m e : SF_number (binary_round prec emax s m e).
Proof.
  unfold binary_round. destruct (shl_align m e _) as [mz ez].
  pose proof (binary_round_aux_sign s (Zpos mz) ez loc_Exact ltac:(lia)) as H.
  destruct (binary_round_aux _ _ _ _ _ _); simpl; auto.
Qed.

(** The float of a number is a number. *)
Lemma SF2Prim_number q : SF_number q -> SF_number (Prim2SF (SF2Prim q)).
Proof.
  destruct q as [[|]|[|]| |s m e]; try (intros _; exact I); [intros []|].
  intros _. unfold SF2Prim.
  assert (H : SF_number (Prim2SF (Z.ldexp (of_uint63 (Uint63.of_Z (Zpos m))) e))).
  { rewrite Z_ldexp_spec, of_uint63_spec.
    destruct (Uint63.to_Z (Uint63.of_Z (Z.pos m))) as [|p|p]; simpl;
      [exact I | |].
    all: match goal with
         | |- context [binary_round prec emax ?s ?p' 0] =>
             pose proof (binary_round_number s p' 0) as Hr;
             destruct (binary_round prec emax s p' 0); simpl; try exact I;
             [contradiction | apply binary_round_number]
         end. }
  destruct s; [|exact H].
  rewrite opp_spec. destruct (Prim2SF _); simpl in *; auto.
Qed.

Lemma Prim2SF_infinity x s :
  Prim2SF x = S754_infinity s -> PrimFloat.is_infinity x = true.
Proof.
  unfold Prim2SF. destruct (is_nan x); [discriminate|].
  destruct (PrimFloat.is_zero x); [discriminate|].
  destruct (PrimFloat.is_infinity x); [reflexivity|].
  destruct (Z.frexp x) as [r ex].
  destruct (shr_fexp _ _ _ _ _) as [shr e'].
  destruct (shr_m shr); discriminate.
Qed.

(** The quotient of two ints is a number. *)
Lemma int_quotient_number a b :
  b <> 0 -> SF_number (SFdiv prec emax (SF_of_int a) (SF_of_int b)).
Proof.
  intros Hb.
  destruct a as [|pa|pa], b as [|pb|pb]; try done; simpl; try exact I.
  all: match goal with
       | |- context [SFdiv_core_binary prec emax (Zpos ?m1) ?e1 (Zpos ?m2) ?e2] =>
           pose proof (SFdiv_core_nonneg m1 e1 m2 e2) as Hq;
           destruct (SFdiv_core_binary prec emax (Zpos m1) e1 (Zpos m2) e2)
             as [[mz ez] lz]; simpl in Hq
       end.
  all: match goal with
       | Hq : 0 <= ?mz |- context [binary_round_aux prec emax ?s ?mz ?ez ?lz] =>
           pose proof (binary_round_aux_sign s mz ez lz Hq) as H;
           destruct (binary_round_aux prec emax s mz ez lz); simpl; auto
       end.
Qed.

(** The infinity less a finite number is the infinity. *)
Lemma infinity_minus_finite x :
  SF_number (Prim2SF x) -> PrimFloat.is_infinity x = false ->
  (infinity - x)%float = infinity.
Proof.
  intros Hnum Hinf.
  rewrite <- (SF2Prim_Prim2SF (infinity - x)), sub_spec.
  change (Prim2SF infinity) with (S754_infinity false).
  destruct (Prim2SF x) as [s|s| |s m e] eqn:Hx; simpl in Hnum; try contradiction;
    try reflexivity.
  apply Prim2SF_infinity in Hx. congruence.
Qed.

Lemma final_padding_infinity st : final_padding infinity st = Raise OverflowError.
Proof.
  unfold final_padding.
  assert (H0 : (0 <? infinity)%float = true) by reflexivity. rewrite H0.
  unfold py_int_truediv. simpl (SAMPLE_RATE =? 0).
  pose proof (int_quotient_number (current_total_samples st) SAMPLE_RATE
                ltac:(discriminate)) as Hq.
  set (q := SFdiv prec emax (SF_of_int (current_total_samples st))
              (SF_of_int SAMPLE_RATE)) in *.
  destruct (PrimFloat.is_infinity (SF2Prim q)) eqn:Hinf; [reflexivity|].
  simpl. rewrite infinity_minus_finite;
    [reflexivity | by apply SF2Prim_number | exact Hinf].
Qed.

(** X16: an infinite target duration.  A run over at least one cue that
    completes for some target raises [OverflowError] for the target
    [infinity]: the missing duration is infinite and line 632 converts it to
    an integer. *)
Theorem infinite_target_raises W fs temp_dir subs resume target max_speed
    batch_size retries st :
  subs <> [] ->
  srt_to_audio_numpy W fs temp_dir subs resume target max_speed batch_size retries
  = OK st ->
  srt_to_audio_numpy W fs temp_dir subs resume infinity max_speed batch_size retries
  = Raise OverflowError.
Proof.
  intros Hsubs. unfold srt_to_audio_numpy.
  destruct subs as [|sub subs'] eqn:Heq; [done|].
  rewrite <- Heq in *. clear Heq. intros H. inv_bind.
  rewrite Hv. destruct v as [[fs' stats'] errs]. inv_bind.
  cbn [mbind result_bind]. rewrite Hv0. apply final_padding_infinity.
Qed.

(** X16, an instance: the end-to-end scenario. *)
Lemma infinite_target_raises_witness :
  srt_to_audio_numpy demo_world ∅ "tmp" scenario_cues false infinity 1.5 10 10
  = Raise OverflowError.
Proof.
  assert (Hsum :
    option_map fst
      (summary (srt_to_audio_numpy demo_world ∅ "tmp" scenario_cues false 0 1.5
                  10 10))
    <> None) by (vm_compute; discriminate).
  destruct (srt_to_audio_numpy demo_world ∅ "tmp" scenario_cues false 0 1.5 10 10)
    as [st|e] eqn:Hrun; [|by destruct Hsum].
  apply (infinite_target_raises demo_world ∅ "tmp" scenario_cues false 0 1.5 10 10 st);
    [discriminate | exact Hrun].
Defined.

(** ** Texts that differ in letter case *)

Lemma scheduled_entry W fs temp_dir resume subs i sub :
  subs !! i = Some sub ->
  needs_generation W fs temp_dir resume i sub = true ->
  exists i' sub',
    (cue_text sub, cache_path_of W temp_dir (cue_text sub), i')
      ∈ scheduled_segments W fs temp_dir resume subs /\
    subs !! i' = Some sub' /\ cue_text sub' = cue_text sub.
Proof.
  intros Hi Hn.
  destruct (scheduled_segments_inv W fs temp_dir resume subs) as (p & Hinv & ->).
  pose proof (fpi_cover _ _ _ _ _ _ Hinv i sub Hi Hn) as Hin.
  apply list_elem_of_fmap in Hin as ([[t path] i'] & Ht & Hin).
  unfold seg_text in Ht. simpl in Ht. subst t.
  pose proof Hin as Hfirst.
  apply (fpi_sched _ _ _ _ _ _ Hinv) in Hfirst as (sub' & Hi' & Ht' & -> & _).
  by exists i', sub'.
Qed.

(** X9: texts that differ only in letter case.  Two cues that need a
    generated clip and whose texts are different but equal once lowercased
    are both scheduled, at different indices, with one and the same cache
    path: the schedule is keyed by the text (lines 490 and 495), the cache
    file by the hash of the lowercased text (line 477). *)
Theorem letter_case_shares_cache_file W fs temp_dir resume subs i j si sj :
  subs !! i = Some si ->
  subs !! j = Some sj ->
  needs_generation W fs temp_dir resume i si = true ->
  needs_generation W fs temp_dir resume j sj = true ->
  cue_text si <> cue_text sj ->
  str_lower (cue_text si) = str_lower (cue_text sj) ->
  exists path i' j',
    i' <> j' /\
    (cue_text si, path, i') ∈ scheduled_segments W fs temp_dir resume subs /\
    (cue_text sj, path, j') ∈ scheduled_segments W fs temp_dir resume subs.
Proof.
  intros Hi Hj Hni Hnj Hne Hlow.
  destruct (scheduled_entry W fs temp_dir resume subs i si Hi Hni)
    as (i' & si' & Hini & Hi' & Hti).
  destruct (scheduled_entry W fs temp_dir resume subs j sj Hj Hnj)
    as (j' & sj' & Hinj & Hj' & Htj).
  exists (cache_path_of W temp_dir (cue_text si)), i', j'.
  split; [|split; [exact Hini|]].
  - intros ->. congruence.
  - unfold cache_path_of in *. by rewrite Hlow.
Qed.

(** X9, an instance: [Hello] and [hello]. *)
Lemma letter_case_shares_cache_file_witness :
  exists path i' j',
    i' <> j' /\
    (cue_text (cue 0 0 1 0 "Hello"), path, i')
      ∈ scheduled_segments demo_world ∅ "tmp" false
          [cue 0 0 1 0 "Hello"; cue 1 0 2 0 "hello"] /\
    (cue_text (cue 1 0 2 0 "hello"), path, j')
      ∈ scheduled_segments demo_world ∅ "tmp" false
          [cue 0 0 1 0 "Hello"; cue 1 0 2 0 "hello"].
Proof.
  apply (letter_case_shares_cache_file demo_world ∅ "tmp" false
           [cue 0 0 1 0 "Hello"; cue 1 0 2 0 "hello"] 0 1);
    try reflexivity.
  vm_compute. discriminate.
Defined.

(** ** What the preparation writes *)

Lemma after_generation_frame W temp_dir errors segs : forall acc path,
  (forall idx, idx ∈ map seg_index segs -> path <> raw_audio_path temp_dir idx) ->
  (fold_left (after_generation_step W temp_dir errors) segs acc).1 !! path
  = acc.1 !! path.
Proof.
  induction segs as [|[[t p] i] segs IH]; intros acc path Hpath; cbn [fold_left];
    [reflexivity|].
  rewrite IH by (intros idx Hin; apply Hpath; by right).
  unfold after_generation_step.
  destruct (errors !! i) as [[e|]|]; try reflexivity.
  destruct (path_exists _ _); [destruct (copy2_ok _ _ _)|]; try reflexivity.
  simpl. apply copy_file_lookup_ne, Hpath. by left.
Qed.

Lemma generate_audio_batch_frame W segs batch_size retries fs fs1 errors path :
  generate_audio_batch W segs batch_size retries fs = OK (fs1, errors) ->
  path ∉ map seg_path segs ->
  fs1 !! path = fs !! path.
Proof.
  intros Hgen Hnot.
  destruct (Z.ltb_spec 0 batch_size) as [Hb|Hb].
  - rewrite generate_audio_batch_positive in Hgen by exact Hb.
    pose proof (generate_one_frame W retries segs (fs, ∅) path Hnot) as H.
    injection Hgen as Hgen. by rewrite Hgen in H.
  - unfold generate_audio_batch in Hgen.
    destruct (Z.eqb_spec batch_size 0); [discriminate|].
    destruct (Z.ltb_spec batch_size 0); [|lia]. by injection Hgen as <- <-.
Qed.

Lemma scheduled_shape W fs temp_dir resume subs text path idx :
  (text, path, idx) ∈ scheduled_segments W fs temp_dir resume subs ->
  exists sub,
    subs !! idx = Some sub /\ cue_text sub = text /\
    path = cache_path_of W temp_dir text /\
    needs_generation W fs temp_dir resume idx sub = true.
Proof.
  destruct (scheduled_segments_inv W fs temp_dir resume subs) as (p & Hinv & ->).
  intros Hin. apply (fpi_sched _ _ _ _ _ _ Hinv) in Hin as (sub & H1 & H2 & H3 & H4 & _).
  by exists sub.
Qed.

(** The preparation writes clips and scheduled cache files, nothing else. *)
Lemma prepare_clips_lookup_ne W fs temp_dir subs resume batch_size retries fs' stats
    errs path :
  prepare_clips W fs temp_dir subs resume batch_size retries = OK (fs', stats, errs) ->
  (forall i, (i < length subs)%nat -> path <> raw_audio_path temp_dir i) ->
  (forall text, text ∈ texts_to_generate W fs temp_dir resume 0 subs ->
                path <> cache_path_of W temp_dir text) ->
  fs' !! path = fs !! path.
Proof.
  intros Hrun Hraw Hcache.
  pose proof (first_pass_inv_final W fs temp_dir resume subs (length subs)) as Hinv.
  pose proof (fpi_files _ _ _ _ _ _ Hinv path Hraw) as Hfirst.
  apply prepare_clips_OK in Hrun
    as [(_ & _ & _ & ->) | (_ & fs1 & errors & Hgen & _ & _ & ->)].
  - rewrite propagate_lookup_ne; [exact Hfirst|].
    intros j Hj. apply Hraw. lia.
  - rewrite propagate_lookup_ne by (intros j Hj; apply Hraw; lia).
    fold (scheduled_segments W fs temp_dir resume subs) in *.
    rewrite after_generation_frame.
    + simpl. rewrite <- Hfirst.
      eapply generate_audio_batch_frame; [exact Hgen|].
      intros ([[t q] i] & Hq & Hin)%list_elem_of_fmap.
      unfold seg_path in Hq. simpl in Hq. subst q.
      apply scheduled_shape in Hin as (sub & Hi & Ht & Hp & Hn).
      apply (Hcache t); [|exact Hp].
      apply elem_of_texts_to_generate. by exists i, sub.
    + intros idx ([[t q] i] & Hq & Hin)%list_elem_of_fmap.
      unfold seg_index in Hq. simpl in Hq. subst idx.
      apply scheduled_shape in Hin as (sub & Hi & _).
      apply Hraw. by apply lookup_lt_Some in Hi.
Qed.

Lemma prepare_clips_outside W fs temp_dir subs resume batch_size retries fs' stats
    errs path :
  prepare_clips W fs temp_dir subs resume batch_size retries = OK (fs', stats, errs) ->
  String.prefix (dir_prefix temp_dir) path = false ->
  fs' !! path = fs !! path.
Proof.
  intros Hrun Hout. eapply prepare_clips_lookup_ne; [exact Hrun | |].
  - intros i _ ->. by rewrite raw_audio_path_under in Hout.
  - intros text _ ->. by rewrite cache_path_under in Hout.
Qed.

(** X12: what the preparation writes.  When the preparation of a run
    completes, every file that is neither the clip of a cue, nor the cache
    file of a text that needs a generated clip, nor the log file is as it
    was; in particular every file outside the temporary directory other
    than the log file.  A log file that is no temporary file holds what it
    held, followed by the records of the preparation. *)
Theorem prepare_clips_frame H W log_file fs temp_dir subs resume batch_size retries
    fs' r :
  prepare_clips_fs H W log_file fs temp_dir subs resume batch_size retries
  = (fs', OK r) ->
  (forall path,
      (forall i, (i < length subs)%nat -> path <> raw_audio_path temp_dir i) ->
      (forall text, text ∈ texts_to_generate W fs temp_dir resume 0 subs ->
                    path <> cache_path_of W temp_dir text) ->
      log_file <> Some path ->
      fs' !! path = fs !! path) /\
  (forall path,
      String.prefix (dir_prefix temp_dir) path = false ->
      log_file <> Some path ->
      fs' !! path = fs !! path) /\
  (forall p,
      log_file = Some p -> p <> EmptyString ->
      String.prefix (dir_prefix temp_dir) p = false ->
      fs' !! p = Some (default [] (fs !! p) ++ log_records H LogPreparation)).
Proof.
  unfold prepare_clips_fs. intros Hrun.
  destruct (prepare_clips W fs temp_dir subs resume batch_size retries)
    as [[[fs_p stats] errs]|e] eqn:Hprep; [|discriminate Hrun].
  injection Hrun as <- _.
  split; [|split].
  - intros path Hraw Hcache Hlog. rewrite log_write_lookup_ne by exact Hlog.
    by apply (prepare_clips_lookup_ne _ _ _ _ _ _ _ _ _ _ _ Hprep).
  - intros path Hout Hlog. rewrite log_write_lookup_ne by exact Hlog.
    by apply (prepare_clips_outside _ _ _ _ _ _ _ _ _ _ _ Hprep).
  - intros p Hp Hne Hout. rewrite (log_write_lookup _ _ _ _ p Hp Hne).
    by rewrite (prepare_clips_outside _ _ _ _ _ _ _ _ _ _ _ Hprep Hout).
Qed.

(** X12, an instance: the subtitle file and the log file next to the
    temporary directory. *)
Lemma prepare_clips_frame_witness :
  exists fs' r,
    prepare_clips_fs demo_host demo_world (Some "dub.log")
      {[ "film.srt" := [Byte.x31] ]} "tmp" repeated_cues false 10 10
    = (fs', OK r) /\
    fs' !! "film.srt" = Some [Byte.x31] /\
    fs' !! "dub.log" = Some [Byte.x0a].
Proof.
  assert (Hok :
    (if (prepare_clips_fs demo_host demo_world (Some "dub.log")
           {[ "film.srt" := [Byte.x31] ]} "tmp" repeated_cues false 10 10).2
     is OK _ then true else false) = true)
    by (vm_compute; reflexivity).
  destruct (prepare_clips_fs demo_host demo_world (Some "dub.log")
              {[ "film.srt" := [Byte.x31] ]} "tmp" repeated_cues false 10 10)
    as [fs' [r|e]] eqn:Hrun; [|discriminate Hok].
  exists fs', r. split; [reflexivity|].
  destruct (prepare_clips_frame _ _ _ _ _ _ _ _ _ _ _ Hrun) as (_ & Hout & Hlog).
  split.
  - rewrite (Hout "film.srt"); [reflexivity | reflexivity | discriminate].
  - rewrite (Hlog "dub.log"); [reflexivity | reflexivity | discriminate
                               | reflexivity].
Defined.

(** ** Clips that are already there *)

Lemma propagate_step_keeps_existing W temp_dir fs i sub path :
  exists_nonempty fs path = true ->
  propagate_step W temp_dir fs i sub !! path = fs !! path.
Proof.
  intros Hex. destruct (decide (path = raw_audio_path temp_dir i)) as [->|Hne];
    [|by apply propagate_step_lookup_ne].
  unfold propagate_step. case_bool_decide; [reflexivity|]. by rewrite Hex.
Qed.

(** The propagation leaves a file that is not empty as it is. *)
Lemma propagate_keeps_existing W temp_dir subs : forall k fs path,
  exists_nonempty fs path = true ->
  propagate W temp_dir k subs fs !! path = fs !! path.
Proof.
  induction subs as [|s subs IH]; intros k fs path Hex; simpl; [reflexivity|].
  pose proof (propagate_step_keeps_existing W temp_dir fs k s path Hex) as Hstep.
  rewrite IH; [exact Hstep|].
  by rewrite (exists_nonempty_ext _ _ _ Hstep).
Qed.

Lemma first_pass_keeps_resumed W fs temp_dir subs n : forall i sub,
  subs !! i = Some sub ->
  exists_nonempty fs (raw_audio_path temp_dir i) = true ->
  ps_files (first_pass W temp_dir true 0 subs (initial_prepare_state fs n))
    !! raw_audio_path temp_dir i
  = fs !! raw_audio_path temp_dir i.
Proof.
  induction subs as [|s subs IH] using rev_ind; intros i sub Hi Hex; [done|].
  rewrite first_pass_app. cbn [first_pass]. rewrite Nat.add_0_l.
  pose proof (first_pass_inv_final W fs temp_dir true subs n) as Hinv.
  set (p := first_pass W temp_dir true 0 subs _) in *.
  pose proof (first_pass_step_shape W temp_dir true p (length subs) s) as (Hfs & _).
  apply lookup_snoc_Some in Hi as [[Hlt Hi] | [-> <-]].
  - rewrite Hfs by (intros Heq%raw_audio_path_inj; lia). by eapply IH.
  - assert (Hp : ps_files p !! raw_audio_path temp_dir (length subs)
                 = fs !! raw_audio_path temp_dir (length subs)).
    { apply (fpi_files _ _ _ _ _ _ Hinv). intros j Hj Heq%raw_audio_path_inj. lia. }
    rewrite <- Hp. unfold first_pass_step.
    case_bool_decide; [reflexivity|].
    rewrite (exists_nonempty_ext _ _ _ Hp), Hex. reflexivity.
Qed.

(** X11: resuming.  With [resume], a cue whose clip is there and not
    empty is not scheduled, and its clip is the same file, byte for byte,
    when the preparation completes. *)
Theorem resumed_clip_is_kept W fs temp_dir subs batch_size retries fs' stats errs
    i sub :
  prepare_clips W fs temp_dir subs true batch_size retries = OK (fs', stats, errs) ->
  subs !! i = Some sub ->
  exists_nonempty fs (raw_audio_path temp_dir i) = true ->
  fs' !! raw_audio_path temp_dir i = fs !! raw_audio_path temp_dir i /\
  forall text path, (text, path, i) ∉ scheduled_segments W fs temp_dir true subs.
Proof.
  intros Hrun Hi Hex.
  assert (Hnot : forall text path,
             (text, path, i) ∉ scheduled_segments W fs temp_dir true subs).
  { intros text path Hin.
    apply scheduled_shape in Hin as (sub' & Hi' & _ & _ & Hn).
    rewrite Hi in Hi'. injection Hi' as <-.
    unfold needs_generation in Hn. rewrite Hex in Hn. simpl in Hn.
    by rewrite andb_false_r in Hn. }
  split; [|exact Hnot].
  pose proof (first_pass_keeps_resumed W fs temp_dir subs (length subs) i sub Hi Hex)
    as Hfirst.
  apply prepare_clips_OK in Hrun
    as [(_ & _ & _ & ->) | (_ & fs1 & errors & Hgen & _ & _ & ->)].
  - rewrite propagate_keeps_existing; [exact Hfirst|].
    by rewrite (exists_nonempty_ext _ _ _ Hfirst).
  - fold (scheduled_segments W fs temp_dir true subs) in *.
    assert (Hafter :
      (fold_left (after_generation_step W temp_dir errors)
         (scheduled_segments W fs temp_dir true subs)
         (fs1, ps_stats (first_pass W temp_dir true 0 subs
                           (initial_prepare_state fs (length subs))))).1
        !! raw_audio_path temp_dir i
      = fs !! raw_audio_path temp_dir i).
    { rewrite after_generation_frame.
      - simpl. rewrite <- Hfirst.
        eapply generate_audio_batch_frame; [exact Hgen|].
        intros ([[t q] j] & Hq & Hin)%list_elem_of_fmap.
        unfold seg_path in Hq. simpl in Hq. subst q.
        apply scheduled_shape in Hin as (_ & _ & _ & Hp & _).
        by apply raw_audio_path_not_cache in Hp.
      - intros idx ([[t q] j] & Hq & Hin)%list_elem_of_fmap Heq.
        unfold seg_index in Hq. simpl in Hq. subst idx.
        apply raw_audio_path_inj in Heq as <-. by apply Hnot in Hin. }
    rewrite propagate_keeps_existing; [exact Hafter|].
    by rewrite (exists_nonempty_ext _ _ _ Hafter).
Qed.

(** X11, an instance: the second of two clips that are there. *)
Lemma resumed_clip_is_kept_witness :
  exists fs' stats errs,
    prepare_clips demo_world two_clips "tmp"
      [cue 0 0 0 100 "Hello"; cue 0 50 0 200 "Hi"; cue 1 0 2 0 "Bye"]
      true 10 10 = OK (fs', stats, errs) /\
    fs' !! raw_audio_path "tmp" 1 = two_clips !! raw_audio_path "tmp" 1.
Proof.
  assert (Hok :
    (if prepare_clips demo_world two_clips "tmp"
          [cue 0 0 0 100 "Hello"; cue 0 50 0 200 "Hi"; cue 1 0 2 0 "Bye"]
          true 10 10 is OK _ then true else false) = true)
    by (vm_compute; reflexivity).
  destruct (prepare_clips demo_world two_clips "tmp"
              [cue 0 0 0 100 "Hello"; cue 0 50 0 200 "Hi"; cue 1 0 2 0 "Bye"]
              true 10 10) as [[[fs' stats] errs]|e] eqn:Hrun;
    [|discriminate Hok].
  exists fs', stats, errs. split; [reflexivity|].
  apply (resumed_clip_is_kept _ _ _ _ _ _ _ _ _ 1%nat (cue 0 50 0 200 "Hi") Hrun);
    reflexivity.
Defined.

(** ** [str.replace] and the name of the stretched file *)

Lemma str_replace_go_skip old new : forall u s,
  str_replace_go old new (String.length u) (u +:+ s) = str_replace_go old new 0 s.
Proof.
  induction u as [|c u IH]; intros s; [reflexivity|].
  rewrite string_app_cons. simpl. apply IH.
Qed.

(** A match at the head is replaced, and the scan goes on after it. *)
Lemma str_replace_go_match c r new s :
  str_replace_go (String c r) new 0 (String c r +:+ s)
  = new +:+ str_replace_go (String c r) new 0 s.
Proof.
  rewrite string_app_cons. cbn [str_replace_go].
  rewrite <- string_app_cons, string_prefix_app.
  f_equal. cbn [String.length Nat.pred]. apply str_replace_go_skip.
Qed.

Lemma str_replace_go_no_match old new c s :
  String.prefix old (String c s) = false ->
  str_replace_go old new 0 (String c s) = String c (str_replace_go old new 0 s).
Proof. intros Hp. cbn [str_replace_go]. by rewrite Hp. Qed.

Lemma string_prefix_split (a s : string) :
  String.prefix a s = true -> exists t, s = a +:+ t.
Proof.
  revert s. induction a as [|c a IH]; intros s Hp; [by exists s|].
  destruct s as [|c' s]; [discriminate|]. simpl in Hp.
  destruct (Ascii.ascii_dec c c') as [<-|]; [|discriminate].
  destruct (IH s Hp) as [t ->]. by exists t.
Qed.

(** Two ways to cut one string. *)
Lemma string_app_cut (a b c d : string) :
  a +:+ b = c +:+ d ->
  (String.length c <= String.length a)%nat ->
  exists e, a = c +:+ e /\ d = e +:+ b.
Proof.
  revert a. induction c as [|x c IH]; intros a Heq Hlen.
  - exists a. by rewrite !string_app_nil_l in *.
  - destruct a as [|y a]; [simpl in Hlen; lia|].
    rewrite !string_app_cons in Heq. injection Heq as -> Heq.
    simpl in Hlen. destruct (IH a Heq ltac:(lia)) as (e & -> & ->).
    by exists e.
Qed.

Lemma get_app_l (a b : string) (n : nat) :
  (n < String.length a)%nat -> String.get n (a +:+ b) = String.get n a.
Proof.
  revert n. induction a as [|c a IH]; intros n Hn; [simpl in Hn; lia|].
  rewrite string_app_cons. destruct n as [|n]; [reflexivity|].
  simpl. apply IH. simpl in Hn. lia.
Qed.

Lemma get_app_r (a b : string) (n : nat) :
  String.get (String.length a + n) (a +:+ b) = String.get n b.
Proof.
  induction a as [|c a IH]; [reflexivity|].
  rewrite string_app_cons. simpl. exact IH.
Qed.

(** When [old] is border free, a string that ends with [old] is replaced
    into a string that ends with [new]. *)
Lemma str_replace_go_suffix old new :
  border_free old ->
  forall n X, (String.length X <= n)%nat ->
    exists Y, str_replace_go old new 0 (X +:+ old) = Y +:+ new.
Proof.
  destruct old as [|c r]; [done|]. intros Hfree.
  induction n as [|n IH]; intros X Hlen.
  - destruct X; [|simpl in Hlen; lia]. rewrite string_app_nil_l.
    pose proof (str_replace_go_match c r new "") as Hm.
    rewrite (string_app_nil_r (String c r)) in Hm. rewrite Hm.
    exists "". simpl. by rewrite string_app_nil_r.
  - destruct X as [|x X].
    { apply (IH ""). simpl. lia. }
    destruct (String.prefix (String c r) (String x X +:+ String c r)) eqn:Hp.
    + apply string_prefix_split in Hp as [t Ht].
      destruct (le_lt_dec (String.length (String c r)) (String.length (String x X)))
        as [Hle|Hlt].
      * destruct (string_app_cut _ _ _ _ Ht Hle) as (e & He & ->).
        rewrite He, string_app_assoc, str_replace_go_match.
        destruct (IH e) as [Y HY].
        { apply (f_equal String.length) in He. rewrite string_app_length in He.
          simpl in He, Hlen. lia. }
        exists (new +:+ Y). by rewrite HY, string_app_assoc.
      * exfalso.
        pose proof (get_app_r (String x X) (String c r) 0) as Hr.
        rewrite Nat.add_0_r, Ht, get_app_l in Hr by exact Hlt.
        simpl in Hr. by apply Hfree in Hr.
    + rewrite string_app_cons in *. rewrite str_replace_go_no_match by exact Hp.
      destruct (IH X) as [Y HY]; [simpl in Hlen; lia|].
      exists (String x Y). by rewrite HY.
Qed.

Lemma str_replace_suffix old new X :
  border_free old -> exists Y, str_replace old new (X +:+ old) = Y +:+ new.
Proof.
  intros Hfree. unfold str_replace. destruct old as [|c r] eqn:Hold; [done|].
  rewrite <- Hold in *. eapply str_replace_go_suffix; [exact Hfree | reflexivity].
Qed.

(** The name of the stretched file ends with [_stretched.wav]. *)
Lemma output_tmp_path_suffix (X : string) :
  exists Z, output_tmp_path (X +:+ ".mp3") = Z +:+ "_stretched.wav".
Proof.
  unfold output_tmp_path.
  destruct (str_replace_suffix ".mp3" "_stretched.wav" X) as [Y ->].
  { intros [|[|[|[|n]]]]; discriminate. }
  change "_stretched.wav" with ("_stretched" +:+ ".wav") at 2.
  rewrite <- string_app_assoc.
  apply str_replace_suffix. intros [|[|[|[|n]]]]; discriminate.
Qed.

Lemma string_app_last (a b : string) (x y : ascii) :
  a +:+ String x "" = b +:+ String y "" -> x = y.
Proof.
  revert b. induction a as [|c a IH]; intros [|d b] Heq;
    rewrite ?string_app_nil_l, ?string_app_cons in Heq.
  - by injection Heq.
  - injection Heq as _ Heq. apply (f_equal String.length) in Heq.
    rewrite string_app_length in Heq. simpl in Heq. lia.
  - injection Heq as _ Heq. apply (f_equal String.length) in Heq.
    rewrite string_app_length in Heq. simpl in Heq. lia.
  - injection Heq as _ Heq. by eapply IH.
Qed.

Lemma output_tmp_path_not_mp3 (X Y : string) :
  output_tmp_path (X +:+ ".mp3") <> Y +:+ ".mp3".
Proof.
  destruct (output_tmp_path_suffix X) as [Z ->]. intros Heq.
  change "_stretched.wav" with ("_stretched.wa" +:+ "v") in Heq.
  change ".mp3" with (".mp" +:+ "3") in Heq.
  rewrite <- !string_app_assoc in Heq. by apply string_app_last in Heq.
Qed.

Lemma raw_audio_path_mp3 (temp_dir : string) (i : nat) :
  exists X, raw_audio_path temp_dir i = X +:+ ".mp3".
Proof.
  exists (dir_prefix temp_dir +:+ "raw_" +:+ pretty i).
  unfold raw_audio_path, os_path_join. by rewrite !string_app_assoc.
Qed.

Lemma cache_path_mp3 (W : world) (temp_dir text : string) :
  exists X, cache_path_of W temp_dir text = X +:+ ".mp3".
Proof.
  eexists. unfold cache_path_of, os_path_join.
  rewrite <- !string_app_assoc. reflexivity.
Qed.

(** The stretched file of a clip is no clip and no cache file. *)
Lemma output_tmp_path_fresh (W : world) (temp_dir : string) (i : nat) :
  (forall j, output_tmp_path (raw_audio_path temp_dir i) <> raw_audio_path temp_dir j) /\
  (forall text,
      output_tmp_path (raw_audio_path temp_dir i) <> cache_path_of W temp_dir text).
Proof.
  destruct (raw_audio_path_mp3 temp_dir i) as [X ->]. split.
  - intros j. destruct (raw_audio_path_mp3 temp_dir j) as [Y ->].
    apply output_tmp_path_not_mp3.
  - intros text. destruct (cache_path_mp3 W temp_dir text) as [Y ->].
    apply output_tmp_path_not_mp3.
Qed.

(** ** The fitter and its files *)

Lemma stretch_and_fit_ext W fs fs' input output ratio d sr :
  fs !! input = fs' !! input ->
  stretch_and_fit W fs input output ratio d sr
  = stretch_and_fit W fs' input output ratio d sr.
Proof.
  intros Heq. unfold stretch_and_fit, stretch_audio. rewrite <- Heq.
  destruct (fs !! input) as [b|]; [|reflexivity].
  destruct (stretch W b ratio sr) as [b'|]; [|reflexivity].
  unfold librosa_load. by rewrite !lookup_insert_eq.
Qed.

(** The fitter reads the clip and nothing else. *)
Lemma adjust_audio_length_ext W fs fs' wav_path d sr msf :
  fs !! wav_path = fs' !! wav_path ->
  adjust_audio_length W fs wav_path d sr msf
  = adjust_audio_length W fs' wav_path d sr msf.
Proof.
  intros Heq. unfold adjust_audio_length, librosa_load. rewrite <- Heq.
  destruct (fs !! wav_path) as [b|] eqn:Hb; [|reflexivity].
  rewrite <- Hb in Heq.
  destruct (decode_audio W b sr) as [y|]; [|reflexivity].
  destruct (py_int_truediv (len y) sr) as [cur|e]; [|reflexivity]. simpl.
  destruct (d <=? 0)%float; [reflexivity|].
  destruct (stretch_ratio d cur msf) as [ratio|e]; [|reflexivity]. simpl.
  by rewrite (stretch_and_fit_ext W fs fs' _ _ _ _ _ Heq).
Qed.

Lemma adjust_audio_length_fs_value H W wav_path d sr msf fs :
  (adjust_audio_length_fs H W wav_path d sr msf fs).2
  = adjust_audio_length W fs wav_path d sr msf.
Proof.
  unfold adjust_audio_length_fs, adjust_audio_length.
  destruct (librosa_load W fs wav_path sr) as [y|]; [|reflexivity].
  destruct (py_int_truediv (len y) sr) as [cur|e]; [|reflexivity]. simpl.
  destruct (d <=? 0)%float; [reflexivity|].
  destruct (stretch_ratio d cur msf) as [ratio|e]; [|reflexivity]. simpl.
  by destruct (stretch_and_fit _ _ _ _ _ _ _).
Qed.

Lemma remove_if_exists_lookup_ne H p fs q :
  q <> p -> remove_if_exists H p fs !! q = fs !! q.
Proof.
  intros Hne. unfold remove_if_exists.
  destruct (path_exists fs p); [|reflexivity].
  destruct (os_remove_ok H p); [|reflexivity]. by rewrite lookup_delete_ne.
Qed.

Lemma remove_if_exists_gone H p fs :
  os_remove_ok H p = true -> remove_if_exists H p fs !! p = None.
Proof.
  intros Hok. unfold remove_if_exists, path_exists. rewrite Hok.
  case_bool_decide as Hex; [by rewrite lookup_delete_eq|].
  by apply eq_None_not_Some.
Qed.

Lemma stretch_audio_lookup_ne W fs input output ratio sr fs' q :
  stretch_audio W fs input output ratio sr = Some fs' ->
  q <> output -> fs' !! q = fs !! q.
Proof.
  unfold stretch_audio. destruct (fs !! input) as [b|]; [|discriminate].
  destruct (stretch W b ratio sr); [|discriminate].
  intros [= <-] Hne. by rewrite lookup_insert_ne.
Qed.

Lemma adjust_audio_length_fs_frame H W wav_path d sr msf fs q :
  q <> output_tmp_path wav_path ->
  (adjust_audio_length_fs H W wav_path d sr msf fs).1 !! q = fs !! q.
Proof.
  intros Hne. unfold adjust_audio_length_fs.
  destruct (librosa_load W fs wav_path sr) as [y|]; [|reflexivity].
  destruct (py_int_truediv (len y) sr) as [cur|e]; [|reflexivity].
  destruct (d <=? 0)%float; [reflexivity|].
  destruct (stretch_ratio d cur msf) as [ratio|e]; [|reflexivity]. simpl.
  rewrite remove_if_exists_lookup_ne by exact Hne.
  destruct (stretch_audio W fs wav_path _ ratio sr) as [fs'|] eqn:Hs; [|reflexivity].
  by eapply stretch_audio_lookup_ne.
Qed.

(** X8: the files [adjust_audio_length] leaves.  The call returns what
    [adjust_audio_length] above returns; no file other than the stretched file
    [output_tmp] is touched; and once the ratio is computed, the stretched
    file does not exist after the call when [os.remove] succeeds, whether
    it was written by this call or was there before.  For a path that holds
    neither [.mp3] nor [.wav], [output_tmp] is the clip itself, which is then
    deleted. *)
Theorem adjust_audio_length_fs_files H W wav_path d sr msf fs :
  (adjust_audio_length_fs H W wav_path d sr msf fs).2
  = adjust_audio_length W fs wav_path d sr msf /\
  (forall q, q <> output_tmp_path wav_path ->
     (adjust_audio_length_fs H W wav_path d sr msf fs).1 !! q = fs !! q) /\
  (forall y current_length ratio,
      librosa_load W fs wav_path sr = Some y ->
      py_int_truediv (len y) sr = OK current_length ->
      (d <=? 0)%float = false ->
      stretch_ratio d current_length msf = OK ratio ->
      os_remove_ok H (output_tmp_path wav_path) = true ->
      (adjust_audio_length_fs H W wav_path d sr msf fs).1
        !! output_tmp_path wav_path = None /\
      (output_tmp_path wav_path = wav_path ->
       (adjust_audio_length_fs H W wav_path d sr msf fs).1 !! wav_path = None)).
Proof.
  split; [apply adjust_audio_length_fs_value|].
  split; [intros q; apply adjust_audio_length_fs_frame|].
  intros y cur ratio Hload Hcur Hd Hratio Hrm.
  assert (Hgone : (adjust_audio_length_fs H W wav_path d sr msf fs).1
                    !! output_tmp_path wav_path = None).
  { unfold adjust_audio_length_fs. rewrite Hload, Hcur, Hd, Hratio. simpl.
    by apply remove_if_exists_gone. }
  split; [exact Hgone|]. intros Heq. by rewrite Heq in Hgone.
Qed.

(** X8, an instance: a clip at a path without [.mp3] and [.wav] is
    deleted by the call. *)
Lemma adjust_audio_length_fs_files_witness :
  output_tmp_path "clip.flac" = "clip.flac" /\
  (adjust_audio_length_fs demo_host demo_world "clip.flac" 0.05 24000 1.5
     flac_clip).1 !! "clip.flac" = None.
Proof.
  split; [reflexivity|].
  eapply (proj2 (proj2 (adjust_audio_length_fs_files demo_host demo_world
                          "clip.flac" 0.05 24000 1.5 flac_clip)));
    reflexivity.
Defined.

(** ** The main loop and its files *)

Lemma cue_body_ext W fs fs' temp_dir errs max_speed st i text end_sec span :
  fs !! raw_audio_path temp_dir i = fs' !! raw_audio_path temp_dir i ->
  cue_body W fs temp_dir errs max_speed st i text end_sec span
  = cue_body W fs' temp_dir errs max_speed st i text end_sec span.
Proof.
  intros Heq. unfold cue_body. case_bool_decide; [reflexivity|].
  destruct errs as [errors|]; [|reflexivity].
  destruct (errors !! i) as [[e|]|]; try reflexivity;
    destruct (py_int_truediv _ _); simpl; try reflexivity;
    by rewrite (adjust_audio_length_ext W fs fs' _ _ _ _ Heq).
Qed.

Lemma cue_body_fs_value H W temp_dir errs max_speed st i text end_sec span fs :
  (cue_body_fs H W temp_dir errs max_speed st i text end_sec span fs).2
  = cue_body W fs temp_dir errs max_speed st i text end_sec span.
Proof.
  unfold cue_body_fs, cue_body. case_bool_decide; [reflexivity|].
  destruct errs as [errors|]; [|reflexivity].
  destruct (errors !! i) as [[e|]|]; try reflexivity;
    destruct (py_int_truediv _ _); simpl; try reflexivity.
  all: match goal with
       | |- context [adjust_audio_length_fs ?H ?W ?p ?d ?sr ?m ?fs] =>
           pose proof (adjust_audio_length_fs_value H W p d sr m fs) as Hv;
           destruct (adjust_audio_length_fs H W p d sr m fs) as [fs1 r];
           simpl in Hv; by rewrite Hv
       end.
Qed.

Lemma cue_body_fs_frame H W temp_dir errs max_speed st i text end_sec span fs q :
  q <> output_tmp_path (raw_audio_path temp_dir i) ->
  (cue_body_fs H W temp_dir errs max_speed st i text end_sec span fs).1 !! q
  = fs !! q.
Proof.
  intros Hne. unfold cue_body_fs. case_bool_decide; [reflexivity|].
  destruct errs as [errors|]; [|reflexivity].
  destruct (errors !! i) as [[e|]|]; try reflexivity;
    destruct (py_int_truediv _ _); simpl; try reflexivity.
  all: match goal with
       | |- context [adjust_audio_length_fs ?H ?W ?p ?d ?sr ?m ?fs] =>
           pose proof (adjust_audio_length_fs_frame H W p d sr m fs q Hne) as Hv;
           destruct (adjust_audio_length_fs H W p d sr m fs) as [fs1 r];
           exact Hv
       end.
Qed.

Lemma sync_step_fs_value H W log_file temp_dir errs max_speed st i sub fs :
  (sync_step_fs H W log_file temp_dir errs max_speed st i sub fs).2
  = sync_step W fs temp_dir errs max_speed st i sub.
Proof.
  unfold sync_step_fs, sync_step.
  destruct (time_str_to_seconds (sub_start sub)) as [s|e]; [|reflexivity].
  destruct (time_str_to_seconds (sub_end sub)) as [e'|e]; [|reflexivity].
  simpl. destruct (pre_gap st s) as [st1|e]; [|reflexivity]. simpl.
  rewrite <- cue_body_fs_value with (H := H).
  by destruct (cue_body_fs H W temp_dir errs max_speed st1 i (cue_text sub) e' _ fs).
Qed.

Lemma sync_step_fs_frame H W log_file temp_dir errs max_speed st i sub fs q :
  q <> output_tmp_path (raw_audio_path temp_dir i) ->
  log_file <> Some q ->
  (sync_step_fs H W log_file temp_dir errs max_speed st i sub fs).1 !! q = fs !! q.
Proof.
  intros Hne Hlog. unfold sync_step_fs.
  destruct (time_str_to_seconds (sub_start sub)) as [s|e];
    [|by apply log_write_lookup_ne].
  destruct (time_str_to_seconds (sub_end sub)) as [e'|e];
    [|by apply log_write_lookup_ne].
  simpl. destruct (pre_gap st s) as [st1|e]; [|by apply log_write_lookup_ne].
  simpl.
  pose proof (cue_body_fs_frame H W temp_dir errs max_speed st1 i (cue_text sub)
                e' (e' - s)%float fs q Hne) as Hbody.
  destruct (cue_body_fs H W temp_dir errs max_speed st1 i (cue_text sub) e' _ fs)
    as [fs1 r].
  simpl in *. by rewrite log_write_lookup_ne.
Qed.

Lemma sync_step_ext W fs fs' temp_dir errs max_speed st i sub :
  fs !! raw_audio_path temp_dir i = fs' !! raw_audio_path temp_dir i ->
  sync_step W fs temp_dir errs max_speed st i sub
  = sync_step W fs' temp_dir errs max_speed st i sub.
Proof.
  intros Heq. unfold sync_step.
  destruct (time_str_to_seconds (sub_start sub)) as [s|e]; [|reflexivity].
  destruct (time_str_to_seconds (sub_end sub)) as [e'|e]; [|reflexivity].
  simpl. destruct (pre_gap st s) as [st1|e]; [|reflexivity]. simpl.
  by apply cue_body_ext.
Qed.

Lemma sync_cues_fs_frame H W log_file temp_dir errs max_speed subs :
  forall i st fs q,
    (forall j, q <> output_tmp_path (raw_audio_path temp_dir j)) ->
    log_file <> Some q ->
    (sync_cues_fs H W log_file temp_dir errs max_speed i subs st fs).1 !! q
    = fs !! q.
Proof.
  induction subs as [|sub subs IH]; intros i st fs q Hq Hlog; [reflexivity|].
  cbn [sync_cues_fs].
  pose proof (sync_step_fs_frame H W log_file temp_dir errs max_speed st i sub fs q
                (Hq i) Hlog) as Hstep.
  destruct (sync_step_fs H W log_file temp_dir errs max_speed st i sub fs)
    as [fs1 [st1|e]]; simpl in Hstep; [|exact Hstep].
  by rewrite IH.
Qed.

(** The loop with the files computes what the loop over the files it
    started from computes. *)
Lemma sync_cues_fs_value H W log_file temp_dir errs max_speed subs :
  forall i st fs fs0,
    (forall j, log_file <> Some (raw_audio_path temp_dir j)) ->
    (forall j, fs !! raw_audio_path temp_dir j = fs0 !! raw_audio_path temp_dir j) ->
    (sync_cues_fs H W log_file temp_dir errs max_speed i subs st fs).2
    = sync_cues W fs0 temp_dir errs max_speed i subs st.
Proof.
  induction subs as [|sub subs IH]; intros i st fs fs0 Hlog Hagree; [reflexivity|].
  cbn [sync_cues_fs sync_cues].
  pose proof (sync_step_fs_value H W log_file temp_dir errs max_speed st i sub fs)
    as Hv.
  rewrite (sync_step_ext W fs fs0 _ _ _ _ _ _ (Hagree i)) in Hv.
  assert (Hf : forall j,
    (sync_step_fs H W log_file temp_dir errs max_speed st i sub fs).1
      !! raw_audio_path temp_dir j = fs !! raw_audio_path temp_dir j).
  { intros j. apply sync_step_fs_frame; [|apply Hlog]. intros Heq. symmetry in Heq.
    by apply (proj1 (output_tmp_path_fresh W temp_dir i)) in Heq. }
  destruct (sync_step_fs H W log_file temp_dir errs max_speed st i sub fs)
    as [fs1 r].
  simpl in Hv, Hf. subst r.
  destruct (sync_step W fs0 temp_dir errs max_speed st i sub) as [st1|e];
    [|reflexivity].
  simpl. apply IH; [exact Hlog|]. intros j. by rewrite Hf.
Qed.

(** X15: the main loop and the files.  With a log file that is no
    temporary file, the loop that threads the files through the fitter
    computes the buffer, the counter and the statistics that [sync_cues]
    computes, which gives every cue the files the loop started from; it
    touches no file other than stretched files and the log file; and every
    clip and every cache file is afterwards as it was, for every temporary
    directory. *)
Theorem sync_cues_fs_keeps_clips H W log_file temp_dir errs max_speed i subs st fs :
  log_apart log_file temp_dir ->
  (sync_cues_fs H W log_file temp_dir errs max_speed i subs st fs).2
  = sync_cues W fs temp_dir errs max_speed i subs st /\
  (forall q, (forall j, q <> output_tmp_path (raw_audio_path temp_dir j)) ->
     log_file <> Some q ->
     (sync_cues_fs H W log_file temp_dir errs max_speed i subs st fs).1 !! q
     = fs !! q) /\
  (forall j,
      (sync_cues_fs H W log_file temp_dir errs max_speed i subs st fs).1
        !! raw_audio_path temp_dir j = fs !! raw_audio_path temp_dir j) /\
  (forall text,
      (sync_cues_fs H W log_file temp_dir errs max_speed i subs st fs).1
        !! cache_path_of W temp_dir text = fs !! cache_path_of W temp_dir text).
Proof.
  intros Hlog.
  split; [apply sync_cues_fs_value; [intros j; by apply log_apart_raw | done]|].
  split; [intros q; apply sync_cues_fs_frame|].
  split.
  - intros j. apply sync_cues_fs_frame; [|by apply log_apart_raw].
    intros k Heq. symmetry in Heq.
    by apply (proj1 (output_tmp_path_fresh W temp_dir k)) in Heq.
  - intros text. apply sync_cues_fs_frame; [|by apply log_apart_cache].
    intros k Heq. symmetry in Heq.
    by apply (proj2 (output_tmp_path_fresh W temp_dir k)) in Heq.
Qed.

(** ** Export and cleanup *)

Lemma rmtree_lookup_under dir fs q : under dir q = true -> rmtree dir fs !! q = None.
Proof.
  intros Hu. unfold rmtree. apply map_lookup_filter_None. right.
  intros b _. simpl. congruence.
Qed.

Lemma rmtree_lookup_outside dir fs q :
  under dir q = false -> rmtree dir fs !! q = fs !! q.
Proof.
  intros Hu. unfold rmtree. destruct (fs !! q) as [b|] eqn:Hq.
  - apply map_lookup_filter_Some. by split.
  - apply map_lookup_filter_None. by left.
Qed.

Lemma cleanup_OK H log_file temp_dir keep_temp bound fs fs' :
  cleanup H log_file temp_dir keep_temp bound fs = (fs', None) ->
  (keep_temp = true /\ fs' = log_write H log_file LogCleanup fs) \/
  (keep_temp = false /\ bound = true /\
   fs' = log_write H log_file LogCleanup (rmtree temp_dir fs)).
Proof.
  unfold cleanup. destruct keep_temp; simpl.
  - intros [= <-]. by left.
  - destruct bound; [|discriminate].
    destruct (rmtree_ok H temp_dir); [|discriminate]. intros [= <-]. by right.
Qed.

(** Whether the cleanup succeeds does not depend on the files. *)
Lemma cleanup_outcome H H' log_file temp_dir keep_temp bound fs fs1 :
  rmtree_ok H' = rmtree_ok H ->
  (cleanup H' log_file temp_dir keep_temp bound fs1).2
  = (cleanup H log_file temp_dir keep_temp bound fs).2.
Proof.
  intros Heq. unfold cleanup. rewrite Heq.
  destruct keep_temp, bound; simpl; try reflexivity.
  by destruct (rmtree_ok H temp_dir).
Qed.

Lemma convert_audio_format_lookup_ne H input output format fs q :
  q <> output -> (convert_audio_format H input output format fs).1 !! q = fs !! q.
Proof.
  intros Hne. unfold convert_audio_format.
  destruct (fs !! input) as [b|]; [|reflexivity].
  destruct (run_ffmpeg H _ b); [|reflexivity]. simpl. by rewrite lookup_insert_ne.
Qed.

Lemma temp_wav_under temp_dir :
  under temp_dir (os_path_join temp_dir "final_output_temp.wav") = true.
Proof. apply string_prefix_app. Qed.

(** The export writes the output, the log file and, inside the temporary
    directory, the file it converts from. *)
Lemma export_audio_lookup_ne H log_file temp_dir output_path st fs q :
  q <> output_path -> under temp_dir q = false -> log_file <> Some q ->
  (export_audio H log_file temp_dir output_path st fs).1 !! q = fs !! q.
Proof.
  intros Hne Hout Hlog. unfold export_audio.
  assert (Htmp : q <> os_path_join temp_dir "final_output_temp.wav").
  { intros ->. by rewrite temp_wav_under in Hout. }
  destruct (_ || _).
  - destruct (sf_write H _ _ _) as [b|]; [|by apply log_write_lookup_ne].
    pose proof (convert_audio_format_lookup_ne H
                  (os_path_join temp_dir "final_output_temp.wav") output_path
                  (output_ext_of output_path)
                  (<[os_path_join temp_dir "final_output_temp.wav" := b]> fs) q Hne)
      as Hc.
    destruct (convert_audio_format H _ output_path _ _) as [fs1 ok]. simpl in *.
    rewrite log_write_lookup_ne by exact Hlog.
    rewrite remove_if_exists_lookup_ne by exact Htmp.
    rewrite Hc. by rewrite lookup_insert_ne.
  - destruct (sf_write H _ _ _) as [b|]; simpl;
      rewrite log_write_lookup_ne by exact Hlog; [|reflexivity].
    by rewrite lookup_insert_ne.
Qed.

(** Whether the export succeeds does not depend on [ffmpeg], nor on the
    files. *)
Lemma export_audio_outcome H log_file temp_dir output_path st fs fs1 ffmpeg :
  (export_audio (with_ffmpeg ffmpeg H) log_file temp_dir output_path st fs1).2
  = (export_audio H log_file temp_dir output_path st fs).2.
Proof.
  unfold export_audio. destruct (_ || _).
  - cbn [sf_write with_ffmpeg].
    destruct (sf_write H _ _ _) as [b|]; [|reflexivity].
    by destruct (convert_audio_format (with_ffmpeg ffmpeg H) _ output_path _ _),
               (convert_audio_format H _ output_path _ _).
  - cbn [sf_write with_ffmpeg]. by destruct (sf_write H _ _ _).
Qed.

(** ** The run as a whole *)

Lemma concat_len (segs : list waveform) : len (concat segs) = buffer_samples segs.
Proof.
  induction segs as [|chunk segs IH]; [reflexivity|].
  simpl. by rewrite len_app, IH.
Qed.

Lemma not_temporary_outside temp_dir q :
  ~ temporary_path temp_dir q ->
  under temp_dir q = false /\ forall j, q <> stretched_path temp_dir j.
Proof.
  intros Hq. split.
  - destruct (under temp_dir q) eqn:Hu; [|reflexivity]. destruct Hq. by left.
  - intros j ->. destruct Hq. right. by exists j.
Qed.

(** A run that gets to the summary: what it went through.  The
    preparation starts from the files with the first records logged. *)
Lemma srt_to_audio_numpy_fs_summary H W log_file temp_dir output_path subs keep_temp
    resume ref_video expected_duration max_speed no_concat batch_size retries fs
    fs' out :
  log_apart log_file temp_dir ->
  subs <> [] ->
  srt_to_audio_numpy_fs H W log_file temp_dir output_path subs keep_temp resume
    ref_video expected_duration max_speed no_concat batch_size retries fs
  = (fs', out) ->
  (forall e, out <> Some (Raised e)) ->
  let fs0 := log_write H log_file LogHead fs in
  exists fs_p stats errs fs_s st,
    prepare_clips W fs0 temp_dir subs resume batch_size retries
    = OK (fs_p, stats, errs) /\
    (forall q, (forall j, q <> stretched_path temp_dir j) -> log_file <> Some q ->
               fs_s !! q = fs_p !! q) /\
    srt_to_audio_numpy W fs0 temp_dir subs resume
      (final_target_duration H fs0 expected_duration ref_video) max_speed
      batch_size retries = OK st /\
    (fs', out)
    = (if no_concat then (fs_s, None)
       else
         match export_audio H log_file temp_dir output_path st fs_s with
         | (fs_e, Some f) => (fs_e, Some f)
         | (fs_e, None) =>
             cleanup H log_file temp_dir keep_temp
               (shutil_bound W fs0 temp_dir subs resume batch_size retries) fs_e
         end).
Proof.
  intros Hlog Hsubs Hrun Hout fs0. unfold srt_to_audio_numpy_fs in Hrun.
  fold fs0 in Hrun. unfold srt_to_audio_numpy.
  destruct subs as [|sub subs'] eqn:Heq; [done|].
  rewrite <- Heq in *. clear Heq Hsubs.
  unfold prepare_clips_fs in Hrun.
  destruct (prepare_clips W fs0 temp_dir subs resume batch_size retries)
    as [[[fs_p stats] errs]|e] eqn:Hprep;
    [|injection Hrun as _ <-; by destruct (Hout e)].
  pose proof (sync_cues_fs_value H W log_file temp_dir errs max_speed subs 0
                {| audio_segments := []; current_total_samples := 0;
                   sync_stats := stats |}
                (log_write H log_file LogPreparation fs_p) fs_p
                (fun j => log_apart_raw log_file temp_dir j Hlog)
                (fun j => log_write_lookup_ne H log_file LogPreparation fs_p _
                            (log_apart_raw log_file temp_dir j Hlog))) as Hval.
  pose proof (sync_cues_fs_frame H W log_file temp_dir errs max_speed subs 0
                {| audio_segments := []; current_total_samples := 0;
                   sync_stats := stats |}
                (log_write H log_file LogPreparation fs_p)) as Hframe.
  destruct (sync_cues_fs H W log_file temp_dir errs max_speed 0 subs _ _)
    as [fs_s r].
  simpl in Hval, Hframe. subst r.
  destruct (sync_cues W fs_p temp_dir errs max_speed 0 subs _) as [st0|e] eqn:Hsync;
    [|injection Hrun as _ <-; by destruct (Hout e)].
  cbn [mbind result_bind] in Hrun.
  destruct (final_padding _ st0) as [st|e] eqn:Hpad;
    [|injection Hrun as _ <-; by destruct (Hout e)].
  cbn [mbind result_bind] in Hrun.
  destruct (py_int_truediv (current_total_samples st) SAMPLE_RATE) as [d|e];
    [|injection Hrun as _ <-; by destruct (Hout e)].
  cbn [mbind result_bind] in Hrun.
  exists fs_p, stats, errs, (log_write H log_file LogSummary fs_s), st.
  split; [reflexivity|]. split.
  { intros q Hq Hne. rewrite log_write_lookup_ne by exact Hne.
    rewrite Hframe by done. by apply log_write_lookup_ne. }
  split; [cbn [mbind result_bind]; rewrite Hsync; exact Hpad|].
  by rewrite <- Hrun.
Qed.

Lemma log_apart_under log_file temp_dir q :
  log_apart log_file temp_dir -> under temp_dir q = true -> log_file <> Some q.
Proof. intros Hlog Hu Heq. apply (Hlog _ Heq). by left. Qed.

(** X17: a run that skips the concatenation.  With a log file that is no
    temporary file, when the run completes, it completes whatever
    [keep_temp] and the output path are, with the same files but for the
    log file; no file other than the temporary files and the log file is
    touched, so no output is written; and every clip and cache file is as
    the preparation left it, also without [keep_temp]. *)
Theorem no_concat_keeps_the_clips H W log_file temp_dir output_path subs keep_temp
    resume ref_video expected_duration max_speed batch_size retries fs fs' :
  log_apart log_file temp_dir ->
  srt_to_audio_numpy_fs H W log_file temp_dir output_path subs keep_temp resume
    ref_video expected_duration max_speed true batch_size retries fs
  = (fs', None) ->
  (forall keep_temp' output_path',
      exists fs'',
        srt_to_audio_numpy_fs H W log_file temp_dir output_path' subs keep_temp'
          resume ref_video expected_duration max_speed true batch_size retries fs
        = (fs'', None) /\
        forall q, log_file <> Some q -> fs'' !! q = fs' !! q) /\
  (forall q, ~ temporary_path temp_dir q -> log_file <> Some q ->
             fs' !! q = fs !! q) /\
  exists fs_p stats errs,
    prepare_clips W (log_write H log_file LogHead fs) temp_dir subs resume
      batch_size retries
    = OK (fs_p, stats, errs) /\
    (forall j, fs' !! raw_audio_path temp_dir j = fs_p !! raw_audio_path temp_dir j) /\
    (forall text,
        fs' !! cache_path_of W temp_dir text = fs_p !! cache_path_of W temp_dir text).
Proof.
  intros Hlog Hrun. destruct subs as [|sub subs'] eqn:Heq.
  { injection Hrun as <-. split; [by eexists|].
    split; [intros q _ Hne; by apply log_write_lookup_ne|].
    eexists _, _, _. split; [reflexivity|]. split; reflexivity. }
  rewrite <- Heq in *.
  assert (Hsubs : subs <> []) by (by rewrite Heq). clear Heq.
  split.
  { intros keep_temp' output_path'. exists fs'. split; [|done].
    rewrite <- Hrun. unfold srt_to_audio_numpy_fs.
    destruct subs; [reflexivity|].
    destruct (prepare_clips_fs _ _ _ _ _ _ _ _ _) as [fs_p [[[stats errs] bound]|e]];
      [|reflexivity].
    destruct (sync_cues_fs _ _ _ _ _ _ _ _ _ _) as [fs_s [st0|e]]; [|reflexivity].
    cbv zeta. by destruct (_ ≫= _). }
  destruct (srt_to_audio_numpy_fs_summary _ _ _ _ _ _ _ _ _ _ _ _ _ _ _ _ _ Hlog
              Hsubs Hrun ltac:(discriminate))
    as (fs_p & stats & errs & fs_s & st & Hprep & Hframe & _ & Hend).
  injection Hend as ->.
  split.
  - intros q [Hu Hs]%not_temporary_outside Hne.
    rewrite Hframe by done.
    rewrite (prepare_clips_outside _ _ _ _ _ _ _ _ _ _ _ Hprep Hu).
    by apply log_write_lookup_ne.
  - exists fs_p, stats, errs. split; [exact Hprep|]. split.
    + intros j. apply Hframe; [|by apply log_apart_raw].
      intros k Heq. symmetry in Heq.
      by apply (proj1 (output_tmp_path_fresh W temp_dir k)) in Heq.
    + intros text. apply Hframe; [|by apply log_apart_cache].
      intros k Heq. symmetry in Heq.
      by apply (proj2 (output_tmp_path_fresh W temp_dir k)) in Heq.
Qed.

Lemma stretched_path_suffix temp_dir j :
  exists Z, stretched_path temp_dir j = Z +:+ "_stretched.wav".
Proof.
  destruct (raw_audio_path_mp3 temp_dir j) as [X HX].
  unfold stretched_path. rewrite HX. apply output_tmp_path_suffix.
Qed.

(** A name shorter than [_stretched.wav] is no stretched file. *)
Lemma short_path_not_temporary temp_dir q :
  under temp_dir q = false -> (String.length q < 14)%nat ->
  ~ temporary_path temp_dir q.
Proof.
  intros Hu Hlen [Hu' | [j Hj]]; [congruence|].
  destruct (stretched_path_suffix temp_dir j) as [Z HZ]. rewrite HZ in Hj.
  apply (f_equal String.length) in Hj. rewrite string_app_length in Hj.
  simpl in Hj. lia.
Qed.

Lemma short_log_apart temp_dir p :
  under temp_dir p = false -> (String.length p < 14)%nat ->
  log_apart (Some p) temp_dir.
Proof. intros Hu Hlen q [= <-]. by apply short_path_not_temporary. Qed.

(** X15, an instance: two overlapping cues, with the log file next to the
    temporary directory. *)
Lemma sync_cues_fs_keeps_clips_witness :
  (sync_cues_fs demo_host demo_world (Some "dub.log") "tmp" (Some ∅) 1.5 0
     overlapping_cues (initial_state (new_stats 2)) two_clips).1
    !! raw_audio_path "tmp" 1
  = Some [Byte.x03].
Proof.
  rewrite (proj1 (proj2 (proj2
             (sync_cues_fs_keeps_clips demo_host demo_world (Some "dub.log") "tmp"
                (Some ∅) 1.5 0 overlapping_cues (initial_state (new_stats 2))
                two_clips
                (short_log_apart "tmp" "dub.log" eq_refl ltac:(simpl; lia)))))).
  reflexivity.
Defined.

(** X17, an instance: no output, and the clip is kept. *)
Lemma no_concat_keeps_the_clips_witness :
  exists fs',
    srt_to_audio_numpy_fs demo_host demo_world (Some "dub.log") "tmp" "out.wav"
      [cue 0 0 0 50 "Hi"] false false None None 1.5 true 10 10 ∅ = (fs', None) /\
    fs' !! "out.wav" = None /\
    exists fs_p stats errs,
      prepare_clips demo_world (log_write demo_host (Some "dub.log") LogHead ∅)
        "tmp" [cue 0 0 0 50 "Hi"] false 10 10
      = OK (fs_p, stats, errs) /\
      fs' !! raw_audio_path "tmp" 0 = fs_p !! raw_audio_path "tmp" 0.
Proof.
  assert (Hok :
    (srt_to_audio_numpy_fs demo_host demo_world (Some "dub.log") "tmp" "out.wav"
       [cue 0 0 0 50 "Hi"] false false None None 1.5 true 10 10 ∅).2 = None)
    by (vm_compute; reflexivity).
  destruct (srt_to_audio_numpy_fs demo_host demo_world (Some "dub.log") "tmp"
              "out.wav" [cue 0 0 0 50 "Hi"] false false None None 1.5 true 10 10 ∅)
    as [fs' out] eqn:Hrun.
  simpl in Hok. subst out. exists fs'. split; [reflexivity|].
  destruct (no_concat_keeps_the_clips _ _ _ _ _ _ _ _ _ _ _ _ _ _ _
              (short_log_apart "tmp" "dub.log" eq_refl ltac:(simpl; lia)) Hrun)
    as (_ & Hframe & fs_p & stats & errs & Hprep & Hraw & _).
  split.
  - rewrite Hframe; [reflexivity | | discriminate].
    apply short_path_not_temporary; [reflexivity | simpl; lia].
  - exists fs_p, stats, errs. split; [exact Hprep | apply Hraw].
Defined.

(** X20: what a completed run leaves.  With a log file that is no
    temporary file, after a run over at least one cue that completes,
    without [keep_temp] and with the concatenation, no file is left inside
    the temporary directory, and every file that is neither a temporary
    file, nor the output, nor the log file is as it was.  Such a run has
    bound the local name [shutil]: one of the three copies of the
    preparation was attempted. *)
Theorem completed_run_cleans_up H W log_file temp_dir output_path subs resume
    ref_video expected_duration max_speed batch_size retries fs fs' :
  log_apart log_file temp_dir ->
  srt_to_audio_numpy_fs H W log_file temp_dir output_path subs false resume
    ref_video expected_duration max_speed false batch_size retries fs
  = (fs', None) ->
  subs <> [] ->
  (forall q, under temp_dir q = true -> fs' !! q = None) /\
  (forall q, ~ temporary_path temp_dir q -> q <> output_path ->
             log_file <> Some q -> fs' !! q = fs !! q) /\
  shutil_bound W (log_write H log_file LogHead fs) temp_dir subs resume batch_size
    retries = true.
Proof.
  intros Hlog Hrun Hsubs.
  destruct (srt_to_audio_numpy_fs_summary _ _ _ _ _ _ _ _ _ _ _ _ _ _ _ _ _ Hlog
              Hsubs Hrun ltac:(discriminate))
    as (fs_p & stats & errs & fs_s & st & Hprep & Hframe & _ & Hend).
  pose proof (export_audio_lookup_ne H log_file temp_dir output_path st fs_s) as Hexp.
  destruct (export_audio H log_file temp_dir output_path st fs_s) as [fs_e [f|]];
    [discriminate Hend|].
  symmetry in Hend. apply cleanup_OK in Hend as [[[=] _] | (_ & Hbound & ->)].
  split; [|split; [|exact Hbound]].
  - intros q Hu.
    rewrite log_write_lookup_ne by (by eapply log_apart_under).
    by apply rmtree_lookup_under.
  - intros q [Hu Hs]%not_temporary_outside Hne Hq.
    rewrite log_write_lookup_ne by exact Hq.
    rewrite rmtree_lookup_outside by exact Hu. simpl in Hexp.
    rewrite Hexp by done. rewrite Hframe by done.
    rewrite (prepare_clips_outside _ _ _ _ _ _ _ _ _ _ _ Hprep Hu).
    by apply log_write_lookup_ne.
Qed.

Lemma clock_inv_of_run W fs temp_dir subs resume target max_speed batch_size
    retries st :
  srt_to_audio_numpy W fs temp_dir subs resume target max_speed batch_size retries
  = OK st ->
  len (concat (audio_segments st)) = current_total_samples st.
Proof.
  intros Hrun. apply srt_to_audio_numpy_advances in Hrun as (s & (Hinv & _) & _).
  rewrite concat_len. symmetry. exact Hinv.
Qed.

(** X18: the file a run writes directly.  When a run over at least one
    cue completes and the extension of the output is neither [m4a] nor
    [opus], the output file, if it is outside the temporary directory,
    holds what [sf.write] makes of the concatenated buffer of
    [srt_to_audio_numpy], which has as many samples as the counter says;
    the log file, if there is one, is neither a temporary file nor the
    output. *)
Theorem exported_file_holds_the_buffer H W log_file temp_dir output_path subs
    keep_temp resume ref_video expected_duration max_speed batch_size retries fs
    fs' :
  srt_to_audio_numpy_fs H W log_file temp_dir output_path subs keep_temp resume
    ref_video expected_duration max_speed false batch_size retries fs
  = (fs', None) ->
  subs <> [] ->
  output_ext_of output_path <> "m4a" ->
  output_ext_of output_path <> "opus" ->
  under temp_dir output_path = false ->
  log_apart log_file temp_dir ->
  log_file <> Some output_path ->
  let fs0 := log_write H log_file LogHead fs in
  exists st b,
    srt_to_audio_numpy W fs0 temp_dir subs resume
      (final_target_duration H fs0 expected_duration ref_video) max_speed
      batch_size retries = OK st /\
    len (concat (audio_segments st)) = current_total_samples st /\
    sf_write H output_path (concat (audio_segments st)) SAMPLE_RATE = Some b /\
    fs' !! output_path = Some b.
Proof.
  intros Hrun Hsubs Hm4a Hopus Hout Hlog Hlogout fs0.
  destruct (srt_to_audio_numpy_fs_summary _ _ _ _ _ _ _ _ _ _ _ _ _ _ _ _ _ Hlog
              Hsubs Hrun ltac:(discriminate))
    as (fs_p & stats & errs & fs_s & st & Hprep & Hframe & Hcore & Hend).
  unfold export_audio in Hend.
  apply String.eqb_neq in Hm4a, Hopus. rewrite Hm4a, Hopus in Hend. simpl in Hend.
  destruct (sf_write H output_path (concat (audio_segments st)) SAMPLE_RATE)
    as [b|] eqn:Hw; [|discriminate Hend].
  exists st, b. split; [exact Hcore|].
  split; [by eapply clock_inv_of_run|]. split; [exact Hw|].
  symmetry in Hend. apply cleanup_OK in Hend as [[_ ->] | (_ & _ & ->)].
  - rewrite !log_write_lookup_ne by exact Hlogout. apply lookup_insert_eq.
  - rewrite log_write_lookup_ne by exact Hlogout.
    rewrite rmtree_lookup_outside by exact Hout.
    rewrite log_write_lookup_ne by exact Hlogout. apply lookup_insert_eq.
Qed.

(** The loop does not call [ffmpeg]. *)
Lemma sync_cues_fs_ffmpeg H W log_file temp_dir errs max_speed ffmpeg subs :
  forall i st fs,
    sync_cues_fs (with_ffmpeg ffmpeg H) W log_file temp_dir errs max_speed i subs
      st fs
    = sync_cues_fs H W log_file temp_dir errs max_speed i subs st fs.
Proof.
  induction subs as [|sub subs IH]; intros i st fs; [reflexivity|].
  cbn [sync_cues_fs].
  change (sync_step_fs (with_ffmpeg ffmpeg H) W log_file temp_dir errs max_speed
            st i sub fs)
    with (sync_step_fs H W log_file temp_dir errs max_speed st i sub fs).
  destruct (sync_step_fs H W log_file temp_dir errs max_speed st i sub fs)
    as [fs1 [st1|e]]; [apply IH | reflexivity].
Qed.

(** Whether a run completes, and how it fails, does not depend on
    [ffmpeg]. *)
Lemma run_outcome_ffmpeg H W log_file temp_dir output_path subs keep_temp resume
    ref_video expected_duration max_speed no_concat batch_size retries fs ffmpeg :
  (srt_to_audio_numpy_fs (with_ffmpeg ffmpeg H) W log_file temp_dir output_path
     subs keep_temp resume ref_video expected_duration max_speed no_concat
     batch_size retries fs).2
  = (srt_to_audio_numpy_fs H W log_file temp_dir output_path subs keep_temp resume
       ref_video expected_duration max_speed no_concat batch_size retries fs).2.
Proof.
  unfold srt_to_audio_numpy_fs.
  change (log_write (with_ffmpeg ffmpeg H)) with (log_write H).
  change (final_target_duration (with_ffmpeg ffmpeg H))
    with (final_target_duration H).
  change (prepare_clips_fs (with_ffmpeg ffmpeg H)) with (prepare_clips_fs H).
  destruct subs as [|sub subs'] eqn:Heq; [reflexivity|]. rewrite <- Heq.
  destruct (prepare_clips_fs H W log_file _ temp_dir subs resume batch_size retries)
    as [fs_p [[[stats errs] bound]|e]]; [|reflexivity].
  rewrite sync_cues_fs_ffmpeg.
  destruct (sync_cues_fs H W log_file temp_dir errs max_speed 0 subs _ fs_p)
    as [fs_s [st0|e]]; [|reflexivity].
  cbv zeta. destruct (_ ≫= _) as [st|e]; [|reflexivity].
  destruct no_concat; [reflexivity|].
  pose proof (export_audio_outcome H log_file temp_dir output_path st
                (log_write H log_file LogSummary fs_s)
                (log_write H log_file LogSummary fs_s) ffmpeg) as Hexp.
  destruct (export_audio (with_ffmpeg ffmpeg H) _ _ _ _ _) as [fs1 o1],
           (export_audio H _ _ _ _ _) as [fs2 o2].
  simpl in Hexp. subst o2. destruct o1; [reflexivity|].
  by apply cleanup_outcome.
Qed.

(** What a completed run leaves at the output it converts. *)
Lemma converted_output H W log_file temp_dir output_path subs keep_temp resume
    ref_video expected_duration max_speed batch_size retries fs fs' :
  srt_to_audio_numpy_fs H W log_file temp_dir output_path subs keep_temp resume
    ref_video expected_duration max_speed false batch_size retries fs
  = (fs', None) ->
  subs <> [] ->
  output_ext_of output_path = "m4a" \/ output_ext_of output_path = "opus" ->
  ~ temporary_path temp_dir output_path ->
  log_apart log_file temp_dir ->
  log_file <> Some output_path ->
  let fs0 := log_write H log_file LogHead fs in
  let temp_output_wav := os_path_join temp_dir "final_output_temp.wav" in
  exists st wav,
    srt_to_audio_numpy W fs0 temp_dir subs resume
      (final_target_duration H fs0 expected_duration ref_video) max_speed
      batch_size retries = OK st /\
    sf_write H temp_output_wav (concat (audio_segments st)) SAMPLE_RATE = Some wav /\
    fs' !! output_path
    = match run_ffmpeg H
              (ffmpeg_cmd temp_output_wav output_path (output_ext_of output_path))
              wav with
      | Some encoded => Some encoded
      | None => fs !! output_path
      end.
Proof.
  intros Hrun Hsubs Hext [Hout Hs]%not_temporary_outside Hlog Hlogout fs0
    temp_output_wav.
  destruct (srt_to_audio_numpy_fs_summary _ _ _ _ _ _ _ _ _ _ _ _ _ _ _ _ _ Hlog
              Hsubs Hrun ltac:(discriminate))
    as (fs_p & stats & errs & fs_s & st & Hprep & Hframe & Hcore & Hend).
  unfold export_audio in Hend. fold temp_output_wav in Hend.
  assert (Hbranch : String.eqb (output_ext_of output_path) "m4a"
                    || String.eqb (output_ext_of output_path) "opus" = true).
  { destruct Hext as [-> | ->]; reflexivity. }
  rewrite Hbranch in Hend.
  destruct (sf_write H temp_output_wav (concat (audio_segments st)) SAMPLE_RATE)
    as [wav|] eqn:Hw; [|discriminate Hend].
  exists st, wav. split; [exact Hcore|]. split; [exact Hw|].
  assert (Hne : output_path <> temp_output_wav).
  { intros Heq. rewrite Heq in Hout. unfold temp_output_wav in Hout.
    by rewrite temp_wav_under in Hout. }
  assert (Hbefore : fs_s !! output_path = fs !! output_path).
  { rewrite Hframe by done.
    rewrite (prepare_clips_outside _ _ _ _ _ _ _ _ _ _ _ Hprep Hout).
    by apply log_write_lookup_ne. }
  unfold convert_audio_format in Hend. rewrite lookup_insert_eq in Hend.
  destruct (run_ffmpeg H _ wav) as [encoded|].
  - symmetry in Hend. apply cleanup_OK in Hend as [[_ ->] | (_ & _ & ->)];
      rewrite ?log_write_lookup_ne by exact Hlogout;
      rewrite ?rmtree_lookup_outside by exact Hout;
      rewrite ?log_write_lookup_ne by exact Hlogout;
      rewrite remove_if_exists_lookup_ne by exact Hne;
      apply lookup_insert_eq.
  - symmetry in Hend. apply cleanup_OK in Hend as [[_ ->] | (_ & _ & ->)];
      rewrite ?log_write_lookup_ne by exact Hlogout;
      rewrite ?rmtree_lookup_outside by exact Hout;
      rewrite ?log_write_lookup_ne by exact Hlogout;
      rewrite remove_if_exists_lookup_ne by exact Hne;
      rewrite lookup_insert_ne by done; exact Hbefore.
Qed.

(** X19: the file a run converts.  Take an output with the extension
    [m4a] or [opus] that is no temporary file, a log file that is neither a
    temporary file nor the output, and a run over at least one cue that
    completes.  The output path then holds what [ffmpeg] made of the
    temporary WAV file, or what it held before when [ffmpeg] failed.  The
    same run completes with every other [ffmpeg], in particular with one
    that fails, and that run leaves at the output path what was there
    before. *)
Theorem converted_file H W log_file temp_dir output_path subs keep_temp resume
    ref_video expected_duration max_speed batch_size retries fs fs' :
  srt_to_audio_numpy_fs H W log_file temp_dir output_path subs keep_temp resume
    ref_video expected_duration max_speed false batch_size retries fs
  = (fs', None) ->
  subs <> [] ->
  output_ext_of output_path = "m4a" \/ output_ext_of output_path = "opus" ->
  ~ temporary_path temp_dir output_path ->
  log_apart log_file temp_dir ->
  log_file <> Some output_path ->
  let fs0 := log_write H log_file LogHead fs in
  let temp_output_wav := os_path_join temp_dir "final_output_temp.wav" in
  (exists st wav,
      srt_to_audio_numpy W fs0 temp_dir subs resume
        (final_target_duration H fs0 expected_duration ref_video) max_speed
        batch_size retries = OK st /\
      sf_write H temp_output_wav (concat (audio_segments st)) SAMPLE_RATE
      = Some wav /\
      fs' !! output_path
      = match run_ffmpeg H
                (ffmpeg_cmd temp_output_wav output_path (output_ext_of output_path))
                wav with
        | Some encoded => Some encoded
        | None => fs !! output_path
        end) /\
  (forall ffmpeg,
      (srt_to_audio_numpy_fs (with_ffmpeg ffmpeg H) W log_file temp_dir output_path
         subs keep_temp resume ref_video expected_duration max_speed false
         batch_size retries fs).2 = None) /\
  (srt_to_audio_numpy_fs (with_ffmpeg (fun _ _ => None) H) W log_file temp_dir
     output_path subs keep_temp resume ref_video expected_duration max_speed false
     batch_size retries fs).1 !! output_path
  = fs !! output_path.
Proof.
  intros Hrun Hsubs Hext Htmp Hlog Hlogout fs0 temp_output_wav.
  assert (Hall : forall ffmpeg,
    (srt_to_audio_numpy_fs (with_ffmpeg ffmpeg H) W log_file temp_dir output_path
       subs keep_temp resume ref_video expected_duration max_speed false
       batch_size retries fs).2 = None).
  { intros ffmpeg. rewrite run_outcome_ffmpeg. by rewrite Hrun. }
  split; [by eapply converted_output|]. split; [exact Hall|].
  specialize (Hall (fun _ _ => None)).
  destruct (srt_to_audio_numpy_fs (with_ffmpeg (fun _ _ => None) H) W log_file
              temp_dir output_path subs keep_temp resume ref_video
              expected_duration max_speed false batch_size retries fs)
    as [fs'' out] eqn:Hrun'.
  simpl in Hall. subst out. simpl.
  destruct (converted_output _ _ _ _ _ _ _ _ _ _ _ _ _ _ _ Hrun' Hsubs Hext Htmp
              Hlog Hlogout) as (st & wav & _ & _ & Hfile).
  exact Hfile.
Qed.

(** X20, an instance: the clip is gone, the subtitle file is there. *)
Lemma completed_run_cleans_up_witness :
  exists fs',
    srt_to_audio_numpy_fs demo_host demo_world (Some "dub.log") "tmp" "out.wav"
      [cue 0 0 0 50 "Hi"] false false None None 1.5 false 10 10
      {[ "film.srt" := [Byte.x31] ]} = (fs', None) /\
    fs' !! raw_audio_path "tmp" 0 = None /\
    fs' !! "film.srt" = Some [Byte.x31].
Proof.
  assert (Hok :
    (srt_to_audio_numpy_fs demo_host demo_world (Some "dub.log") "tmp" "out.wav"
       [cue 0 0 0 50 "Hi"] false false None None 1.5 false 10 10
       {[ "film.srt" := [Byte.x31] ]}).2 = None)
    by (vm_compute; reflexivity).
  destruct (srt_to_audio_numpy_fs demo_host demo_world (Some "dub.log") "tmp"
              "out.wav" [cue 0 0 0 50 "Hi"] false false None None 1.5 false 10 10
              {[ "film.srt" := [Byte.x31] ]})
    as [fs' out] eqn:Hrun.
  simpl in Hok. subst out. exists fs'. split; [reflexivity|].
  destruct (completed_run_cleans_up _ _ _ _ _ _ _ _ _ _ _ _ _ _
              (short_log_apart "tmp" "dub.log" eq_refl ltac:(simpl; lia)) Hrun
              ltac:(discriminate))
    as (Hgone & Hframe & _).
  split.
  - apply Hgone. reflexivity.
  - rewrite Hframe; [reflexivity | | discriminate | discriminate].
    apply short_path_not_temporary; [reflexivity | simpl; lia].
Defined.

(** X18, an instance. *)
Lemma exported_file_holds_the_buffer_witness :
  exists fs' st b,
    srt_to_audio_numpy_fs demo_host demo_world (Some "dub.log") "tmp" "out.wav"
      [cue 0 0 0 50 "Hi"] false false None None 1.5 false 10 10 ∅ = (fs', None) /\
    len (concat (audio_segments st)) = current_total_samples st /\
    sf_write demo_host "out.wav" (concat (audio_segments st)) SAMPLE_RATE = Some b /\
    fs' !! "out.wav" = Some b.
Proof.
  assert (Hok :
    (srt_to_audio_numpy_fs demo_host demo_world (Some "dub.log") "tmp" "out.wav"
       [cue 0 0 0 50 "Hi"] false false None None 1.5 false 10 10 ∅).2 = None)
    by (vm_compute; reflexivity).
  destruct (srt_to_audio_numpy_fs demo_host demo_world (Some "dub.log") "tmp"
              "out.wav" [cue 0 0 0 50 "Hi"] false false None None 1.5 false 10 10 ∅)
    as [fs' out] eqn:Hrun.
  simpl in Hok. subst out.
  destruct (exported_file_holds_the_buffer _ _ _ _ _ _ _ _ _ _ _ _ _ _ _ Hrun)
    as (st & b & _ & Hlen & Hw & Hfile);
    [discriminate | vm_compute; discriminate | vm_compute; discriminate
    | reflexivity
    | apply short_log_apart; [reflexivity | simpl; lia]
    | discriminate |].
  exists fs', st, b. split; [reflexivity|]. by repeat split.
Defined.

(** X19, an instance: [ffmpeg] fails, the run completes, and there is no
    output. *)
Lemma converted_file_witness :
  exists fs',
    srt_to_audio_numpy_fs no_ffmpeg_host demo_world (Some "dub.log") "tmp"
      "out.m4a" [cue 0 0 0 50 "Hi"] false false None None 1.5 false 10 10 ∅
    = (fs', None) /\
    fs' !! "out.m4a" = None.
Proof.
  assert (Hok :
    (srt_to_audio_numpy_fs no_ffmpeg_host demo_world (Some "dub.log") "tmp"
       "out.m4a" [cue 0 0 0 50 "Hi"] false false None None 1.5 false 10 10 ∅).2
    = None)
    by (vm_compute; reflexivity).
  destruct (srt_to_audio_numpy_fs no_ffmpeg_host demo_world (Some "dub.log") "tmp"
              "out.m4a" [cue 0 0 0 50 "Hi"] false false None None 1.5 false 10 10 ∅)
    as [fs' out] eqn:Hrun.
  simpl in Hok. subst out. exists fs'. split; [reflexivity|].
  destruct (converted_file _ _ _ _ _ _ _ _ _ _ _ _ _ _ _ Hrun)
    as ((st & wav & _ & _ & Hfile) & _ & _).
  - discriminate.
  - left. vm_compute. reflexivity.
  - apply short_path_not_temporary; [reflexivity | simpl; lia].
  - apply short_log_apart; [reflexivity | simpl; lia].
  - discriminate.
  - rewrite Hfile. reflexivity.
Defined.

(** ** [str.split] *)

Lemma str_split_length sep s : length (str_split sep s) = S (count_char sep s).
Proof.
  induction s as [|c s IH]; [reflexivity|]. simpl.
  destruct (Ascii.eqb c sep); simpl; [by rewrite IH|].
  destruct (str_split sep s); simpl in *; lia.
Qed.

Lemma str_contains_char_count sep s :
  str_contains_char sep s = true <-> (0 < count_char sep s)%nat.
Proof.
  induction s as [|c s IH]; simpl; [split; [discriminate | lia]|].
  destruct (Ascii.eqb c sep); simpl; [split; [lia | done] | exact IH].
Qed.

Lemma str_split_no_sep sep s : count_char sep s = 0%nat -> str_split sep s = [s].
Proof.
  induction s as [|c s IH]; [reflexivity|]. simpl.
  destruct (Ascii.eqb c sep); simpl; [lia|]. intros Hs. by rewrite IH.
Qed.

(** Joining with the separator and splitting again. *)
Lemma str_split_join sep a b :
  count_char sep a = 0%nat ->
  str_split sep (a +:+ String sep b) = a :: str_split sep b.
Proof.
  induction a as [|c a IH]; intros Ha.
  - rewrite string_app_nil_l. simpl. by rewrite Ascii.eqb_refl.
  - rewrite string_app_cons. simpl in *.
    destruct (Ascii.eqb c sep); [simpl in Ha; lia|].
    by rewrite IH.
Qed.

(** ** [parse_duration_str] *)

Lemma parse_duration_str_colon H c s :
  (0 < count_char ":" (String c s))%nat ->
  parse_duration_str H (Some (String c s))
  = match parse_duration_fields H (str_split ":" (String c s)) with
    | OK duration => duration
    | Raise _ => 0%float
    end.
Proof.
  intros Hc. apply str_contains_char_count in Hc.
  unfold parse_duration_str. by rewrite Hc.
Qed.

Lemma count_char_app c a b :
  count_char c (a +:+ b) = (count_char c a + count_char c b)%nat.
Proof.
  induction a as [|x a IH]; [reflexivity|].
  rewrite string_app_cons. simpl. rewrite IH. lia.
Qed.

Lemma string_app_not_empty a c b : a +:+ String c b <> EmptyString.
Proof. destruct a; discriminate. Qed.

(** X1: the fields of a duration string.  For three fields without a colon
    in them, [parse_duration_str] returns [float(int(h) * 3600 + int(m) * 60)
    + float(s)], the integer part added up exactly and converted once; for
    two fields, [float(int(m) * 60) + float(s)]; when the integer part is
    too large for a float the result is 0.0.  No field is checked against a
    range, so a string [m':s] whose minutes are [60 * h + m] gives the same
    duration as [h:m:s]. *)
Theorem parse_duration_str_fields H h m s hh mm ss :
  count_char ":" h = 0%nat ->
  count_char ":" m = 0%nat ->
  count_char ":" s = 0%nat ->
  py_int_of_str H h = Some hh ->
  py_int_of_str H m = Some mm ->
  py_float_of_str H s = Some ss ->
  parse_duration_str H (Some (h +:+ ":" +:+ m +:+ ":" +:+ s))
  = match float_of_int (hh * 3600 + mm * 60) with
    | OK whole => (whole + ss)%float
    | Raise _ => 0%float
    end /\
  parse_duration_str H (Some (m +:+ ":" +:+ s))
  = match float_of_int (mm * 60) with
    | OK whole => (whole + ss)%float
    | Raise _ => 0%float
    end /\
  (forall m',
      count_char ":" m' = 0%nat ->
      py_int_of_str H m' = Some (hh * 60 + mm) ->
      parse_duration_str H (Some (m' +:+ ":" +:+ s))
      = parse_duration_str H (Some (h +:+ ":" +:+ m +:+ ":" +:+ s))).
Proof.
  intros Hh Hm Hs Hhh Hmm Hss.
  assert (H3 : parse_duration_str H (Some (h +:+ ":" +:+ m +:+ ":" +:+ s))
               = match float_of_int (hh * 3600 + mm * 60) with
                 | OK whole => (whole + ss)%float
                 | Raise _ => 0%float
                 end).
  { destruct (h +:+ ":" +:+ m +:+ ":" +:+ s) as [|c r] eqn:Heq;
      [by apply string_app_not_empty in Heq|].
    rewrite parse_duration_str_colon
      by (rewrite <- Heq, !count_char_app; simpl; lia).
    rewrite <- Heq.
    change (h +:+ ":" +:+ m +:+ ":" +:+ s)
      with (h +:+ String ":" (m +:+ String ":" s)).
    rewrite (str_split_join ":" h) by exact Hh.
    rewrite (str_split_join ":" m) by exact Hm.
    rewrite str_split_no_sep by exact Hs.
    unfold parse_duration_fields. rewrite Hhh, Hmm, Hss. simpl.
    destruct (float_of_int _); reflexivity. }
  assert (H2 : forall m' k,
    count_char ":" m' = 0%nat -> py_int_of_str H m' = Some k ->
    parse_duration_str H (Some (m' +:+ ":" +:+ s))
    = match float_of_int (k * 60) with
      | OK whole => (whole + ss)%float
      | Raise _ => 0%float
      end).
  { intros m' k Hm' Hk.
    destruct (m' +:+ ":" +:+ s) as [|c r] eqn:Heq;
      [by apply string_app_not_empty in Heq|].
    rewrite parse_duration_str_colon
      by (rewrite <- Heq, !count_char_app; simpl; lia).
    rewrite <- Heq.
    change (m' +:+ ":" +:+ s) with (m' +:+ String ":" s).
    rewrite (str_split_join ":" m') by exact Hm'.
    rewrite str_split_no_sep by exact Hs.
    unfold parse_duration_fields. rewrite Hk, Hss. simpl.
    destruct (float_of_int (k * 60)); reflexivity. }
  split; [exact H3|]. split; [by apply H2|].
  intros m' Hm' Hk. rewrite H3, (H2 m' _ Hm' Hk).
  by replace ((hh * 60 + mm) * 60) with (hh * 3600 + mm * 60) by lia.
Qed.

(** X1, an instance: [1:30:15] and [90:15] are both 5415 seconds. *)
Lemma parse_duration_str_fields_witness :
  parse_duration_str demo_host (Some "1:30:15") = 5415%float /\
  parse_duration_str demo_host (Some "90:15") = 5415%float.
Proof.
  destruct (parse_duration_str_fields demo_host "1" "30" "15" 1 30
              (SF2Prim (binary_normalize prec emax 15 0 false))
              eq_refl eq_refl eq_refl eq_refl eq_refl eq_refl)
    as (H3 & _ & H2).
  split.
  - change "1:30:15" with ("1" +:+ ":" +:+ "30" +:+ ":" +:+ "15").
    rewrite H3. vm_compute. reflexivity.
  - change "90:15" with ("90" +:+ ":" +:+ "15").
    rewrite (H2 "90" eq_refl eq_refl), H3. vm_compute. reflexivity.
Defined.

Lemma parse_duration_str_many_fields H s :
  (3 <= count_char ":" s)%nat -> parse_duration_str H (Some s) = 0%float.
Proof.
  intros Hc. destruct s as [|c s]; [reflexivity|].
  rewrite parse_duration_str_colon by lia.
  pose proof (str_split_length ":" (String c s)) as Hlen.
  destruct (str_split ":" (String c s)) as [|a [|b [|d [|e l]]]];
    cbn [length] in Hlen; try lia. reflexivity.
Qed.

(** X2: a duration string with three colons or more, that is with four
    fields or more, is parsed to 0.0 without an error; given as the expected
    duration it also shadows the reference video, so the run is the run
    with no target at all. *)
Theorem expected_duration_with_many_fields H W log_file temp_dir output_path subs
    keep_temp resume ref_video s max_speed no_concat batch_size retries fs :
  (3 <= count_char ":" s)%nat ->
  parse_duration_str H (Some s) = 0%float /\
  final_target_duration H fs (Some s) ref_video = 0%float /\
  srt_to_audio_numpy_fs H W log_file temp_dir output_path subs keep_temp resume
    ref_video (Some s) max_speed no_concat batch_size retries fs
  = srt_to_audio_numpy_fs H W log_file temp_dir output_path subs keep_temp resume
      None None max_speed no_concat batch_size retries fs.
Proof.
  intros Hc. pose proof (parse_duration_str_many_fields H s Hc) as Hp.
  assert (Ht : forall fs1, final_target_duration H fs1 (Some s) ref_video = 0%float).
  { intros fs1. unfold final_target_duration.
    destruct s as [|c s]; [simpl in Hc; lia|]. exact Hp. }
  split; [exact Hp|]. split; [apply Ht|].
  unfold srt_to_audio_numpy_fs. by rewrite Ht.
Qed.

(** X2, an instance: a subtitle stamp given as the duration. *)
Lemma expected_duration_with_many_fields_witness :
  parse_duration_str demo_host (Some "0:01:30:500") = 0%float.
Proof.
  apply (expected_duration_with_many_fields demo_host demo_world (Some "dub.log")
           "tmp" "out.wav" [] false false None "0:01:30:500" 1.5 false 10 10 ∅).
  simpl. lia.
Defined.

(** ** The format override *)

(** A string splits into parts before its last separator and a last part,
    and text without a separator appended to it goes to the last part. *)
Lemma str_split_snoc sep a :
  exists init lst,
    str_split sep a = init ++ [lst] /\
    forall b, count_char sep b = 0%nat ->
      str_split sep (a +:+ b) = init ++ [lst +:+ b].
Proof.
  induction a as [|c a (init & lst & Ha & Hb)].
  - exists [], "". split; [reflexivity|]. intros b Hc.
    rewrite string_app_nil_l. by apply str_split_no_sep.
  - cbn [str_split]. destruct (Ascii.eqb c sep) eqn:Hcs.
    + exists ("" :: init), lst. rewrite Ha. split; [reflexivity|].
      intros b Hc. rewrite string_app_cons. cbn [str_split].
      by rewrite Hcs, Hb.
    + rewrite Ha. destruct init as [|p init]; simpl.
      * exists [], (String c lst). split; [reflexivity|].
        intros b Hc. rewrite ?string_app_cons. cbn [str_split].
        by rewrite Hcs, Hb.
      * exists (String c p :: init), lst. split; [reflexivity|].
        intros b Hc. rewrite ?string_app_cons. cbn [str_split].
        by rewrite Hcs, Hb.
Qed.

Lemma last_snoc {A} (l : list A) (x d : A) : List.last (l ++ [x]) d = x.
Proof. apply List.last_last. Qed.

Lemma str_rfind_char_none c t : count_char c t = 0%nat -> str_rfind_char c t = None.
Proof.
  induction t as [|x t IH]; [reflexivity|]. simpl.
  destruct (Ascii.eqb x c); simpl; [lia|]. intros Ht. by rewrite IH.
Qed.

Lemma str_rfind_char_app c B t :
  count_char c t = 0%nat ->
  str_rfind_char c (B +:+ String c t) = Some (String.length B, String c t).
Proof.
  intros Ht. induction B as [|x B IH].
  - rewrite string_app_nil_l. simpl.
    by rewrite str_rfind_char_none, Ascii.eqb_refl.
  - rewrite string_app_cons. simpl. by rewrite IH.
Qed.

Lemma string_eqb_app_not_empty a c b : String.eqb (a +:+ String c b) "" = false.
Proof. apply String.eqb_neq, string_app_not_empty. Qed.

(** The extension of a name made of a last component that is not empty, a
    dot and a format. *)
Lemma output_ext_of_appended output_file fmt :
  fmt ∈ format_choices ->
  last_component output_file <> EmptyString ->
  output_ext_of (output_file +:+ "." +:+ fmt) = fmt.
Proof.
  intros Hfmt Hlast. unfold last_component in Hlast.
  destruct (str_split_snoc "/" output_file) as (init & lst & Ha & Hb).
  rewrite Ha, last_snoc in Hlast.
  assert (Hc : count_char "/" ("." +:+ fmt) = 0%nat).
  { repeat (apply elem_of_cons in Hfmt as [-> | Hfmt]; [reflexivity|]).
    by apply elem_of_nil in Hfmt. }
  assert (Hname : path_name (output_file +:+ "." +:+ fmt) = lst +:+ "." +:+ fmt).
  { unfold path_name. rewrite (Hb _ Hc), List.filter_app. simpl.
    change (lst +:+ "." +:+ fmt) with (lst +:+ String "." fmt).
    rewrite string_eqb_app_not_empty.
    assert (Hdot : String.eqb (lst +:+ String "." fmt) "." = false).
    { apply String.eqb_neq. intros Heq. destruct lst as [|x lst]; [done|].
      rewrite string_app_cons in Heq. injection Heq as _ Heq.
      by apply string_app_not_empty in Heq. }
    rewrite Hdot. simpl. apply last_snoc. }
  assert (Hdots : count_char "." fmt = 0%nat).
  { repeat (apply elem_of_cons in Hfmt as [-> | Hfmt]; [reflexivity|]).
    by apply elem_of_nil in Hfmt. }
  unfold output_ext_of, path_suffix. rewrite Hname.
  change (lst +:+ "." +:+ fmt) with (lst +:+ String "." fmt).
  rewrite (str_rfind_char_app "." lst fmt Hdots).
  assert (Hcond : ((0 <? String.length lst)
                   && (String.length lst
                       <? String.length (lst +:+ String "." fmt) - 1))%nat = true).
  { rewrite string_app_length. simpl.
    assert (0 < String.length lst)%nat by (destruct lst; [done | simpl; lia]).
    assert (0 < String.length fmt)%nat.
    { repeat (apply elem_of_cons in Hfmt as [-> | Hfmt]; [simpl; lia|]).
      by apply elem_of_nil in Hfmt. }
    apply andb_true_intro. split; apply Nat.ltb_lt; lia. }
  rewrite Hcond.
  repeat (apply elem_of_cons in Hfmt as [-> | Hfmt]; [reflexivity|]).
  by apply elem_of_nil in Hfmt.
Qed.

Lemma final_output_name_format output_file fmt :
  fmt <> EmptyString ->
  final_output_name output_file (Some fmt)
  = if String.eqb (output_ext_of output_file) fmt then output_file
    else output_file +:+ "." +:+ fmt.
Proof. by destruct fmt. Qed.

Lemma format_choices_not_empty fmt : fmt ∈ format_choices -> fmt <> EmptyString.
Proof.
  intros Hfmt ->. repeat (apply elem_of_cons in Hfmt as [[=] | Hfmt]).
  by apply elem_of_nil in Hfmt.
Qed.

(** X21: the format given on the command line.  For a format among the
    choices and an output name whose last component is not empty, the name
    passed to [srt_to_audio_numpy] has that format as its extension; applying
    the override again changes nothing; and the export converts with
    [ffmpeg] exactly when the format is [m4a] or [opus]. *)
Theorem format_override_sets_the_extension output_file fmt :
  fmt ∈ format_choices ->
  last_component output_file <> EmptyString ->
  output_ext_of (final_output_name output_file (Some fmt)) = fmt /\
  final_output_name (final_output_name output_file (Some fmt)) (Some fmt)
  = final_output_name output_file (Some fmt) /\
  (String.eqb fmt "m4a" || String.eqb fmt "opus"
   = String.eqb (output_ext_of (final_output_name output_file (Some fmt))) "m4a"
     || String.eqb (output_ext_of (final_output_name output_file (Some fmt))) "opus").
Proof.
  intros Hfmt Hlast. pose proof (format_choices_not_empty fmt Hfmt) as Hne.
  assert (Hext : output_ext_of (final_output_name output_file (Some fmt)) = fmt).
  { rewrite final_output_name_format by exact Hne.
    destruct (String.eqb (output_ext_of output_file) fmt) eqn:He.
    - by apply String.eqb_eq in He.
    - by apply output_ext_of_appended. }
  split; [exact Hext|]. split; [|by rewrite Hext].
  rewrite (final_output_name_format (final_output_name output_file (Some fmt)))
    by exact Hne.
  by rewrite Hext, String.eqb_refl.
Qed.

(** X21, an instance: [--format opus] on [talk/dub.mp3]. *)
Lemma format_override_sets_the_extension_witness :
  final_output_name "talk/dub.mp3" (Some "opus") = "talk/dub.mp3.opus" /\
  output_ext_of (final_output_name "talk/dub.mp3" (Some "opus")) = "opus".
Proof.
  split; [reflexivity|].
  apply (format_override_sets_the_extension "talk/dub.mp3" "opus").
  - unfold format_choices. do 2 apply list_elem_of_further. apply list_elem_of_here.
  - vm_compute. discriminate.
Defined.

(** ** Clips served from the cache *)

Lemma exists_nonempty_Some (fs : files) (path : string) (b : bytes) :
  fs !! path = Some b -> b <> [] -> exists_nonempty fs path = true.
Proof. unfold exists_nonempty. intros -> Hb. by destruct b. Qed.

Lemma first_pass_copies_cached W fs temp_dir resume subs n : forall i sub b,
  subs !! i = Some sub ->
  cue_text sub <> EmptyString ->
  resume && exists_nonempty fs (raw_audio_path temp_dir i) = false ->
  fs !! cache_path_of W temp_dir (cue_text sub) = Some b ->
  b <> [] ->
  copy2_ok W FirstPass i = true ->
  ps_files (first_pass W temp_dir resume 0 subs (initial_prepare_state fs n))
    !! raw_audio_path temp_dir i = Some b.
Proof.
  induction subs as [|s subs IH] using rev_ind;
    intros i sub b Hi Htext Hres Hcache Hb Hcopy; [done|].
  rewrite first_pass_app. cbn [first_pass]. rewrite Nat.add_0_l.
  pose proof (first_pass_inv_final W fs temp_dir resume subs n) as Hinv.
  set (p := first_pass W temp_dir resume 0 subs _) in *.
  pose proof (first_pass_step_shape W temp_dir resume p (length subs) s) as (Hfs & _).
  apply lookup_snoc_Some in Hi as [[Hlt Hi] | [-> <-]].
  - rewrite Hfs by (intros Heq%raw_audio_path_inj; lia). by eapply IH.
  - assert (Hraw : ps_files p !! raw_audio_path temp_dir (length subs)
                   = fs !! raw_audio_path temp_dir (length subs)).
    { apply (fpi_files _ _ _ _ _ _ Hinv). intros j Hj Heq%raw_audio_path_inj. lia. }
    assert (Hc : ps_files p !! cache_path_of W temp_dir (cue_text s) = Some b).
    { rewrite <- Hcache. apply (fpi_files _ _ _ _ _ _ Hinv). intros j _ Heq.
      symmetry in Heq. by apply raw_audio_path_not_cache in Heq. }
    unfold first_pass_step.
    rewrite bool_decide_eq_false_2 by exact Htext.
    rewrite (exists_nonempty_ext _ _ _ Hraw), Hres.
    rewrite (exists_nonempty_Some _ _ _ Hc Hb), Hcopy. simpl.
    unfold copy_file. rewrite Hc. apply lookup_insert_eq.
Qed.

(** X10: a clip served from the cache.  For a cue with text that is not
    resumed, whose text has a cache file that is not empty, and whose copy
    in the first pass succeeds: the cue is not scheduled, and when the
    preparation completes its clip holds the bytes the cache file had
    before the run, whatever was generated in between. *)
Theorem cached_clip_is_copied W fs temp_dir subs resume batch_size retries fs'
    stats errs i sub b :
  prepare_clips W fs temp_dir subs resume batch_size retries = OK (fs', stats, errs) ->
  subs !! i = Some sub ->
  cue_text sub <> EmptyString ->
  resume && exists_nonempty fs (raw_audio_path temp_dir i) = false ->
  fs !! cache_path_of W temp_dir (cue_text sub) = Some b ->
  b <> [] ->
  copy2_ok W FirstPass i = true ->
  fs' !! raw_audio_path temp_dir i = Some b /\
  forall text path, (text, path, i) ∉ scheduled_segments W fs temp_dir resume subs.
Proof.
  intros Hrun Hi Htext Hres Hcache Hb Hcopy.
  assert (Hnot : forall text path,
             (text, path, i) ∉ scheduled_segments W fs temp_dir resume subs).
  { intros text path Hin.
    apply scheduled_shape in Hin as (sub' & Hi' & _ & _ & Hn).
    rewrite Hi in Hi'. injection Hi' as <-.
    unfold needs_generation in Hn.
    rewrite (exists_nonempty_Some _ _ _ Hcache Hb), Hcopy in Hn. simpl in Hn.
    by rewrite andb_false_r in Hn. }
  split; [|exact Hnot].
  pose proof (first_pass_copies_cached W fs temp_dir resume subs (length subs)
                i sub b Hi Htext Hres Hcache Hb Hcopy) as Hfirst.
  apply prepare_clips_OK in Hrun
    as [(_ & _ & _ & ->) | (_ & fs1 & errors & Hgen & _ & _ & ->)].
  - rewrite propagate_keeps_existing; [exact Hfirst|].
    by apply (exists_nonempty_Some _ _ b).
  - fold (scheduled_segments W fs temp_dir resume subs) in *.
    assert (Hafter :
      (fold_left (after_generation_step W temp_dir errors)
         (scheduled_segments W fs temp_dir resume subs)
         (fs1, ps_stats (first_pass W temp_dir resume 0 subs
                           (initial_prepare_state fs (length subs))))).1
        !! raw_audio_path temp_dir i = Some b).
    { rewrite after_generation_frame.
      - simpl. rewrite <- Hfirst.
        eapply generate_audio_batch_frame; [exact Hgen|].
        intros ([[t q] j] & Hq & Hin)%list_elem_of_fmap.
        unfold seg_path in Hq. simpl in Hq. subst q.
        apply scheduled_shape in Hin as (_ & _ & _ & Hp & _).
        by apply raw_audio_path_not_cache in Hp.
      - intros idx ([[t q] j] & Hq & Hin)%list_elem_of_fmap Heq.
        unfold seg_index in Hq. simpl in Hq. subst idx.
        apply raw_audio_path_inj in Heq as <-. by apply Hnot in Hin. }
    rewrite propagate_keeps_existing; [exact Hafter|].
    by apply (exists_nonempty_Some _ _ b).
Qed.

(** X10, an instance: the second cue of a text whose clip is cached. *)
Lemma cached_clip_is_copied_witness :
  exists fs' stats errs,
    prepare_clips demo_world warm_cache "tmp" repeated_cues false 10 10
    = OK (fs', stats, errs) /\
    fs' !! raw_audio_path "tmp" 1 = Some [Byte.x07].
Proof.
  assert (Hok :
    (if prepare_clips demo_world warm_cache "tmp" repeated_cues false 10 10
     is OK _ then true else false) = true)
    by (vm_compute; reflexivity).
  destruct (prepare_clips demo_world warm_cache "tmp" repeated_cues false 10 10)
    as [[[fs' stats] errs]|e] eqn:Hrun; [|discriminate Hok].
  exists fs', stats, errs. split; [reflexivity|].
  apply (cached_clip_is_copied _ _ _ _ _ _ _ _ _ _ 1%nat (cue 1 0 2 0 "Hello")
           [Byte.x07] Hrun); try reflexivity; discriminate.
Defined.

(** ** From the backend to the clips *)

(** What a generation that succeeds at attempt [k] returns. *)
Lemma generate_audio_segment_success W text path retries fs k b :
  Z.of_nat k <= retries ->
  tts_save W text path k = Some b ->
  (forall j, (j < k)%nat -> tts_save W text path j = None) ->
  generate_audio_segment W text path retries fs = (<[path := b]> fs, None).
Proof.
  intros Hk Hok Hfail. unfold generate_audio_segment.
  apply (generate_audio_segment_loop_first_success W text path retries fs b k 0%nat);
    [lia | simpl; lia | exact Hok | exact Hfail].
Qed.

(** After the batch, the cache file of a text holds what the backend wrote
    for it, when no other text is generated at the same path. *)
Lemma generate_one_writes W retries text path k b segs : forall acc,
  Z.of_nat k <= retries ->
  tts_save W text path k = Some b ->
  (forall j, (j < k)%nat -> tts_save W text path j = None) ->
  (forall item, item ∈ segs -> seg_path item = path -> seg_text item = text) ->
  text ∈ map seg_text segs \/ acc.1 !! path = Some b ->
  (forall item, item ∈ segs -> seg_text item = text -> seg_path item = path) ->
  (fold_left (generate_one W retries) segs acc).1 !! path = Some b.
Proof.
  intros acc Hk Hok Hfail. revert acc.
  induction segs as [|[[t q] i] segs IH]; intros acc Hsame Hin Hpath.
  - simpl. destruct Hin as [Hin | Hacc]; [by apply elem_of_nil in Hin | exact Hacc].
  - cbn [fold_left]. apply IH.
    + intros item Hitem. apply Hsame. by right.
    + destruct (decide (q = path)) as [->|Hne].
      * right. assert (t = text) as ->.
        { apply (Hsame (t, path, i)); [by left | reflexivity]. }
        unfold generate_one.
        rewrite (generate_audio_segment_success W text path retries acc.1 k b Hk Hok Hfail).
        simpl. apply lookup_insert_eq.
      * destruct Hin as [Hin | Hacc].
        -- simpl in Hin. apply elem_of_cons in Hin as [Heq | Hin]; [|by left].
           exfalso. apply Hne. apply (Hpath (t, q, i)); [by left | by symmetry].
        -- right. unfold generate_one.
           pose proof (generate_audio_segment_loop_frame W t q retries
                         (seq 0 (Z.to_nat (retries + 1))) acc.1 path
                         ltac:(congruence)) as Hf.
           unfold generate_audio_segment.
           destruct (generate_audio_segment_loop W t q retries _ acc.1) as [fs e].
           simpl in *. by rewrite Hf.
    + intros item Hitem. apply Hpath. by right.
Qed.

(** The copy after a generation that succeeded. *)
Lemma after_generation_copies W temp_dir errors path idx b segs : forall acc,
  NoDup (map seg_index segs) ->
  errors !! idx = Some None ->
  copy2_ok W AfterGeneration idx = true ->
  acc.1 !! path = Some b ->
  (exists text, (text, path, idx) ∈ segs) ->
  (forall item, item ∈ segs -> forall j, seg_path item <> raw_audio_path temp_dir j) ->
  (fold_left (after_generation_step W temp_dir errors) segs acc).1
    !! raw_audio_path temp_dir idx = Some b.
Proof.
  intros acc Hnd Herr Hcopy Hacc [text Hin] Hpaths. revert acc Hacc.
  induction segs as [|[[t q] i] segs IH]; intros acc Hacc;
    [by apply elem_of_nil in Hin|].
  simpl in Hnd. apply NoDup_cons in Hnd as [Hnot Hnd].
  cbn [fold_left]. apply elem_of_cons in Hin as [Heq | Hin].
  - injection Heq as <- <- <-.
    rewrite after_generation_frame.
    + unfold after_generation_step. rewrite Herr.
      unfold path_exists. rewrite Hacc, bool_decide_eq_true_2 by eauto.
      rewrite Hcopy. simpl. unfold copy_file. rewrite Hacc.
      apply lookup_insert_eq.
    + intros j Hj Heq%raw_audio_path_inj. by subst j.
  - apply IH; [exact Hnd | exact Hin | |].
    + intros item Hitem. apply Hpaths. by right.
    + assert (Hq : path <> raw_audio_path temp_dir i).
      { apply list_elem_of_fmap_2 with (f := seg_path) in Hin as Hin'.
        intros Heq. apply (Hpaths (text, path, idx) ltac:(by right) i). exact Heq. }
      unfold after_generation_step.
      destruct (errors !! i) as [[e|]|]; try exact Hacc.
      destruct (path_exists _ _); [|exact Hacc].
      destruct (copy2_ok W AfterGeneration i); [|exact Hacc].
      simpl. by rewrite copy_file_lookup_ne.
Qed.

(** A text is scheduled at one index. *)
Lemma scheduled_text_index W fs temp_dir resume subs text p1 i1 p2 i2 :
  (text, p1, i1) ∈ scheduled_segments W fs temp_dir resume subs ->
  (text, p2, i2) ∈ scheduled_segments W fs temp_dir resume subs ->
  i1 = i2.
Proof.
  destruct (scheduled_segments_inv W fs temp_dir resume subs) as (p & Hinv & ->).
  intros [a Ha]%list_elem_of_lookup [c Hc]%list_elem_of_lookup.
  pose proof (fpi_nodup _ _ _ _ _ _ Hinv) as Hnd.
  assert (a = c) as ->.
  { eapply (NoDup_lookup _ a c text Hnd); rewrite list_lookup_fmap.
    - by rewrite Ha.
    - by rewrite Hc. }
  congruence.
Qed.

(** The first pass leaves the clip of a cue that needs a generated clip. *)
Lemma first_pass_keeps_needing W fs temp_dir resume subs n : forall i sub,
  subs !! i = Some sub ->
  needs_generation W fs temp_dir resume i sub = true ->
  ps_files (first_pass W temp_dir resume 0 subs (initial_prepare_state fs n))
    !! raw_audio_path temp_dir i
  = fs !! raw_audio_path temp_dir i.
Proof.
  induction subs as [|s subs IH] using rev_ind; intros i sub Hi Hn; [done|].
  rewrite first_pass_app. cbn [first_pass]. rewrite Nat.add_0_l.
  pose proof (first_pass_inv_final W fs temp_dir resume subs n) as Hinv.
  set (p := first_pass W temp_dir resume 0 subs _) in *.
  pose proof (first_pass_step_shape W temp_dir resume p (length subs) s) as (Hfs & _).
  apply lookup_snoc_Some in Hi as [[Hlt Hi] | [-> <-]].
  - rewrite Hfs by (intros Heq%raw_audio_path_inj; lia). by eapply IH.
  - assert (Hp : ps_files p !! raw_audio_path temp_dir (length subs)
                 = fs !! raw_audio_path temp_dir (length subs)).
    { apply (fpi_files _ _ _ _ _ _ Hinv). intros j Hj Heq%raw_audio_path_inj. lia. }
    assert (Hc : ps_files p !! cache_path_of W temp_dir (cue_text s)
                 = fs !! cache_path_of W temp_dir (cue_text s)).
    { apply (fpi_files _ _ _ _ _ _ Hinv). intros j _ Heq.
      symmetry in Heq. by apply raw_audio_path_not_cache in Heq. }
    rewrite <- Hp. unfold needs_generation in Hn. unfold first_pass_step.
    rewrite (exists_nonempty_ext _ _ _ Hp), (exists_nonempty_ext _ _ _ Hc).
    case_bool_decide; [reflexivity|]. simpl in Hn.
    destruct (resume && _); [discriminate Hn|]. simpl in Hn.
    destruct (exists_nonempty fs (cache_path_of _ _ _)); simpl in Hn.
    + destruct (copy2_ok W FirstPass (length subs)); [discriminate Hn|].
      unfold schedule. by destruct (text_to_cache p !! _).
    + unfold schedule. by destruct (text_to_cache p !! _).
Qed.

(** X22: from the backend to the clip of a cue.  In a preparation that
    completes with a positive batch size, take a cue that needs a generated
    clip and has no clip of its own yet, whose cache file is shared with no
    other text to generate.  When the backend fails for the text at the
    attempts before [k] and writes [b] at attempt [k], with [k] at most
    [retries], and the copies succeed, the clip of the cue and the cache
    file of its text both hold [b] at the end. *)
Theorem generated_clip_reaches_the_cue W fs temp_dir subs resume batch_size retries
    fs' stats errs i sub k b :
  prepare_clips W fs temp_dir subs resume batch_size retries = OK (fs', stats, errs) ->
  0 < batch_size ->
  subs !! i = Some sub ->
  needs_generation W fs temp_dir resume i sub = true ->
  exists_nonempty fs (raw_audio_path temp_dir i) = false ->
  (forall j sub',
      subs !! j = Some sub' ->
      needs_generation W fs temp_dir resume j sub' = true ->
      cache_path_of W temp_dir (cue_text sub')
      = cache_path_of W temp_dir (cue_text sub) ->
      cue_text sub' = cue_text sub) ->
  Z.of_nat k <= retries ->
  tts_save W (cue_text sub) (cache_path_of W temp_dir (cue_text sub)) k = Some b ->
  (forall j, (j < k)%nat ->
     tts_save W (cue_text sub) (cache_path_of W temp_dir (cue_text sub)) j = None) ->
  (forall j, copy2_ok W AfterGeneration j = true) ->
  (forall j, copy2_ok W Propagation j = true) ->
  fs' !! raw_audio_path temp_dir i = Some b /\
  fs' !! cache_path_of W temp_dir (cue_text sub) = Some b.
Proof.
  intros Hrun Hb Hi Hn Hraw Hshare Hk Hok Hfail Hcopy1 Hcopy2.
  set (T := cue_text sub) in *. set (P := cache_path_of W temp_dir T) in *.
  assert (Htext : T <> EmptyString).
  { intros Heq. unfold needs_generation in Hn. fold T in Hn.
    by rewrite bool_decide_eq_true_2 in Hn by exact Heq. }
  destruct (scheduled_entry W fs temp_dir resume subs i sub Hi Hn)
    as (idx & sub' & Hin & Hidx & Ht). fold T P in Hin, Ht.
  pose proof (first_pass_keeps_needing W fs temp_dir resume subs (length subs)
                i sub Hi Hn) as Hfirst.
  pose proof (first_pass_keeps_cache W fs temp_dir resume subs (length subs) T)
    as Hcache0.
  destruct (scheduled_segments_inv W fs temp_dir resume subs) as (p & Hinv & Hp).
  pose proof (scheduled_index_nodup _ _ _ _ _ _ Hinv) as Hnd. rewrite <- Hp in Hnd.
  apply prepare_clips_OK in Hrun
    as [(Hnone & _) | (_ & fs1 & errors & Hgen & _ & _ & ->)];
    [rewrite Hnone in Hin; by apply elem_of_nil in Hin|].
  fold (scheduled_segments W fs temp_dir resume subs) in *.
  set (p0 := first_pass W temp_dir resume 0 subs _) in *.
  rewrite generate_audio_batch_positive in Hgen by exact Hb.
  injection Hgen as Hgen.
  (* the cache file after the batch *)
  assert (Hfs1 : fs1 !! P = Some b).
  { pose proof (generate_one_writes W retries T P k b
                  (scheduled_segments W fs temp_dir resume subs) (ps_files p0, ∅)
                  Hk Hok Hfail) as Hw.
    rewrite Hgen in Hw. apply Hw.
    - intros [[t q] j] Hitem Hq. unfold seg_path, seg_text in *. simpl in *.
      subst q. apply scheduled_shape in Hitem as (sj & Hj & Htj & Hpj & Hnj).
      rewrite <- Htj. apply (Hshare j sj Hj Hnj). rewrite Htj. by symmetry.
    - left. apply list_elem_of_fmap. by exists (T, P, idx).
    - intros [[t q] j] Hitem Hq. unfold seg_path, seg_text in *. simpl in *.
      subst t. by apply scheduled_shape in Hitem as (_ & _ & _ & -> & _). }
  (* its outcome *)
  assert (Herr : errors !! idx = Some None).
  { pose proof (generate_one_outcome W retries
                  (scheduled_segments W fs temp_dir resume subs) (ps_files p0, ∅)
                  T P idx Hnd Hin) as Ho.
    rewrite Hgen in Ho. simpl in Ho. rewrite Ho. f_equal.
    unfold generation_outcome.
    by rewrite (generate_audio_segment_success W T P retries ∅ k b Hk Hok Hfail). }
  set (fs2 := (fold_left (after_generation_step W temp_dir errors)
                 (scheduled_segments W fs temp_dir resume subs)
                 (fs1, ps_stats p0)).1).
  assert (Hnotraw : forall item,
             item ∈ scheduled_segments W fs temp_dir resume subs ->
             forall j, seg_path item <> raw_audio_path temp_dir j).
  { intros [[t q] j] Hitem j' Heq. unfold seg_path in Heq. simpl in Heq.
    apply scheduled_shape in Hitem as (_ & _ & _ & -> & _).
    symmetry in Heq. by apply raw_audio_path_not_cache in Heq. }
  assert (Hfs2idx : fs2 !! raw_audio_path temp_dir idx = Some b).
  { apply (after_generation_copies W temp_dir errors P idx b); try done.
    by exists T. }
  assert (Hfs2P : fs2 !! P = Some b).
  { unfold fs2. rewrite after_generation_frame; [exact Hfs1|].
    intros j _ Heq. symmetry in Heq. by apply raw_audio_path_not_cache in Heq. }
  split; [|subst P; rewrite propagate_keeps_cache; exact Hfs2P].
  destruct (exists_nonempty fs2 (raw_audio_path temp_dir i)) eqn:Hex.
  - rewrite propagate_keeps_existing by exact Hex.
    destruct (decide (i = idx)) as [->|Hne]; [exact Hfs2idx|]. exfalso.
    assert (Hsame : fs2 !! raw_audio_path temp_dir i = fs !! raw_audio_path temp_dir i).
    { unfold fs2. rewrite after_generation_frame.
      - simpl. rewrite <- Hfirst.
        pose proof (generate_one_frame W retries
                      (scheduled_segments W fs temp_dir resume subs)
                      (ps_files p0, ∅) (raw_audio_path temp_dir i)) as Hf.
        rewrite Hgen in Hf. apply Hf.
        intros (item & Hq & Hitem)%list_elem_of_fmap.
        by apply (Hnotraw item Hitem i).
      - intros j ([[t q] j'] & Hq & Hitem)%list_elem_of_fmap Heq.
        unfold seg_index in Hq. simpl in Hq. subst j'.
        apply raw_audio_path_inj in Heq as <-.
        pose proof Hitem as Hshape.
        apply scheduled_shape in Hshape as (si & Hsi & Hti & _).
        rewrite Hi in Hsi. injection Hsi as <-. fold T in Hti. subst t.
        apply Hne. eapply scheduled_text_index; [exact Hitem | exact Hin]. }
    rewrite (exists_nonempty_ext _ _ _ Hsame) in Hex. congruence.
  - apply (propagate_copies W temp_dir subs 0 fs2 i sub b Hi Htext Hex Hfs2P).
    apply Hcopy2.
Qed.

(** X22, an instance: the second cue saying [Hello], with a backend that
    succeeds at the third attempt. *)
Lemma generated_clip_reaches_the_cue_witness :
  exists fs' stats errs,
    prepare_clips flaky_world ∅ "tmp" repeated_cues false 10 2
    = OK (fs', stats, errs) /\
    fs' !! raw_audio_path "tmp" 1 = Some [Byte.x2a].
Proof.
  assert (Hok :
    (if prepare_clips flaky_world ∅ "tmp" repeated_cues false 10 2
     is OK _ then true else false) = true)
    by (vm_compute; reflexivity).
  destruct (prepare_clips flaky_world ∅ "tmp" repeated_cues false 10 2)
    as [[[fs' stats] errs]|e] eqn:Hrun; [|discriminate Hok].
  exists fs', stats, errs. split; [reflexivity|].
  apply (generated_clip_reaches_the_cue _ _ _ _ _ _ _ _ _ _ 1%nat
           (cue 1 0 2 0 "Hello") 2%nat [Byte.x2a] Hrun); try reflexivity.
  - intros j sub' Hj _ Heq.
    destruct j as [|[|[|[|j]]]]; simpl in Hj; try discriminate Hj;
      injection Hj as <-; try reflexivity; vm_compute in Heq; discriminate Heq.
  - intros j Hj. destruct j as [|[|j]]; [reflexivity | reflexivity | lia].
Defined.

(** X23: a leftover clip of a repeated text.  Without [resume], a cue that
    needs a generated clip but is not the first with its text among those
    is never scheduled, and gets its clip only from the propagation, which
    skips a clip that is there: when the temporary directory already holds
    a clip for it, a preparation that completes leaves that clip as it
    was. *)
Theorem leftover_clip_of_repeated_text_is_kept W fs temp_dir subs batch_size
    retries fs' stats errs i j sub sub_j :
  prepare_clips W fs temp_dir subs false batch_size retries = OK (fs', stats, errs) ->
  subs !! i = Some sub ->
  subs !! j = Some sub_j ->
  (j < i)%nat ->
  cue_text sub_j = cue_text sub ->
  needs_generation W fs temp_dir false j sub_j = true ->
  needs_generation W fs temp_dir false i sub = true ->
  exists_nonempty fs (raw_audio_path temp_dir i) = true ->
  fs' !! raw_audio_path temp_dir i = fs !! raw_audio_path temp_dir i /\
  forall text path, (text, path, i) ∉ scheduled_segments W fs temp_dir false subs.
Proof.
  intros Hrun Hi Hj Hlt Htext Hnj Hni Hex.
  assert (Hnot : forall text path,
             (text, path, i) ∉ scheduled_segments W fs temp_dir false subs).
  { intros text path Hin.
    destruct (scheduled_segments_inv W fs temp_dir false subs) as (p & Hinv & Hp).
    rewrite Hp in Hin.
    apply (fpi_sched _ _ _ _ _ _ Hinv) in Hin as (si & Hsi & Hti & _ & _ & Hfirst).
    rewrite Hi in Hsi. injection Hsi as <-.
    apply (Hfirst j sub_j Hlt Hj Hnj). congruence. }
  split; [|exact Hnot].
  pose proof (first_pass_keeps_needing W fs temp_dir false subs (length subs)
                i sub Hi Hni) as Hfirst.
  apply prepare_clips_OK in Hrun
    as [(_ & _ & _ & ->) | (_ & fs1 & errors & Hgen & _ & _ & ->)].
  - rewrite propagate_keeps_existing; [exact Hfirst|].
    by rewrite (exists_nonempty_ext _ _ _ Hfirst).
  - fold (scheduled_segments W fs temp_dir false subs) in *.
    assert (Hafter :
      (fold_left (after_generation_step W temp_dir errors)
         (scheduled_segments W fs temp_dir false subs)
         (fs1, ps_stats (first_pass W temp_dir false 0 subs
                           (initial_prepare_state fs (length subs))))).1
        !! raw_audio_path temp_dir i
      = fs !! raw_audio_path temp_dir i).
    { rewrite after_generation_frame.
      - simpl. rewrite <- Hfirst.
        eapply generate_audio_batch_frame; [exact Hgen|].
        intros ([[t q] k] & Hq & Hin)%list_elem_of_fmap.
        unfold seg_path in Hq. simpl in Hq. subst q.
        apply scheduled_shape in Hin as (_ & _ & _ & Hp & _).
        by apply raw_audio_path_not_cache in Hp.
      - intros idx ([[t q] k] & Hq & Hin)%list_elem_of_fmap Heq.
        unfold seg_index in Hq. simpl in Hq. subst idx.
        apply raw_audio_path_inj in Heq as <-. by apply Hnot in Hin. }
    rewrite propagate_keeps_existing; [exact Hafter|].
    by rewrite (exists_nonempty_ext _ _ _ Hafter).
Qed.

(** X23, an instance: the second cue saying [Hello] keeps the clip it
    had. *)
Lemma leftover_clip_of_repeated_text_is_kept_witness :
  exists fs' stats errs,
    prepare_clips demo_world two_clips "tmp" repeated_cues false 10 10
    = OK (fs', stats, errs) /\
    fs' !! raw_audio_path "tmp" 1 = Some [Byte.x03].
Proof.
  assert (Hok :
    (if prepare_clips demo_world two_clips "tmp" repeated_cues false 10 10
     is OK _ then true else false) = true)
    by (vm_compute; reflexivity).
  destruct (prepare_clips demo_world two_clips "tmp" repeated_cues false 10 10)
    as [[[fs' stats] errs]|e] eqn:Hrun; [|discriminate Hok].
  exists fs', stats, errs. split; [reflexivity|].
  rewrite (proj1 (leftover_clip_of_repeated_text_is_kept _ _ _ _ _ _ _ _ _
                    1%nat 0%nat (cue 1 0 2 0 "Hello") (cue 0 0 1 0 "Hello") Hrun
                    eq_refl eq_refl ltac:(lia) eq_refl eq_refl eq_refl eq_refl)).
  reflexivity.
Defined.
